(** * Slot selection of [apps-script/scheduling-tracks.js]

    A shallow embedding of the availability index builder
    ([findAvailableSlots], [findAvailableSlotsForEmails]) and of the two
    greedy selectors ([getMinimumTimeSlots], [getIterativeTimeSlots]),
    together with the sheet writers they feed.

    Conventions of the embedding:
    - a JavaScript string is a [string] (ASCII text);
    - an array of strings is a [list string];
    - a [Set] of strings is a [gset string] (only [add], [delete], [has]
      and [size] are used by the code, so the iteration order of the set
      is immaterial);
    - an object used as a dictionary from slot labels to arrays is an
      association list in property order, see [JsObject];
    - a number that is a count is a [nat], a numeric parameter is a [Z]. *)

From Stdlib Require Import ZArith Ascii String.
From stdpp Require Import base list strings gmap sets sorting.

Open Scope string_scope.
Open Scope list_scope.
Open Scope nat_scope.

Set Warnings "-clear-no-such-hyp".

(** ** Outcome of a call *)

Inductive JsError : Type :=
  | TypeError.

(** [OutOfFuel] is an artefact of modelling [while] loops by recursion
    on a counter; the theorems below show it is never produced when the
    counter starts at the stated bound. *)
Inductive outcome (A : Type) : Type :=
  | Returned (a : A)
  | Thrown (e : JsError)
  | OutOfFuel.

Arguments Returned {A} a.
Arguments Thrown {A} e.
Arguments OutOfFuel {A}.

(** ** [Array.prototype.sort] with a comparator

    The sort of the V8 runtime is stable.  For a comparator that is
    consistent (here always a difference of two counts) a stable sort
    has exactly one result, which the insertion sort below computes:
    [x] goes in front of the first [y] that the comparator does not
    order before it (see [sort_Permutation], [sort_by_key_sorted] and
    [sort_by_key_stable]). *)

Section Sort.
Context {A : Type} (cmp : A → A → Z).

Fixpoint sort_insert (x : A) (l : list A) : list A :=
  match l with
  | [] => [x]
  | y :: l' =>
      if decide (cmp x y ≤ 0)%Z then x :: y :: l' else y :: sort_insert x l'
  end.

Fixpoint sort (l : list A) : list A :=
  match l with
  | [] => []
  | x :: l' => sort_insert x (sort l')
  end.
End Sort.

(** ** Objects used as dictionaries

    The own properties of an object whose keys are not array indices are
    enumerated in insertion order.  Slot labels are a day name, a space
    and a token ("Mon 10am"), so they never are array indices.  The
    object is therefore the list of its entries, in insertion order,
    with pairwise distinct keys ([wf]). *)

Module JsObject.
Abbreviation t := (list (string * list string)).

Definition keys (o : t) : list string := o.*1.
Definition values (o : t) : list (list string) := o.*2.
Definition entries (o : t) : list (string * list string) := o.

Definition wf (o : t) : Prop := NoDup (keys o).

(** [o[k]] *)
Fixpoint get (o : t) (k : string) : option (list string) :=
  match o with
  | [] => None
  | (k', v) :: o' => if decide (k' = k) then Some v else get o' k
  end.

(** [o[k] = v]: an existing property keeps its place, a new one goes
    last. *)
Fixpoint set (o : t) (k : string) (v : list string) : t :=
  match o with
  | [] => [(k, v)]
  | (k', v') :: o' =>
      if decide (k' = k) then (k', v) :: o' else (k', v') :: set o' k v
  end.

(** [delete o[k]] *)
Definition delete (o : t) (k : string) : t :=
  filter (λ e, e.1 ≠ k) o.

(** [Object.fromEntries(l)] *)
Definition fromEntries (l : list (string * list string)) : t :=
  foldl (λ o e, set o e.1 e.2) [] l.
End JsObject.

(** [new Set(Object.values(o).flat())] *)
Definition allOf (o : JsObject.t) : gset string :=
  list_to_set (concat (JsObject.values o)).

(** ** [getMinimumTimeSlots] *)

Record MinCover : Type := mkMinCover {
  studentsCovered : gset string;
  selectedSlots : JsObject.t;
  filteredSlots : JsObject.t
}.

(** [a[1].filter(email => !studentsCovered.has(email)).length] *)
Definition newCoverage (covered : gset string) (a : string * list string) : nat :=
  length (filter (λ email, email ∉ covered) a.2).

(** The comparator handed to [sort]: [newCoverageB - newCoverageA]. *)
Definition byNewCoverage (covered : gset string)
    (a b : string * list string) : Z :=
  (Z.of_nat (newCoverage covered b) - Z.of_nat (newCoverage covered a))%Z.

Definition sortedSlots (st : MinCover) : list (string * list string) :=
  sort (byNewCoverage (studentsCovered st))
       (JsObject.entries (filteredSlots st)).

(** One pass through the body of the [while] loop.  Destructuring
    [sortedSlots[0]] throws a [TypeError] when the array is empty.  A
    slot's value is an array, and every array is truthy, so the
    [if (bestSlotEmails)] test succeeds and the [else break] branch is
    never taken. *)
Definition minCoverRound (st : MinCover) : outcome MinCover :=
  match sortedSlots st with
  | [] => Thrown TypeError
  | (bestSlotKey, bestSlotEmails) :: _ =>
      Returned
        {| selectedSlots := JsObject.set (selectedSlots st) bestSlotKey bestSlotEmails;
           studentsCovered := studentsCovered st ∪ list_to_set bestSlotEmails;
           filteredSlots := JsObject.delete (filteredSlots st) bestSlotKey |}
  end.

(** [while (studentsCovered.size < allStudents.size) { ... }], run for at
    most [fuel] passes. *)
Fixpoint minCoverLoop (fuel : nat) (allStudents : gset string)
    (st : MinCover) : outcome MinCover :=
  if decide (size (studentsCovered st) < size allStudents) then
    match fuel with
    | O => OutOfFuel
    | S fuel' =>
        match minCoverRound st with
        | Returned st' => minCoverLoop fuel' allStudents st'
        | Thrown e => Thrown e
        | OutOfFuel => OutOfFuel
        end
    end
  else Returned st.

Definition minCoverInit (index : JsObject.t) : MinCover :=
  {| studentsCovered := ∅; selectedSlots := []; filteredSlots := index |}.

(** The call returns [selectedSlots]; the argument object is mutated in
    place, so its final content is returned alongside.  The loop is
    given one pass per distinct student. *)
Definition getMinimumTimeSlots (index : JsObject.t)
    : outcome (JsObject.t * JsObject.t) :=
  let allStudents := allOf index in
  match minCoverLoop (size allStudents) allStudents (minCoverInit index) with
  | Returned st => Returned (selectedSlots st, filteredSlots st)
  | Thrown e => Thrown e
  | OutOfFuel => OutOfFuel
  end.


(** ** Sheets

    A sheet is the grid of its cells, row by row; a spreadsheet maps
    sheet names to sheets.  Only the calls made by the writers are
    modelled: [clear], [appendRow] and [getRange(a1).setValue].
    [Logger.log] leaves no trace in the model. *)

Inductive cell : Type :=
  | Blank
  | Str (s : string)
  | Num (n : Z).

Module Sheet.
Abbreviation t := (list (list cell)).

Definition clear (s : t) : t := [].

Definition appendRow (row : list cell) (s : t) : t := s ++ [row].

(** The cell in row [r], column [c], both counted from 0. *)
Definition getValue (r c : nat) (s : t) : cell :=
  default Blank (s !! r ≫= λ row, row !! c).

(** Writing a cell outside the grid extends the grid by blank cells. *)
Definition setValue (r c : nat) (v : cell) (s : t) : t :=
  let s' := s ++ replicate (S r - length s) [] in
  let row := default [] (s' !! r) in
  <[r := <[c := v]> (row ++ replicate (S c - length row) Blank)]> s'.

(** A1 addresses used by the writers. *)
Definition D2 : nat * nat := (1, 3)%nat.
Definition E2 : nat * nat := (1, 4)%nat.
Definition F2 : nat * nat := (1, 5)%nat.
End Sheet.

(** [ss.getSheetByName(name) || ss.insertSheet(name)]: the sheet of that
    name, a new empty one when there is none.  Either way a sheet is
    obtained, so the [if (!sheet)] guard of the writers never fires. *)
Definition getOrInsertSheet (ss : gmap string Sheet.t) (sheetName : string) : Sheet.t :=
  default [] (ss !! sheetName).

(** [array.join(', ')] *)
Definition join (l : list string) : string := String.concat ", " l.

(** ** [getIterativeTimeSlots] *)

Record Iterative : Type := mkIterative {
  remainingStudents : gset string;
  finalSelections : list (string * list string * nat);
  totalStudents : nat
}.

(** [Object.entries(selectedSlots).map(...).filter(...).sort(...)]: each
    slot with its students still remaining and their number, empty ones
    dropped, most populated first. *)
Definition rankedSlots (selectedSlots : JsObject.t) (remaining : gset string)
    : list (string * list string * nat) :=
  sort (λ a b, Z.of_nat b.2 - Z.of_nat a.2)%Z
    (filter (λ e, 0 < e.2)
       (map (λ e : string * list string,
               let filteredEmails := filter (λ email, email ∈ remaining) e.2 in
               (e.1, filteredEmails, length filteredEmails))
            (JsObject.entries selectedSlots))).

(** What one pass through the body of the [while] loop does: either it
    leaves the loop through one of the two [break]s, or it records a
    selection and goes on. *)
Inductive round (A : Type) : Type :=
  | Break
  | Continue (a : A).

Arguments Break {A}.
Arguments Continue {A} a.

Definition iterativeRound (selectedSlots : JsObject.t) (minGroupSize : Z)
    (st : Iterative) : round Iterative :=
  match rankedSlots selectedSlots (remainingStudents st) with
  | [] => Break
  | (chosenSlot, chosenStudents, count) :: _ =>
      if decide (Z.of_nat count < minGroupSize)%Z then Break
      else Continue
        {| finalSelections := finalSelections st ++ [(chosenSlot, chosenStudents, count)];
           remainingStudents := remainingStudents st ∖ list_to_set chosenStudents;
           totalStudents := totalStudents st + count |}
  end.

(** [while (remainingStudents.size >= minGroupSize) { ... }], run for at
    most [fuel] passes. *)
Fixpoint iterativeLoop (fuel : nat) (selectedSlots : JsObject.t)
    (minGroupSize : Z) (st : Iterative) : outcome Iterative :=
  if decide (minGroupSize ≤ Z.of_nat (size (remainingStudents st)))%Z then
    match fuel with
    | O => OutOfFuel
    | S fuel' =>
        match iterativeRound selectedSlots minGroupSize st with
        | Continue st' => iterativeLoop fuel' selectedSlots minGroupSize st'
        | Break => Returned st
        end
    end
  else Returned st.

Definition iterativeInit (selectedSlots : JsObject.t) : Iterative :=
  {| remainingStudents := allOf selectedSlots; finalSelections := []; totalStudents := 0 |}.

(** The selection part of [getIterativeTimeSlots] (everything between
    the header row and the writing of the results).  A pass that goes on
    removes at least one student, so one pass per student and one more
    for the last test are enough. *)
Definition selectIterative (selectedSlots : JsObject.t) (minGroupSize : Z)
    : outcome Iterative :=
  iterativeLoop (S (size (allOf selectedSlots))) selectedSlots minGroupSize
    (iterativeInit selectedSlots).

Definition iterativeHeaders : list cell :=
  [Str "Time Slot"; Str "Students"; Str "Num Students"; Str "Excluded Students";
   Str "Num Excluded Students"; Str "Total Students"].

(** The sheet as the writing part of [getIterativeTimeSlots] leaves it. *)
Definition writeIterative (st : Iterative) (excludedStudents : list string)
    (sheet : Sheet.t) : Sheet.t :=
  let sheet := Sheet.clear sheet in
  let sheet := Sheet.appendRow iterativeHeaders sheet in
  let sheet :=
    foldl (λ sh row, Sheet.appendRow [Str row.1.1; Str (join row.1.2); Num (Z.of_nat row.2)] sh)
          sheet (finalSelections st) in
  let sheet :=
    if decide (0 < length excludedStudents)
    then Sheet.setValue Sheet.D2.1 Sheet.D2.2 (Str (join excludedStudents)) sheet
    else sheet in
  let sheet :=
    Sheet.setValue Sheet.E2.1 Sheet.E2.2 (Num (Z.of_nat (length excludedStudents))) sheet in
  Sheet.setValue Sheet.F2.1 Sheet.F2.2
    (Num (Z.of_nat (length excludedStudents + totalStudents st))) sheet.

(** The whole call: the spreadsheet after it.  [virtualStudents] is
    accepted and not used. *)
Definition getIterativeTimeSlots (selectedSlots : JsObject.t) (minGroupSize : Z)
    (sheetName : string) (virtualStudents excludedStudents : list string)
    (ss : gmap string Sheet.t) : outcome (gmap string Sheet.t) :=
  let sheet := getOrInsertSheet ss sheetName in
  match selectIterative selectedSlots minGroupSize with
  | Returned st => Returned (<[sheetName := writeIterative st excludedStudents sheet]> ss)
  | Thrown e => Thrown e
  | OutOfFuel => OutOfFuel
  end.

(** ** [writeSelectedSlotsToSheet] *)

Definition selectedHeaders : list cell :=
  [Str "Time Slot"; Str "Student Emails"; Str "Num Students"; Str "Virtual Students";
   Str "Exc Students"].

(** One row per selected slot: label, students, their number and the
    virtual students among them; largest slot first. *)
Definition selectedRows (selectedSlots : JsObject.t) (virtualStudents : list string)
    : list (string * string * nat * string) :=
  sort (λ a b, Z.of_nat b.1.2 - Z.of_nat a.1.2)%Z
    (map (λ e : string * list string,
            let matchingVirtualStudents :=
              join (filter (λ student, student ∈ e.2) virtualStudents) in
            (e.1, join e.2, length e.2, matchingVirtualStudents))
         (JsObject.entries selectedSlots)).

Definition writeSelectedSlotsToSheet (selectedSlots : JsObject.t)
    (sheetName : string) (virtualStudents excludedStudents : list string)
    (ss : gmap string Sheet.t) : gmap string Sheet.t :=
  let sheet := getOrInsertSheet ss sheetName in
  let sheet := Sheet.clear sheet in
  let sheet := Sheet.appendRow selectedHeaders sheet in
  let sheet :=
    foldl (λ sh row,
             Sheet.appendRow [Str row.1.1.1; Str row.1.1.2; Num (Z.of_nat row.1.2); Str row.2] sh)
          sheet (selectedRows selectedSlots virtualStudents) in
  let sheet :=
    if decide (0 < length excludedStudents)
    then Sheet.setValue Sheet.E2.1 Sheet.E2.2 (Str (join excludedStudents)) sheet
    else sheet in
  <[sheetName := sheet]> ss.

(** ** Strings: [trim], [split(',')], [includes] *)

(** White space of ASCII text: tab, line feed, vertical tab, form feed,
    carriage return and space. *)
Definition isWhitespace (c : ascii) : bool :=
  let n := nat_of_ascii c in
  ((9 <=? n) && (n <=? 13)) || (n =? 32).

Fixpoint trimStart (s : string) : string :=
  match s with
  | EmptyString => EmptyString
  | String c s' => if isWhitespace c then trimStart s' else s
  end.

Fixpoint trimEnd (s : string) : string :=
  match s with
  | EmptyString => EmptyString
  | String c s' =>
      match trimEnd s' with
      | EmptyString => if isWhitespace c then EmptyString else String c EmptyString
      | t => String c t
      end
  end.

Definition trim (s : string) : string := trimEnd (trimStart s).

(** [s.split(sep)] for a separator of one character; the result is never
    empty, and an empty piece is kept as the empty string. *)
Fixpoint split (sep : ascii) (s : string) : list string :=
  match s with
  | EmptyString => [EmptyString]
  | String c s' =>
      if decide (c = sep) then EmptyString :: split sep s'
      else match split sep s' with
           | [] => [String c EmptyString]
           | piece :: pieces => String c piece :: pieces
           end
  end.

(** [s.includes(sub)] *)
Fixpoint includes (s sub : string) : bool :=
  String.prefix sub s ||
  match s with
  | EmptyString => false
  | String _ s' => includes s' sub
  end.

(** ** The availability index builder

    [data] stands for [sheet.getDataRange().getValues()] of the sheet
    "final-availabilities": the rows of a sheet of text cells, header
    row first, an empty cell being the empty string.  A column beyond
    the end of a row reads as [undefined], here [None]. *)

Definition trackIndex : nat := 4.
Definition emailIndex : nat := 1.
Definition availabilityIndices : list nat := [5; 6; 7; 8; 9; 10; 11]%nat.
Definition days : list string := ["Mon"; "Tue"; "Wed"; "Thu"; "Fri"; "Sat"; "Sun"].

(** [`${days[index - 5]} ${slot}`] *)
Definition slotKey (index : nat) (slot : string) : string :=
  default "undefined" (days !! (index - 5)%nat) +:+ " " +:+ slot.

(** [if (!availableSlots[key]) availableSlots[key] = [];
     availableSlots[key].push(email)] *)
Definition pushEmail (availableSlots : JsObject.t) (key email : string) : JsObject.t :=
  match JsObject.get availableSlots key with
  | Some list => JsObject.set availableSlots key (list ++ [email])
  | None => JsObject.set availableSlots key [email]
  end.

(** The body of [availabilityIndices.forEach] for one column: a missing
    or empty cell is passed over, any other is split at the commas and
    every trimmed piece is used as a slot token. *)
Definition addColumn (row : list string) (email : string)
    (availableSlots : JsObject.t) (index : nat) : JsObject.t :=
  match row !! index with
  | None => availableSlots
  | Some timeSlotsString =>
      if decide (timeSlotsString = "") then availableSlots
      else
        let timeSlots := map trim (split "," timeSlotsString) in
        foldl (λ slots slot, pushEmail slots (slotKey index slot) email)
              availableSlots timeSlots
  end.

(** [availabilityIndices.forEach(...)] for one row. *)
Definition addRow (row : list string) (email : string)
    (availableSlots : JsObject.t) : JsObject.t :=
  foldl (addColumn row email) availableSlots availabilityIndices.

(** The slots with at least [thresh] students. *)
Definition filterSlots (availableSlots : JsObject.t) (thresh : Z) : JsObject.t :=
  JsObject.fromEntries
    (filter (λ e, (thresh ≤ Z.of_nat (length e.2))%Z) (JsObject.entries availableSlots)).

(** The first loop of [findAvailableSlotsForEmails]: the rows after the
    header whose email is one of [emails]. *)
Definition availableSlotsForEmails (data : list (list string)) (emails : list string)
    : JsObject.t :=
  foldl (λ slots row,
           match row !! emailIndex with
           | Some email => if decide (email ∈ emails) then addRow row email slots else slots
           | None => slots
           end)
        [] (drop 1 data).

Definition findAvailableSlotsForEmails (data : list (list string))
    (emails : list string) (thresh : Z) : JsObject.t * list string :=
  let availableSlots := availableSlotsForEmails data emails in
  let filteredSlots := filterSlots availableSlots thresh in
  let includedStudents := allOf filteredSlots in
  let excludedStudents := filter (λ email, email ∉ includedStudents) emails in
  (filteredSlots, excludedStudents).

(** The first loop of [findAvailableSlots]: the rows after the header
    one of whose comma-separated tracks contains [track].  Reading the
    tracks of a row that has no track column throws.  A row that has a
    track column has an email column as well. *)
Fixpoint availableSlotsForTrack (rows : list (list string)) (track : string)
    (acc : JsObject.t * list string) : outcome (JsObject.t * list string) :=
  match rows with
  | [] => Returned acc
  | row :: rows' =>
      match row !! trackIndex with
      | None => Thrown TypeError
      | Some tracks =>
          let studentTracks := map trim (split "," tracks) in
          let found := existsb (λ s, includes s track) studentTracks in
          let email := default "" (row !! emailIndex) in
          if found
          then availableSlotsForTrack rows' track (addRow row email acc.1, acc.2 ++ [email])
          else availableSlotsForTrack rows' track acc
      end
  end.

Definition findAvailableSlots (data : list (list string)) (track : string)
    (thresh : Z) : outcome (JsObject.t * list string) :=
  match availableSlotsForTrack (drop 1 data) track ([], []) with
  | Returned (availableSlots, studentsInTrack) =>
      let filteredSlots := filterSlots availableSlots thresh in
      let includedStudents := allOf filteredSlots in
      let excludedStudents := filter (λ email, email ∉ includedStudents) studentsInTrack in
      Returned (filteredSlots, excludedStudents)
  | Thrown e => Thrown e
  | OutOfFuel => OutOfFuel
  end.

(** ** The two pipelines *)

(** The common end of [processAvailabilityByTrack] and
    [processAvailabilityBySheet], from the list of emails on. *)
Definition processAvailability (data : list (list string)) (emails : list string)
    (thresh : Z) (outputSheetName : string) (virtualStudents : list string)
    (ss : gmap string Sheet.t) : outcome (gmap string Sheet.t) :=
  let '(allSlots, excStudents) := findAvailableSlotsForEmails data emails thresh in
  match getMinimumTimeSlots allSlots with
  | Returned (filtered, _) =>
      Returned (writeSelectedSlotsToSheet filtered outputSheetName virtualStudents excStudents ss)
  | Thrown e => Thrown e
  | OutOfFuel => OutOfFuel
  end.

(** One block of [main], from the list of emails on. *)
Definition mainBlock (data : list (list string)) (emails : list string)
    (sheetName : string) (ss : gmap string Sheet.t) : outcome (gmap string Sheet.t) :=
  let '(allSlots, excStudents) := findAvailableSlotsForEmails data emails 0 in
  getIterativeTimeSlots allSlots 0 sheetName [] excStudents ss.

(** ** Reachable states and the notions the statements use *)

(** [x] is the first element of [l] whose [key] is largest: everything
    before it has a smaller key, nothing after it has a larger one. *)
Definition firstMax {A : Type} (key : A → nat) (x : A) (l : list A) : Prop :=
  ∃ l1 l2, l = l1 ++ x :: l2
    ∧ Forall (λ y, key y < key x) l1
    ∧ Forall (λ y, key y ≤ key x) l2.

(** The states [getMinimumTimeSlots] goes through on [index]. *)
Inductive minCoverReachable (index : JsObject.t) : MinCover → Prop :=
  | minCover_start : minCoverReachable index (minCoverInit index)
  | minCover_pass st st' :
      minCoverReachable index st →
      size (studentsCovered st) < size (allOf index) →
      minCoverRound st = Returned st' →
      minCoverReachable index st'.

(** Every entry of a selection brings a student that no entry before it
    has. *)
Fixpoint gains (covered : gset string) (sel : JsObject.t) : Prop :=
  match sel with
  | [] => True
  | e :: sel' => 0 < newCoverage covered e ∧ gains (covered ∪ list_to_set e.2) sel'
  end.

(** What holds of every state [getMinimumTimeSlots] goes through on
    [index]: the selection is made of slots of [index], chosen once
    each; the working index holds the other slots of [index], in their
    order; the covered students are those of the selection. *)
Record minCoverInv (index : JsObject.t) (st : MinCover) : Prop := {
  inv_selected : selectedSlots st ⊆ index;
  inv_selected_wf : JsObject.wf (selectedSlots st);
  inv_filtered :
    filteredSlots st = filter (λ e, e.1 ∉ JsObject.keys (selectedSlots st)) index;
  inv_covered : studentsCovered st = allOf (selectedSlots st);
  inv_gains : gains ∅ (selectedSlots st)
}.

(** No student is listed by two entries of a selection. *)
Definition disjointEntries (sel : JsObject.t) : Prop :=
  ∀ i j e1 e2 u,
    sel !! i = Some e1 → sel !! j = Some e2 → u ∈ e1.2 → u ∈ e2.2 → i = j.

(** The number of students of a slot that are still remaining. *)
Definition filteredSize (remaining : gset string) (e : string * list string) : nat :=
  length (filter (λ email, email ∈ remaining) e.2).

(** The students listed by the entries of an iterative selection. *)
Definition placed (sels : list (string * list string * nat)) : gset string :=
  list_to_set (concat (map (λ r, r.1.2) sels)).

(** What holds of every state [getIterativeTimeSlots] goes through on
    [index] with [minGroupSize]. *)
Record iterativeInv (index : JsObject.t) (minGroupSize : Z) (st : Iterative) : Prop := {
  it_entries :
    Forall (λ r, (minGroupSize ≤ Z.of_nat r.2)%Z ∧ r.2 = length r.1.2 ∧ 0 < r.2
                 ∧ ∃ v, (r.1.1, v) ∈ index ∧ ∀ u, u ∈ r.1.2 → u ∈ v)
           (finalSelections st);
  it_remaining : remainingStudents st = allOf index ∖ placed (finalSelections st);
  it_total : totalStudents st = sum_list_with snd (finalSelections st)
}.

(** Why the loop of [getIterativeTimeSlots] is left in state [st]: too
    few students remain, or no slot has a remaining student, or the most
    populated slot is below the minimum. *)
Definition iterativeStopped (index : JsObject.t) (minGroupSize : Z) (st : Iterative) : Prop :=
  (Z.of_nat (size (remainingStudents st)) < minGroupSize)%Z
  ∨ (∀ e, e ∈ index → filteredSize (remainingStudents st) e = 0)
  ∨ (∀ e, e ∈ index → (Z.of_nat (filteredSize (remainingStudents st) e) < minGroupSize)%Z).

(** Slot [key] of the object exists and lists [email]. *)
Definition listed (slots : JsObject.t) (key email : string) : Prop :=
  ∃ list, JsObject.get slots key = Some list ∧ email ∈ list.

(** ** Reading sheets

    [vals] stands for the sheets as the readers see them: [vals !! name]
    is [None] when [getSheetByName(name)] is [null], and is otherwise
    [getDataRange().getValues()] of that sheet, a sheet of text cells
    (as [data] above). *)

(** A value read from a row is truthy when it is a string that is not
    empty; [undefined] ([None]) is not. *)
Definition truthy (v : option string) : bool :=
  match v with
  | Some s => bool_decide (s ≠ "")
  | None => false
  end.

(** An array of truthy values read from text cells is an array of
    strings. *)
Definition strings (l : list (option string)) : list string := omap id l.

(** [getEmailsFromSheet]:
    [data.slice(1).map(row => row[columnIndex]).filter(email => email)],
    and [[]] when there is no such sheet. *)
Definition getEmailsFromSheet (vals : gmap string (list (list string)))
    (sheetName : string) (columnIndex : nat) : list string :=
  match vals !! sheetName with
  | None => []
  | Some data =>
      strings (filter (λ email, truthy email)
                 (map (λ row : list string, row !! columnIndex) (drop 1 data)))
  end.

(** [getEmailsWithCondition]: the same, over the rows whose condition
    cell is exactly "Yes". *)
Definition getEmailsWithCondition (vals : gmap string (list (list string)))
    (sheetName : string) (emailColumnIndex conditionColumnIndex : nat) : list string :=
  match vals !! sheetName with
  | None => []
  | Some data =>
      strings (filter (λ email, truthy email)
                 (map (λ row : list string, row !! emailColumnIndex)
                    (filter (λ row : list string, row !! conditionColumnIndex = Some "Yes")
                       (drop 1 data))))
  end.

(** The [reduce] of [getEmailsByTrack]: a row is kept when one of its
    comma-separated tracks, trimmed, is [track] itself.  Reading the
    tracks of a row that has no track column throws; a row that has one
    has an email column as well.  The email is pushed as it is, empty or
    not. *)
Fixpoint emailsByTrack (rows : list (list string)) (track : string)
    (emails : list string) : outcome (list string) :=
  match rows with
  | [] => Returned emails
  | row :: rows' =>
      match row !! trackIndex with
      | None => Thrown TypeError
      | Some tracks =>
          if decide (track ∈ map trim (split "," tracks))
          then emailsByTrack rows' track (emails ++ [default "" (row !! emailIndex)])
          else emailsByTrack rows' track emails
      end
  end.

Definition getEmailsByTrack (vals : gmap string (list (list string)))
    (track : string) : outcome (list string) :=
  match vals !! "final-availabilities" with
  | None => Returned []
  | Some data => emailsByTrack (drop 1 data) track []
  end.

(** ** The entry points

    [findAvailableSlotsForEmails] and [findAvailableSlots] call
    [getDataRange] on the sheet "final-availabilities" without testing
    that it exists: on [null] that throws. *)

Definition availabilities (vals : gmap string (list (list string)))
    : outcome (list (list string)) :=
  match vals !! "final-availabilities" with
  | None => Thrown TypeError
  | Some data => Returned data
  end.

(** [processAvailabilityBySheet].  The emails and the virtual students
    are read first; neither reading throws. *)
Definition processAvailabilityBySheet (vals : gmap string (list (list string)))
    (sheetName : string) (columnIndex : nat) (thresh : Z) (outputSheetName : string)
    (virtualIndex : Z) (ss : gmap string Sheet.t) : outcome (gmap string Sheet.t) :=
  let emails := getEmailsFromSheet vals sheetName columnIndex in
  let virtualStudents :=
    if decide (0 ≤ virtualIndex)%Z
    then getEmailsWithCondition vals sheetName columnIndex (Z.to_nat virtualIndex)
    else [] in
  match availabilities vals with
  | Returned data =>
      processAvailability data emails thresh outputSheetName virtualStudents ss
  | Thrown e => Thrown e
  | OutOfFuel => OutOfFuel
  end.

(** [processAvailabilityByTrack] *)
Definition processAvailabilityByTrack (vals : gmap string (list (list string)))
    (track : string) (thresh : Z) (outputSheetName : string)
    (virtualIndex : Z) (ss : gmap string Sheet.t) : outcome (gmap string Sheet.t) :=
  match getEmailsByTrack vals track with
  | Returned emails =>
      let virtualStudents :=
        if decide (0 ≤ virtualIndex)%Z
        then getEmailsWithCondition vals (track +:+ "-responses") 0 (Z.to_nat virtualIndex)
        else [] in
      match availabilities vals with
      | Returned data =>
          processAvailability data emails thresh outputSheetName virtualStudents ss
      | Thrown e => Thrown e
      | OutOfFuel => OutOfFuel
      end
  | Thrown e => Thrown e
  | OutOfFuel => OutOfFuel
  end.

(** One block of [main], whole: the emails of the responses sheet, the
    index built for them, the iterative selection written to the
    schedule sheet. *)
Definition mainStep (vals : gmap string (list (list string)))
    (responses schedule : string) (ss : gmap string Sheet.t)
    : outcome (gmap string Sheet.t) :=
  let emails := getEmailsFromSheet vals responses 0 in
  match availabilities vals with
  | Returned data => mainBlock data emails schedule ss
  | Thrown e => Thrown e
  | OutOfFuel => OutOfFuel
  end.

(** The sheets [main] reads and writes, block by block. *)
Definition mainSheets : list (string * string) :=
  [("SEARCH-responses", "SEARCH-schedule");
   ("TEST-responses", "TEST-schedule");
   ("BUILD-regular-responses", "BUILD-regular-schedule");
   ("BUILD-discover-responses", "BUILD-discover-schedule");
   ("last-BUILD-regular-responses", "last-BUILD-regular-schedule")].

(** [main]: the five blocks in turn; a block that throws ends the run.
    No block reads a sheet that a block writes, so all read [vals]. *)
Definition main (vals : gmap string (list (list string)))
    (ss : gmap string Sheet.t) : outcome (gmap string Sheet.t) :=
  foldl (λ acc names,
           match acc with
           | Returned ss' => mainStep vals names.1 names.2 ss'
           | Thrown e => Thrown e
           | OutOfFuel => OutOfFuel
           end)
        (Returned ss) mainSheets.

(** ** [getEmailsFromSheetCell] of [useful-functions.js]

    It reads back a cell such as the ones the writers fill with a joined
    list.  Row and column are counted from 1.  An empty cell, an empty
    string and the number 0 are falsy; any other number has no [split]. *)
Definition getEmailsFromSheetCell (ss : gmap string Sheet.t) (sheetName : string)
    (rowIndex columnIndex : positive) : outcome (list string) :=
  match ss !! sheetName with
  | None => Returned []
  | Some sheet =>
      match Sheet.getValue (Pos.to_nat rowIndex - 1) (Pos.to_nat columnIndex - 1) sheet with
      | Blank => Returned []
      | Num n => if decide (n = 0%Z) then Returned [] else Thrown TypeError
      | Str cellValue =>
          if decide (cellValue = "") then Returned []
          else Returned (filter (λ email, email ≠ "") (map trim (split "," cellValue)))
      end
  end.

(** [c] occurs in [s]. *)
Fixpoint contains (c : ascii) (s : string) : bool :=
  match s with
  | EmptyString => false
  | String c' s' => bool_decide (c' = c) || contains c s'
  end.

(** What can be joined by ", " and read back: not empty, no comma, no
    white space at either end. *)
Definition cleanEmail (email : string) : Prop :=
  email ≠ "" ∧ contains "," email = false ∧ trim email = email.

(** No student is listed by two entries of an iterative selection. *)
Definition disjointSelections (sels : list (string * list string * nat)) : Prop :=
  ∀ i j r1 r2 u,
    sels !! i = Some r1 → sels !! j = Some r2 → u ∈ r1.1.2 → u ∈ r2.1.2 → i = j.

(** A slot label of the builder: a day name, a space and a token. *)
Definition dayLabel (key : string) : Prop :=
  ∃ day token, day ∈ days ∧ key = day +:+ " " +:+ token.

(** The state of the iterative selector beyond [iterativeInv]: the
    entries are disjoint, a slot that was selected has no remaining
    student, no slot was selected twice, the counts do not increase, and
    no slot has more remaining students than any entry has students. *)
Record iterativeOrder (index : JsObject.t) (st : Iterative) : Prop := {
  io_disjoint : disjointSelections (finalSelections st);
  io_spent : ∀ r v, r ∈ finalSelections st → (r.1.1, v) ∈ index →
                    filteredSize (remainingStudents st) (r.1.1, v) = 0;
  io_labels : NoDup ((finalSelections st).*1.*1);
  io_sorted : StronglySorted (λ a b, b ≤ a) ((finalSelections st).*2);
  io_bound : ∀ r e, r ∈ finalSelections st → e ∈ index →
                    filteredSize (remainingStudents st) e ≤ r.2
}.

(** Some row of [rows] says that student [u] is free at slot [key]: the
    row's email is [u], and [key] is made of a day and a trimmed piece
    of the row's non-empty value for that day. *)
Definition rowSays (rows : list (list string)) (key u : string) : Prop :=
  ∃ row index s token,
    row ∈ rows ∧ row !! emailIndex = Some u
    ∧ index ∈ availabilityIndices ∧ row !! index = Some s ∧ s ≠ ""
    ∧ token ∈ split "," s ∧ key = slotKey index (trim token).

(** The selection of [getMinimumTimeSlots] is the greedy one, ties to
    the slot inserted first: every entry is the first slot of largest
    new coverage, counted against the students of the entries before
    it, among the slots of the index not selected before it. *)
Definition greedyCover (index sel : JsObject.t) : Prop :=
  ∀ s1 e s2,
    sel = s1 ++ e :: s2 →
    firstMax (newCoverage (allOf s1)) e
             (filter (λ x, x.1 ∉ JsObject.keys s1) index).

(** The same for [getIterativeTimeSlots]: every entry is made of the
    first slot of the index with the largest number of students not
    placed by the entries before it, and lists these students. *)
Definition greedyIterative (index : JsObject.t)
    (sels : list (string * list string * nat)) : Prop :=
  ∀ s1 r s2,
    sels = s1 ++ r :: s2 →
    ∃ v,
      firstMax (filteredSize (allOf index ∖ placed s1)) (r.1.1, v) index
      ∧ r.1.2 = filter (λ email, email ∈ allOf index ∖ placed s1) v
      ∧ r.2 = length r.1.2.

(** * Properties *)

(** Distinct keys of a given object, by computation. *)
Ltac solve_wf := unfold JsObject.wf; apply (bool_decide_unpack _); vm_compute; exact I.


(** ** The sort *)

Section SortFacts.
Context {A : Type} (cmp : A → A → Z).

Lemma sort_insert_Permutation x l : sort_insert cmp x l ≡ₚ x :: l.
Proof.
  induction l as [|y l IH]; simpl; [done|].
  case_decide; [done|]. rewrite IH. apply Permutation_swap.
Qed.

Lemma sort_Permutation l : sort cmp l ≡ₚ l.
Proof.
  induction l as [|x l IH]; simpl; [done|].
  by rewrite sort_insert_Permutation, IH.
Qed.

Lemma sort_nil_inv l : sort cmp l = [] → l = [].
Proof.
  intros H. apply Permutation_nil_r. rewrite <- H. by rewrite sort_Permutation.
Qed.
End SortFacts.

(** The head of a list sorted by decreasing [key] is the first element
    with the largest [key]: the stable sort keeps ties in their order. *)
Lemma sort_head_firstMax {A : Type} (key : A → nat) (l : list A) x rest :
  sort (λ a b, Z.of_nat (key b) - Z.of_nat (key a))%Z l = x :: rest →
  firstMax key x l.
Proof.
  revert x rest. induction l as [|a l IH]; intros x rest; simpl; [done|].
  destruct (sort _ l) as [|y r] eqn:Hs; simpl.
  - intros [= <- <-]. apply sort_nil_inv in Hs as ->.
    exists [], []. by repeat constructor.
  - destruct (IH y r eq_refl) as (l1 & l2 & -> & Hl1 & Hl2).
    case_decide as Hc.
    + intros [= <- <-]. exists [], (l1 ++ y :: l2). split_and!; [done|constructor|].
      rewrite Forall_app, Forall_cons. split_and!; [| lia |].
      * eapply Forall_impl; [exact Hl1|]. simpl. intros; lia.
      * eapply Forall_impl; [exact Hl2|]. simpl. intros; lia.
    + intros [= <- <-]. exists (a :: l1), l2. split_and!; [done| |done].
      constructor; [lia|done].
Qed.

(** The insertion sort is the stable sort by decreasing [key]: its
    result is ordered by decreasing key, and the elements of any one key
    are in it in the order they had.  These two facts and
    [sort_Permutation] determine the result. *)
Lemma sort_by_key_sorted {A : Type} (key : A → nat) (l : list A) :
  StronglySorted (λ a b, key b ≤ key a)
    (sort (λ a b, Z.of_nat (key b) - Z.of_nat (key a))%Z l).
Proof.
  induction l as [|x l IH]; simpl; [constructor|].
  induction IH as [|y s Hs IHs Hy]; simpl; [repeat constructor|].
  case_decide as Hc.
  - constructor; [by constructor|]. constructor; [lia|].
    eapply Forall_impl; [exact Hy|]. simpl. intros; lia.
  - constructor; [done|].
    rewrite sort_insert_Permutation. constructor; [lia|done].
Qed.

Lemma sort_by_key_stable {A : Type} (key : A → nat) (l : list A) (c : nat) :
  filter (λ a, key a = c) (sort (λ a b, Z.of_nat (key b) - Z.of_nat (key a))%Z l)
  = filter (λ a, key a = c) l.
Proof.
  induction l as [|x l IH]; simpl; [done|].
  rewrite (filter_cons _ x l), <- IH.
  generalize (sort (λ a b, Z.of_nat (key b) - Z.of_nat (key a))%Z l). clear.
  intros s. induction s as [|y s IHs]; simpl; [by rewrite filter_cons|].
  destruct (decide (Z.of_nat (key y) - Z.of_nat (key x) ≤ 0)%Z) as [Hle|Hgt].
  - by rewrite (filter_cons _ x).
  - rewrite !(filter_cons _ y), IHs.
    destruct (decide (key y = c)), (decide (key x = c)); (done || lia).
Qed.

Lemma firstMax_elem_of {A : Type} (key : A → nat) x (l : list A) :
  firstMax key x l → x ∈ l.
Proof. intros (l1 & l2 & -> & _). set_solver. Qed.

Lemma firstMax_ge {A : Type} (key : A → nat) x (l : list A) y :
  firstMax key x l → y ∈ l → key y ≤ key x.
Proof.
  intros (l1 & l2 & -> & H1 & H2) Hy.
  rewrite elem_of_app, elem_of_cons in Hy.
  rewrite Forall_forall in H1. rewrite Forall_forall in H2.
  destruct Hy as [Hy|[->|Hy]]; [apply H1 in Hy; lia | lia | by apply H2].
Qed.

(** [firstMax] determines its element. *)
Lemma firstMax_unique {A : Type} (key : A → nat) x y (l : list A) :
  firstMax key x l → firstMax key y l → x = y.
Proof.
  intros (l1 & l2 & -> & H1 & H2) (m1 & m2 & Heq & G1 & G2).
  revert m1 Heq G1. induction l1 as [|a l1 IH]; intros m1 Heq G1.
  - destruct m1 as [|b m1]; simpl in Heq; injection Heq as Hh Ht; [done|].
    subst b. apply Forall_cons in G1 as [G1 _].
    assert (key y ≤ key x); [|lia].
    rewrite Forall_forall in H2. apply H2. rewrite Ht. set_solver.
  - destruct m1 as [|b m1]; simpl in Heq; injection Heq as Hh Ht.
    + subst a. apply Forall_cons in H1 as [H1 _].
      assert (key x ≤ key y); [|lia].
      rewrite Forall_forall in G2. apply G2. rewrite <- Ht. set_solver.
    + apply Forall_cons in H1 as [_ H1]. apply Forall_cons in G1 as [_ G1].
      by eapply IH.
Qed.

(** ** Objects *)

Lemma set_fresh (o : JsObject.t) k v :
  k ∉ JsObject.keys o → JsObject.set o k v = o ++ [(k, v)].
Proof.
  unfold JsObject.keys. induction o as [|[k' v'] o IH]; simpl; [done|].
  rewrite not_elem_of_cons. intros [Hne Hk].
  case_decide; [congruence|]. by rewrite IH.
Qed.

Lemma get_Some_elem_of (o : JsObject.t) k v :
  JsObject.get o k = Some v → (k, v) ∈ o.
Proof.
  induction o as [|[k' v'] o IH]; simpl; [done|].
  case_decide; [intros [= <-]; subst; left | intros; right; auto].
Qed.

Lemma get_None_keys (o : JsObject.t) k :
  JsObject.get o k = None ↔ k ∉ JsObject.keys o.
Proof.
  unfold JsObject.keys. induction o as [|[k' v'] o IH]; simpl.
  - split; [intros _; apply not_elem_of_nil | done].
  - rewrite not_elem_of_cons. case_decide; [split; [done|intros [? _]; congruence]|].
    rewrite IH. split; [by split | by intros [_ ?]].
Qed.

Lemma wf_functional (o : JsObject.t) k v v' :
  JsObject.wf o → (k, v) ∈ o → (k, v') ∈ o → v = v'.
Proof.
  unfold JsObject.wf, JsObject.keys. induction o as [|[k0 v0] o IH]; simpl.
  - intros _ H. by apply elem_of_nil in H.
  - rewrite NoDup_cons, !elem_of_cons. intros [Hk Hnd] [H1|H1] [H2|H2];
      simplify_eq; auto.
    + destruct Hk. change k0 with ((k0, v').1). by apply list_elem_of_fmap_2.
    + destruct Hk. change k0 with ((k0, v).1). by apply list_elem_of_fmap_2.
Qed.

Lemma elem_of_allOf (o : JsObject.t) u :
  u ∈ allOf o ↔ ∃ k v, (k, v) ∈ o ∧ u ∈ v.
Proof.
  unfold allOf, JsObject.values.
  rewrite elem_of_list_to_set, list_elem_of_In, in_concat.
  split.
  - intros (v & Hv & Hu). apply list_elem_of_In, list_elem_of_fmap in Hv.
    destruct Hv as ([k v'] & -> & He). exists k, v'. split; [done | by apply list_elem_of_In].
  - intros (k & v & He & Hu). exists v. rewrite <- !list_elem_of_In. split; [|done].
    change v with ((k, v).2). by apply list_elem_of_fmap_2.
Qed.

Lemma allOf_nil : allOf [] = ∅.
Proof. done. Qed.

Lemma allOf_app (o1 o2 : JsObject.t) : allOf (o1 ++ o2) = allOf o1 ∪ allOf o2.
Proof.
  apply set_eq. intros u. rewrite elem_of_union, !elem_of_allOf.
  setoid_rewrite elem_of_app. naive_solver.
Qed.

Lemma allOf_cons e (o : JsObject.t) : allOf (e :: o) = list_to_set e.2 ∪ allOf o.
Proof.
  apply set_eq. intros u. rewrite elem_of_union, elem_of_list_to_set, !elem_of_allOf.
  setoid_rewrite elem_of_cons. destruct e as [k v]; simpl. naive_solver.
Qed.

Lemma allOf_snoc (o : JsObject.t) k v : allOf (o ++ [(k, v)]) = allOf o ∪ list_to_set v.
Proof. rewrite allOf_app, allOf_cons, allOf_nil. simpl. set_solver. Qed.

Lemma allOf_mono (o1 o2 : JsObject.t) : o1 ⊆ o2 → allOf o1 ⊆ allOf o2.
Proof.
  intros Hsub u. rewrite !elem_of_allOf. intros (k & v & He & Hu).
  exists k, v. split; [by apply Hsub|done].
Qed.

(** ** New coverage *)

Lemma newCoverage_pos covered e :
  0 < newCoverage covered e ↔ ∃ u, u ∈ e.2 ∧ u ∉ covered.
Proof.
  unfold newCoverage. split.
  - destruct (filter _ _) as [|u l] eqn:Hf; simpl; [lia|]. intros _.
    assert (u ∈ filter (λ email, email ∉ covered) e.2) as Hu by (rewrite Hf; left).
    apply list_elem_of_filter in Hu. naive_solver.
  - intros (u & Hu & Hn).
    assert (u ∈ filter (λ email, email ∉ covered) e.2) as Hin
      by (apply list_elem_of_filter; done).
    destruct (filter _ _); [by apply elem_of_nil in Hin | simpl; lia].
Qed.

Lemma size_union_gain (covered : gset string) e :
  0 < newCoverage covered e → size covered < size (covered ∪ list_to_set e.2).
Proof.
  rewrite newCoverage_pos. intros (u & Hu & Hn).
  apply subset_size. split; [set_solver|].
  intros Hsub. apply Hn, Hsub. set_solver.
Qed.

(** ** The minimum-cover loop *)

Lemma gains_snoc covered (sel : JsObject.t) e :
  gains covered (sel ++ [e]) ↔
  gains covered sel ∧ 0 < newCoverage (covered ∪ allOf sel) e.
Proof.
  revert covered. induction sel as [|a sel IH]; intros covered; simpl.
  - rewrite allOf_nil, (right_id_L ∅ (∪)). tauto.
  - rewrite IH, allOf_cons, (assoc_L (∪)). tauto.
Qed.

Lemma gains_length covered (sel : JsObject.t) :
  gains covered sel → size covered + length sel ≤ size (covered ∪ allOf sel).
Proof.
  revert covered. induction sel as [|a sel IH]; intros covered; simpl.
  - intros _. rewrite allOf_nil, (right_id_L ∅ (∪)). lia.
  - intros [Ha Hs]. apply IH in Hs. apply size_union_gain in Ha.
    rewrite allOf_cons, (assoc_L (∪)). lia.
Qed.

Lemma filter_not_in_nil (index : JsObject.t) :
  filter (λ e : string * list string, e.1 ∉ JsObject.keys []) index = index.
Proof.
  induction index as [|e index IH]; [done|].
  rewrite filter_cons_True; [by rewrite IH | apply not_elem_of_nil].
Qed.

Lemma minCoverInv_init index : minCoverInv index (minCoverInit index).
Proof.
  split; simpl.
  - apply list_subseteq_nil.
  - apply NoDup_nil_2.
  - by rewrite filter_not_in_nil.
  - done.
  - done.
Qed.

(** A covered set smaller than the set of all students leaves a student
    out, and that student sits in a slot still in the working index. *)
Lemma minCoverInv_uncovered index st :
  JsObject.wf index → minCoverInv index st →
  size (studentsCovered st) < size (allOf index) →
  ∃ e, e ∈ filteredSlots st ∧ 0 < newCoverage (studentsCovered st) e.
Proof.
  intros Hwf [Hsub Hswf Hfil Hcov _] Hlt.
  assert (studentsCovered st ⊆ allOf index) as Hcu
    by (rewrite Hcov; by apply allOf_mono).
  destruct (size_pos_elem_of (allOf index ∖ studentsCovered st)) as [u Hu].
  { rewrite size_difference by done. lia. }
  apply elem_of_difference in Hu as [Hu Hn].
  apply elem_of_allOf in Hu as (k & v & He & Huv).
  exists (k, v). split.
  - rewrite Hfil. apply list_elem_of_filter. split; [|done]. simpl.
    intros Hk. apply list_elem_of_fmap in Hk as ([k' v'] & Hkk & He').
    simpl in Hkk. subst k'.
    assert (v = v') as <- by (eapply wf_functional; [exact Hwf|done|by apply Hsub]).
    apply Hn. rewrite Hcov. apply elem_of_allOf. eauto.
  - apply newCoverage_pos. eauto.
Qed.

(** One pass from a state in which a student is missing: the slot read
    from the sorted array exists, is the first slot of the working index
    with the largest new coverage, and brings a student. *)
Lemma minCoverRound_spec index st :
  JsObject.wf index → minCoverInv index st →
  size (studentsCovered st) < size (allOf index) →
  ∃ k v rest st',
    sortedSlots st = (k, v) :: rest
    ∧ firstMax (newCoverage (studentsCovered st)) (k, v) (filteredSlots st)
    ∧ 0 < newCoverage (studentsCovered st) (k, v)
    ∧ minCoverRound st = Returned st'
    ∧ selectedSlots st' = selectedSlots st ++ [(k, v)]
    ∧ size (studentsCovered st) < size (studentsCovered st')
    ∧ minCoverInv index st'.
Proof.
  intros Hwf Hinv Hlt.
  destruct (minCoverInv_uncovered index st Hwf Hinv Hlt) as (e & He & Hpos).
  destruct Hinv as [Hsub Hswf Hfil Hcov Hg].
  unfold minCoverRound.
  destruct (sortedSlots st) as [|[k v] rest] eqn:Hs.
  { apply sort_nil_inv in Hs. unfold JsObject.entries in Hs. rewrite Hs in He.
    by apply elem_of_nil in He. }
  pose proof (sort_head_firstMax (newCoverage (studentsCovered st)) _ _ _ Hs) as Hfm.
  unfold JsObject.entries in Hfm.
  assert (0 < newCoverage (studentsCovered st) (k, v)) as Hkv.
  { pose proof (firstMax_ge _ _ _ _ Hfm He). lia. }
  assert ((k, v) ∈ index ∧ k ∉ JsObject.keys (selectedSlots st)) as [Hin Hfresh].
  { apply firstMax_elem_of in Hfm. rewrite Hfil in Hfm.
    apply list_elem_of_filter in Hfm. naive_solver. }
  eexists k, v, rest, _. split_and!; try done; simpl.
  - by apply set_fresh.
  - by apply (size_union_gain _ (k, v)).
  - rewrite (set_fresh _ _ _ Hfresh). split; simpl.
    + intros x. rewrite elem_of_app, list_elem_of_singleton.
      intros [Hx| ->]; [by apply Hsub | done].
    + unfold JsObject.wf, JsObject.keys in *. rewrite fmap_app. simpl.
      apply NoDup_app. split_and!; [done| |apply NoDup_singleton].
      intros x Hx. rewrite list_elem_of_singleton. by intros ->.
    + rewrite Hfil. unfold JsObject.delete. rewrite list_filter_filter.
      apply list_filter_iff. intros [k' v']. unfold JsObject.keys. simpl.
      rewrite fmap_app, not_elem_of_app. simpl. rewrite list_elem_of_singleton.
      tauto.
    + by rewrite allOf_snoc, Hcov.
    + apply gains_snoc. split; [done|]. rewrite (left_id_L ∅ (∪)).
      by rewrite <- Hcov.
Qed.

(** The loop from a state of the invariant makes [n] passes, at most as
    many as students are missing, and then returns: it returns with any
    fuel of [n] or more and with none below. *)
Lemma minCoverLoop_spec index (m : nat) st :
  JsObject.wf index → minCoverInv index st →
  size (allOf index) - size (studentsCovered st) ≤ m →
  ∃ n st',
    n ≤ m
    ∧ (∀ fuel, n ≤ fuel → minCoverLoop fuel (allOf index) st = Returned st')
    ∧ (∀ fuel, fuel < n → minCoverLoop fuel (allOf index) st = OutOfFuel)
    ∧ length (selectedSlots st') = length (selectedSlots st) + n
    ∧ minCoverInv index st'
    ∧ size (allOf index) ≤ size (studentsCovered st').
Proof.
  intros Hwf. revert st. induction m as [|m IH]; intros st Hinv Hm.
  - exists 0, st. split_and!; try done; try lia.
    intros fuel _. destruct fuel; simpl; case_decide; (done || lia).
  - destruct (decide (size (studentsCovered st) < size (allOf index))) as [Hlt|Hge].
    + destruct (minCoverRound_spec index st Hwf Hinv Hlt)
        as (k & v & rest & st1 & _ & _ & _ & Hround & Hsel & Hsz & Hinv1).
      destruct (IH st1 Hinv1) as (n & st' & Hn & Hret & Hout & Hlen & Hinv' & Hfin);
        [lia|].
      exists (S n), st'. split_and!; try done; try lia.
      * intros [|fuel] Hf; [lia|]. simpl. rewrite decide_True by done.
        rewrite Hround. apply Hret. lia.
      * intros [|fuel] Hf; simpl; rewrite decide_True by done; [done|].
        rewrite Hround. apply Hout. lia.
      * rewrite Hlen, Hsel, length_app. simpl. lia.
    + exists 0, st. split_and!; try done; try lia.
      intros fuel _. destruct fuel; simpl; by rewrite decide_False.
Qed.

Lemma minCoverReachable_inv index st :
  JsObject.wf index → minCoverReachable index st → minCoverInv index st.
Proof.
  intros Hwf. induction 1 as [|st st' _ IH Hlt Hround].
  - apply minCoverInv_init.
  - destruct (minCoverRound_spec index st Hwf IH Hlt)
      as (k & v & rest & st1 & _ & _ & _ & Hround1 & _ & _ & Hinv1).
    congruence.
Qed.

Lemma gains_split covered (sel s1 s2 : JsObject.t) e :
  gains covered sel → sel = s1 ++ e :: s2 →
  0 < newCoverage (covered ∪ allOf s1) e.
Proof.
  intros Hg ->. revert covered Hg. induction s1 as [|a s1 IH]; intros covered; simpl.
  - intros [He _]. by rewrite allOf_nil, (right_id_L ∅ (∪)).
  - intros [_ Hg]. apply IH in Hg. by rewrite allOf_cons, (assoc_L (∪)).
Qed.

(** The call as a whole: it returns, after at most one pass per student,
    from a state of the invariant in which every student is covered. *)
Lemma getMinimumTimeSlots_spec index :
  JsObject.wf index →
  ∃ n st,
    n ≤ size (allOf index)
    ∧ (∀ fuel, n ≤ fuel →
         minCoverLoop fuel (allOf index) (minCoverInit index) = Returned st)
    ∧ (∀ fuel, fuel < n →
         minCoverLoop fuel (allOf index) (minCoverInit index) = OutOfFuel)
    ∧ length (selectedSlots st) = n
    ∧ getMinimumTimeSlots index = Returned (selectedSlots st, filteredSlots st)
    ∧ minCoverInv index st
    ∧ allOf (selectedSlots st) = allOf index.
Proof.
  intros Hwf.
  destruct (minCoverLoop_spec index (size (allOf index)) (minCoverInit index) Hwf
              (minCoverInv_init index))
    as (n & st & Hn & Hret & Hout & Hlen & Hinv & Hfin); [simpl; lia|].
  exists n, st. split_and!; try done.
  - unfold getMinimumTimeSlots. simpl. by rewrite (Hret _ Hn).
  - destruct Hinv as [Hsub _ _ Hcov _]. rewrite <- Hcov.
    apply set_subseteq_size_eq; [|done]. rewrite Hcov. by apply allOf_mono.
Qed.

(** C1. Coverage totality of the minimum-cover selector: on every index
    [getMinimumTimeSlots] returns a selection, and a student is listed by
    some entry of the selection exactly when some slot of the index lists
    that student. *)
Theorem min_cover_coverage_totality (index : JsObject.t) :
  JsObject.wf index →
  ∃ selected rest,
    getMinimumTimeSlots index = Returned (selected, rest)
    ∧ ∀ u, (∃ k v, (k, v) ∈ selected ∧ u ∈ v) ↔ (∃ k v, (k, v) ∈ index ∧ u ∈ v).
Proof.
  intros Hwf.
  destruct (getMinimumTimeSlots_spec index Hwf)
    as (n & st & _ & _ & _ & _ & Hcall & _ & Hall).
  exists (selectedSlots st), (filteredSlots st). split; [done|].
  intros u. by rewrite <- !elem_of_allOf, Hall.
Qed.

Lemma min_cover_coverage_totality_witness :
  let index := [("Mon 10am", ["a"; "b"]); ("Tue 9am", ["b"; "c"]); ("Wed 1pm", ["c"])] in
  JsObject.wf index ∧
  ∃ selected rest,
    getMinimumTimeSlots index = Returned (selected, rest)
    ∧ ∀ u, (∃ k v, (k, v) ∈ selected ∧ u ∈ v) ↔ (∃ k v, (k, v) ∈ index ∧ u ∈ v).
Proof.
  assert (JsObject.wf [("Mon 10am", ["a"; "b"]); ("Tue 9am", ["b"; "c"]); ("Wed 1pm", ["c"])])
    as Hwf by solve_wf.
  split; [exact Hwf|].
  exact (min_cover_coverage_totality _ Hwf).
Defined.

(** C2, as stated, fails: the selection keeps each chosen slot with its
    full list of students, so a student of two chosen slots is listed
    twice.  Here "p3" is in both entries. *)
Lemma min_cover_disjointness_counterexample :
  let index := [("A", ["p1"; "p2"; "p3"]); ("B", ["p3"; "p4"])] in
  JsObject.wf index ∧
  ∃ selected rest,
    getMinimumTimeSlots index = Returned (selected, rest)
    ∧ selected = [("A", ["p1"; "p2"; "p3"]); ("B", ["p3"; "p4"])]
    ∧ ¬ disjointEntries selected.
Proof.
  split; [solve_wf|]. eexists _, _. split; [vm_compute; reflexivity|].
  split; [reflexivity|]. intros Hdis.
  specialize (Hdis 0 1 _ _ "p3" eq_refl eq_refl). simpl in Hdis.
  assert (0 = 1) as Habs; [apply Hdis; set_solver | discriminate Habs].
Qed.

(** C2, amended. Every student of the index is listed by at least one
    entry of the selection (possibly by several); each entry is a slot of
    the index with its full list of students, and lists at least one
    student that no earlier entry lists. *)
Theorem min_cover_entries_gain (index : JsObject.t) :
  JsObject.wf index →
  ∃ selected rest,
    getMinimumTimeSlots index = Returned (selected, rest)
    ∧ (∀ e, e ∈ selected → e ∈ index)
    ∧ (∀ k v u, (k, v) ∈ index → u ∈ v → ∃ k' v', (k', v') ∈ selected ∧ u ∈ v')
    ∧ (∀ s1 e s2, selected = s1 ++ e :: s2 →
         ∃ u, u ∈ e.2 ∧ ∀ e', e' ∈ s1 → u ∉ e'.2).
Proof.
  intros Hwf.
  destruct (getMinimumTimeSlots_spec index Hwf)
    as (n & st & _ & _ & _ & _ & Hcall & [Hsub _ _ _ Hg] & Hall).
  exists (selectedSlots st), (filteredSlots st). split_and!; [done|done| |].
  - intros k v u He Hu. apply elem_of_allOf. rewrite Hall. apply elem_of_allOf. eauto.
  - intros s1 e s2 Hsplit.
    pose proof (gains_split _ _ _ _ _ Hg Hsplit) as Hpos.
    apply newCoverage_pos in Hpos as (u & Hu & Hn).
    exists u. split; [done|]. intros [k' v'] He' Hu'. apply Hn.
    apply elem_of_union_r, elem_of_allOf. eauto.
Qed.

Lemma min_cover_entries_gain_witness :
  let index := [("A", ["p1"; "p2"; "p3"]); ("B", ["p3"; "p4"])] in
  JsObject.wf index ∧
  ∃ selected rest,
    getMinimumTimeSlots index = Returned (selected, rest)
    ∧ (∀ e, e ∈ selected → e ∈ index)
    ∧ (∀ k v u, (k, v) ∈ index → u ∈ v → ∃ k' v', (k', v') ∈ selected ∧ u ∈ v')
    ∧ (∀ s1 e s2, selected = s1 ++ e :: s2 →
         ∃ u, u ∈ e.2 ∧ ∀ e', e' ∈ s1 → u ∉ e'.2).
Proof.
  assert (JsObject.wf [("A", ["p1"; "p2"; "p3"]); ("B", ["p3"; "p4"])]) as Hwf
    by solve_wf.
  split; [exact Hwf|].
  exact (min_cover_entries_gain _ Hwf).
Defined.

Lemma get_filter_not_in (ks : list string) (o : JsObject.t) k :
  JsObject.get (filter (λ e, e.1 ∉ ks) o) k =
  if decide (k ∈ ks) then None else JsObject.get o k.
Proof.
  induction o as [|[k' v'] o IH]; simpl; [by case_decide|].
  rewrite filter_cons. simpl. destruct (decide (k' ∉ ks)) as [Hk'|Hk']; simpl.
  - rewrite IH. destruct (decide (k' = k)) as [->|]; [|done].
    by rewrite decide_False.
  - rewrite IH. destruct (decide (k' = k)) as [->|]; [|done].
    apply dec_stable in Hk'. by rewrite !decide_True.
Qed.

(** C9. The index handed to [getMinimumTimeSlots] is consumed: when the
    call returns, the caller's object holds exactly the slots that were
    not selected, in their order and with their lists of students
    untouched; the selected slots are gone from it, and they are slots of
    the index as it was. *)
Theorem min_cover_consumes_index (index : JsObject.t) :
  JsObject.wf index →
  ∃ selected rest,
    getMinimumTimeSlots index = Returned (selected, rest)
    ∧ (∀ e, e ∈ selected → e ∈ index)
    ∧ rest = filter (λ e, e.1 ∉ JsObject.keys selected) index
    ∧ (∀ k, JsObject.get rest k =
            if decide (k ∈ JsObject.keys selected) then None else JsObject.get index k).
Proof.
  intros Hwf.
  destruct (getMinimumTimeSlots_spec index Hwf)
    as (n & st & _ & _ & _ & _ & Hcall & [Hsub _ Hfil _ _] & _).
  exists (selectedSlots st), (filteredSlots st). split_and!; [done|done|done|].
  intros k. rewrite Hfil.
  apply get_filter_not_in.
Qed.

Lemma min_cover_consumes_index_witness :
  let index := [("A", ["p1"]); ("B", ["p3"; "p4"]); ("C", ["p1"; "p5"])] in
  JsObject.wf index ∧
  ∃ selected rest,
    getMinimumTimeSlots index = Returned (selected, rest)
    ∧ (∀ e, e ∈ selected → e ∈ index)
    ∧ rest = filter (λ e, e.1 ∉ JsObject.keys selected) index
    ∧ (∀ k, JsObject.get rest k =
            if decide (k ∈ JsObject.keys selected) then None else JsObject.get index k).
Proof.
  assert (JsObject.wf [("A", ["p1"]); ("B", ["p3"; "p4"]); ("C", ["p1"; "p5"])]) as Hwf
    by solve_wf.
  split; [exact Hwf|].
  exact (min_cover_consumes_index _ Hwf).
Defined.

(** C10. Termination of the minimum-cover loop.  In every state the loop
    reaches with a student still missing, the sorted array is not empty
    (reading its first element does not throw) and the slot read there
    covers at least one new student.  The loop makes exactly [n] passes,
    with [n] at most the number of distinct students, and the call
    returns. *)
Theorem min_cover_terminates (index : JsObject.t) :
  JsObject.wf index →
  (∀ st, minCoverReachable index st →
         size (studentsCovered st) < size (allOf index) →
         ∃ k v others st',
           sortedSlots st = (k, v) :: others
           ∧ 0 < newCoverage (studentsCovered st) (k, v)
           ∧ minCoverRound st = Returned st')
  ∧ ∃ n st,
      n ≤ size (allOf index)
      ∧ (∀ fuel, n ≤ fuel →
           minCoverLoop fuel (allOf index) (minCoverInit index) = Returned st)
      ∧ (∀ fuel, fuel < n →
           minCoverLoop fuel (allOf index) (minCoverInit index) = OutOfFuel)
      ∧ length (selectedSlots st) = n
      ∧ getMinimumTimeSlots index = Returned (selectedSlots st, filteredSlots st).
Proof.
  intros Hwf. split.
  - intros st Hreach Hlt.
    pose proof (minCoverReachable_inv index st Hwf Hreach) as Hinv.
    destruct (minCoverRound_spec index st Hwf Hinv Hlt)
      as (k & v & others & st' & Hs & _ & Hpos & Hround & _).
    by exists k, v, others, st'.
  - destruct (getMinimumTimeSlots_spec index Hwf)
      as (n & st & Hn & Hret & Hout & Hlen & Hcall & _).
    by exists n, st.
Qed.

Lemma min_cover_terminates_witness :
  let index := [("A", ["p1"]); ("B", ["p3"; "p4"]); ("C", ["p1"; "p5"])] in
  JsObject.wf index ∧
  (∀ st, minCoverReachable index st →
         size (studentsCovered st) < size (allOf index) →
         ∃ k v others st',
           sortedSlots st = (k, v) :: others
           ∧ 0 < newCoverage (studentsCovered st) (k, v)
           ∧ minCoverRound st = Returned st')
  ∧ ∃ n st,
      n ≤ size (allOf index)
      ∧ (∀ fuel, n ≤ fuel →
           minCoverLoop fuel (allOf index) (minCoverInit index) = Returned st)
      ∧ (∀ fuel, fuel < n →
           minCoverLoop fuel (allOf index) (minCoverInit index) = OutOfFuel)
      ∧ length (selectedSlots st) = n
      ∧ getMinimumTimeSlots index = Returned (selectedSlots st, filteredSlots st).
Proof.
  assert (JsObject.wf [("A", ["p1"]); ("B", ["p3"; "p4"]); ("C", ["p1"; "p5"])]) as Hwf
    by solve_wf.
  split; [exact Hwf|].
  exact (min_cover_terminates _ Hwf).
Defined.

(** ** The ranking of the iterative selector *)

Lemma filter_app_cons_inv {A : Type} (P : A → Prop) `{!∀ x, Decision (P x)}
    (l l1 l2 : list A) x :
  filter P l = l1 ++ x :: l2 →
  ∃ l1' l2', l = l1' ++ x :: l2' ∧ filter P l1' = l1 ∧ filter P l2' = l2.
Proof.
  revert l1. induction l as [|a l IH]; intros l1 Hf.
  - by destruct l1.
  - rewrite filter_cons in Hf. destruct (decide (P a)) as [Ha|Ha].
    + destruct l1 as [|b l1]; simpl in Hf; injection Hf as -> Hf.
      * exists [], l. by rewrite Hf.
      * destruct (IH _ Hf) as (l1' & l2' & -> & <- & <-).
        exists (b :: l1'), l2'. by rewrite filter_cons_True.
    + destruct (IH _ Hf) as (l1' & l2' & -> & <- & <-).
      exists (a :: l1'), l2'. by rewrite filter_cons_False.
Qed.

(** Dropping the elements of key 0 does not change which element is the
    first of largest key. *)
Lemma firstMax_filter_pos {A : Type} (key : A → nat) x (l : list A) :
  firstMax key x (filter (λ y, 0 < key y) l) → firstMax key x l ∧ 0 < key x.
Proof.
  intros (l1 & l2 & Hf & H1 & H2).
  assert (0 < key x) as Hx.
  { assert (x ∈ filter (λ y, 0 < key y) l) as Hin by (rewrite Hf; set_solver).
    by apply list_elem_of_filter in Hin as [? _]. }
  split; [|done].
  apply filter_app_cons_inv in Hf as (l1' & l2' & -> & <- & <-).
  exists l1', l2'. split_and!; [done| |].
  - apply Forall_forall. intros y Hy. destruct (decide (0 < key y)) as [Hp|Hp]; [|lia].
    rewrite Forall_forall in H1. apply H1. by apply list_elem_of_filter.
  - apply Forall_forall. intros y Hy. destruct (decide (0 < key y)) as [Hp|Hp]; [|lia].
    rewrite Forall_forall in H2. apply H2. by apply list_elem_of_filter.
Qed.

Lemma firstMax_map {A B : Type} (f : A → B) (key : B → nat) x (l : list A) :
  firstMax key x (map f l) → ∃ e, x = f e ∧ firstMax (λ a, key (f a)) e l.
Proof.
  intros (l1 & l2 & Hf & H1 & H2).
  apply fmap_app_inv in Hf as (l1' & l' & -> & Hf & ->).
  symmetry in Hf. apply fmap_cons_inv in Hf as (e & l2' & -> & -> & ->).
  exists e. split; [done|]. exists l1', l2'. split_and!; [done| |].
  - by apply Forall_fmap in H1.
  - by apply Forall_fmap in H2.
Qed.

(** The slot at the head of the ranking is the first slot of the index
    with the largest number of remaining students, and that number is
    not 0. *)
Lemma rankedSlots_head index remaining k students count rest :
  rankedSlots index remaining = (k, students, count) :: rest →
  ∃ v, firstMax (filteredSize remaining) (k, v) index
       ∧ students = filter (λ email, email ∈ remaining) v
       ∧ count = length students
       ∧ 0 < count.
Proof.
  unfold rankedSlots. intros Hs.
  apply (sort_head_firstMax (λ r : string * list string * nat, r.2)) in Hs.
  apply (firstMax_filter_pos (λ r : string * list string * nat, r.2)) in Hs as [Hs Hpos].
  apply firstMax_map in Hs as ([k' v] & Heq & Hfm). simpl in *.
  injection Heq as -> -> ->. exists v. done.
Qed.

Lemma rankedSlots_nil index remaining :
  rankedSlots index remaining = [] →
  ∀ e, e ∈ index → filteredSize remaining e = 0.
Proof.
  unfold rankedSlots. intros Hs%sort_nil_inv e He.
  destruct (decide (0 < filteredSize remaining e)) as [Hp|Hp]; [|lia].
  set (f := λ e : string * list string,
         (e.1, filter (λ email, email ∈ remaining) e.2,
          length (filter (λ email, email ∈ remaining) e.2))) in *.
  eapply (filter_nil_not_elem_of _ _ (f e)) in Hs; [|done].
  destruct Hs. unfold JsObject.entries. by apply list_elem_of_fmap_2.
Qed.

(** ** The iterative loop *)

Lemma placed_snoc sels r : placed (sels ++ [r]) = placed sels ∪ list_to_set r.1.2.
Proof.
  unfold placed. rewrite map_app, concat_app, list_to_set_app_L. simpl.
  by rewrite app_nil_r.
Qed.

(** A pass that goes on: what it selects and what it leaves. *)
Lemma iterativeRound_Continue index minGroupSize st st' :
  iterativeRound index minGroupSize st = Continue st' →
  ∃ k v,
    let students := filter (λ email, email ∈ remainingStudents st) v in
    firstMax (filteredSize (remainingStudents st)) (k, v) index
    ∧ (minGroupSize ≤ Z.of_nat (length students))%Z
    ∧ 0 < length students
    ∧ finalSelections st' = finalSelections st ++ [(k, students, length students)]
    ∧ remainingStudents st' = remainingStudents st ∖ list_to_set students
    ∧ totalStudents st' = totalStudents st + length students.
Proof.
  unfold iterativeRound.
  destruct (rankedSlots _ _) as [|[[k students] count] rest] eqn:Hr; [done|].
  apply rankedSlots_head in Hr as (v & Hfm & -> & -> & Hpos).
  case_decide as Hmin; [done|]. intros [= <-]. simpl.
  exists k, v. split_and!; try done. lia.
Qed.

(** A pass that leaves the loop: no slot has a remaining student, or
    none has as many as the minimum. *)
Lemma iterativeRound_Break index minGroupSize st :
  iterativeRound index minGroupSize st = Break →
  (∀ e, e ∈ index → filteredSize (remainingStudents st) e = 0)
  ∨ (∀ e, e ∈ index → (Z.of_nat (filteredSize (remainingStudents st) e) < minGroupSize)%Z).
Proof.
  unfold iterativeRound.
  destruct (rankedSlots _ _) as [|[[k students] count] rest] eqn:Hr.
  - intros _. left. by apply rankedSlots_nil.
  - apply rankedSlots_head in Hr as (v & Hfm & -> & -> & Hpos).
    case_decide as Hmin; [|done]. intros _. right. intros e He.
    pose proof (firstMax_ge _ _ _ _ Hfm He) as Hle. unfold filteredSize in *.
    simpl in *. lia.
Qed.

Lemma iterativeInv_init index minGroupSize :
  iterativeInv index minGroupSize (iterativeInit index).
Proof.
  split; simpl; [constructor| |done].
  unfold placed. simpl. set_solver.
Qed.

Lemma iterativeInv_round index minGroupSize st st' :
  iterativeInv index minGroupSize st →
  iterativeRound index minGroupSize st = Continue st' →
  iterativeInv index minGroupSize st'
  ∧ size (remainingStudents st') < size (remainingStudents st).
Proof.
  intros [Hent Hrem Htot] Hround.
  apply iterativeRound_Continue in Hround
    as (k & v & Hfm & Hmin & Hpos & Hsel & Hrem' & Htot').
  simpl in *. split; [split|].
  - rewrite Hsel. apply Forall_app. split; [done|]. apply Forall_singleton. simpl.
    split_and!; try done. exists v. split; [by eapply firstMax_elem_of|].
    intros u Hu. by apply list_elem_of_filter in Hu as [_ ?].
  - rewrite Hrem', Hsel, placed_snoc, Hrem. simpl. set_solver.
  - rewrite Htot', Hsel, Htot, sum_list_with_app. simpl. lia.
  - rewrite Hrem'. apply subset_size.
    destruct (filter _ v) as [|u l] eqn:Hf; simpl in Hpos; [lia|].
    assert (u ∈ filter (λ email, email ∈ remainingStudents st) v) as Hu
      by (rewrite Hf; left).
    apply list_elem_of_filter in Hu as [Hu _].
    split; [set_solver|]. intros Hsub. specialize (Hsub u Hu). set_solver.
Qed.

(** The loop from a state of the invariant returns once it is given one
    pass per remaining student and one more. *)
Lemma iterativeLoop_spec index minGroupSize (m : nat) st :
  iterativeInv index minGroupSize st →
  size (remainingStudents st) ≤ m →
  ∃ st',
    iterativeLoop (S m) index minGroupSize st = Returned st'
    ∧ iterativeInv index minGroupSize st'
    ∧ iterativeStopped index minGroupSize st'.
Proof.
  revert st. induction m as [|m IH]; intros st Hinv Hm.
  - simpl. case_decide as Hc; [|exists st; split_and!; [done..|left; lia]].
    destruct (iterativeRound index minGroupSize st) as [|st1] eqn:Hround.
    + exists st. split_and!; [done..|right]. by apply iterativeRound_Break.
    + apply (iterativeInv_round _ _ _ _ Hinv) in Hround as [_ ?]. lia.
  - cbn [iterativeLoop]. case_decide as Hc; [|exists st; split_and!; [done..|left; lia]].
    destruct (iterativeRound index minGroupSize st) as [|st1] eqn:Hround.
    + exists st. split_and!; [done..|right]. by apply iterativeRound_Break.
    + apply (iterativeInv_round _ _ _ _ Hinv) in Hround as [Hinv1 Hlt].
      apply IH; [done|lia].
Qed.

Lemma selectIterative_spec index minGroupSize :
  ∃ st,
    selectIterative index minGroupSize = Returned st
    ∧ iterativeInv index minGroupSize st
    ∧ iterativeStopped index minGroupSize st.
Proof.
  apply iterativeLoop_spec; [apply iterativeInv_init | done].
Qed.

(** ** Sheets *)

Lemma getValue_setValue_eq r c v (s : Sheet.t) :
  Sheet.getValue r c (Sheet.setValue r c v s) = v.
Proof.
  unfold Sheet.getValue, Sheet.setValue.
  rewrite list_lookup_insert_eq by (rewrite length_app, length_replicate; lia).
  simpl. rewrite list_lookup_insert_eq by (rewrite length_app, length_replicate; lia).
  done.
Qed.

Lemma lookup_pad_blank (row : list cell) n c :
  default Blank ((row ++ replicate n Blank) !! c) = default Blank (row !! c).
Proof.
  destruct (decide (c < length row)) as [Hc|Hc].
  - by rewrite lookup_app_l.
  - rewrite lookup_app_r, (lookup_ge_None_2 row) by lia. simpl.
    destruct (replicate n Blank !! (c - length row)) as [x|] eqn:Hx; [|done].
    by apply lookup_replicate in Hx as [-> _].
Qed.

Lemma lookup_pad_rows (s : Sheet.t) n r c :
  default Blank ((s ++ replicate n []) !! r ≫= λ row, row !! c)
  = default Blank (s !! r ≫= λ row, row !! c).
Proof.
  destruct (decide (r < length s)) as [Hr|Hr].
  - by rewrite lookup_app_l.
  - rewrite lookup_app_r, (lookup_ge_None_2 s) by lia. simpl.
    destruct (replicate n [] !! (r - length s)) as [x|] eqn:Hx; [|done].
    by apply lookup_replicate in Hx as [-> _].
Qed.

Lemma getValue_setValue_ne r c r' c' v (s : Sheet.t) :
  (r, c) ≠ (r', c') →
  Sheet.getValue r' c' (Sheet.setValue r c v s) = Sheet.getValue r' c' s.
Proof.
  intros Hne. unfold Sheet.getValue, Sheet.setValue.
  destruct (decide (r = r')) as [<-|Hr].
  - assert (c ≠ c') as Hc by congruence.
    rewrite list_lookup_insert_eq by (rewrite length_app, length_replicate; lia).
    simpl. rewrite list_lookup_insert_ne by done.
    rewrite lookup_pad_blank.
    rewrite <- (lookup_pad_rows s (S r - length s) r c').
    by destruct ((s ++ replicate (S r - length s) []) !! r).
  - rewrite list_lookup_insert_ne by done. apply lookup_pad_rows.
Qed.

Lemma foldl_appendRow {A : Type} (f : A → list cell) (l : list A) (s : Sheet.t) :
  foldl (λ sh row, Sheet.appendRow (f row) sh) s l = s ++ map f l.
Proof.
  revert s. induction l as [|a l IH]; intros s; simpl.
  - by rewrite app_nil_r.
  - rewrite IH. unfold Sheet.appendRow. by rewrite <- app_assoc.
Qed.

(** A cell to the right of the rows written by [appendRow] is blank. *)
Lemma getValue_rows_blank (s : Sheet.t) n r c :
  Forall (λ row, length row ≤ n) s → n ≤ c → Sheet.getValue r c s = Blank.
Proof.
  intros Hall Hc. unfold Sheet.getValue.
  destruct (s !! r) as [row|] eqn:Hrow; [|done]. simpl.
  rewrite Forall_lookup in Hall. apply Hall in Hrow.
  by rewrite lookup_ge_None_2 by lia.
Qed.

(** What [getIterativeTimeSlots] leaves in the three cells of row 2: the
    list it was handed as [excludedStudents], joined (nothing for an
    empty list), its length, and that length plus the number of selected
    students. *)
Lemma writeIterative_cells st excludedStudents sheet :
  let sheet' := writeIterative st excludedStudents sheet in
  Sheet.getValue Sheet.D2.1 Sheet.D2.2 sheet'
    = (if decide (0 < length excludedStudents) then Str (join excludedStudents) else Blank)
  ∧ Sheet.getValue Sheet.E2.1 Sheet.E2.2 sheet' = Num (Z.of_nat (length excludedStudents))
  ∧ Sheet.getValue Sheet.F2.1 Sheet.F2.2 sheet'
    = Num (Z.of_nat (length excludedStudents + totalStudents st)).
Proof.
  unfold writeIterative, Sheet.D2, Sheet.E2, Sheet.F2. simpl. split_and!.
  - rewrite !getValue_setValue_ne by done.
    case_decide.
    + apply getValue_setValue_eq.
    + rewrite foldl_appendRow. unfold Sheet.appendRow, Sheet.clear. simpl.
      change (Sheet.getValue 1 3 (iterativeHeaders :: ?rows))
        with (Sheet.getValue 0 3 rows).
      apply (getValue_rows_blank _ 3); [|lia].
      apply Forall_fmap, Forall_forall. intros row _. simpl. lia.
  - rewrite getValue_setValue_ne by done. apply getValue_setValue_eq.
  - apply getValue_setValue_eq.
Qed.

(** ** The iterative selector: claims *)

(** C3, as stated, fails: the students still remaining when the loop is
    left are dropped; only the list handed in as [excludedStudents] is
    written.  For the slots A = [p1, p2] and B = [p3, p4] with a minimum
    of 3 and no list handed in, the selection is empty, all four
    students remain, and the sheet reports no excluded student. *)
Lemma iterative_exclusion_counterexample :
  let index := [("A", ["p1"; "p2"]); ("B", ["p3"; "p4"])] in
  ∃ st ss sheet,
    selectIterative index 3 = Returned st
    ∧ finalSelections st = []
    ∧ remainingStudents st = list_to_set ["p1"; "p2"; "p3"; "p4"]
    ∧ getIterativeTimeSlots index 3 "out" [] [] ∅ = Returned ss
    ∧ ss !! "out" = Some sheet
    ∧ Sheet.getValue Sheet.D2.1 Sheet.D2.2 sheet = Blank
    ∧ Sheet.getValue Sheet.E2.1 Sheet.E2.2 sheet = Num 0.
Proof.
  eexists _, _, _. split_and!; [vm_compute; reflexivity..].
Qed.

(** C3, amended. The excluded students [getIterativeTimeSlots] reports
    are the list it was handed as [excludedStudents], whatever the index
    and the minimum: cell D2 holds that list joined (and stays blank for
    an empty list), cell E2 its length.  The students remaining when the
    loop is left are those of the index that no selected entry lists;
    they are not reported. *)
Theorem iterative_exclusion_is_argument (index : JsObject.t) (minGroupSize : Z)
    (sheetName : string) (virtualStudents excludedStudents : list string)
    (ss : gmap string Sheet.t) :
  ∃ st ss' sheet,
    selectIterative index minGroupSize = Returned st
    ∧ getIterativeTimeSlots index minGroupSize sheetName virtualStudents
        excludedStudents ss = Returned ss'
    ∧ ss' !! sheetName = Some sheet
    ∧ Sheet.getValue Sheet.D2.1 Sheet.D2.2 sheet
      = (if decide (0 < length excludedStudents)
         then Str (join excludedStudents) else Blank)
    ∧ Sheet.getValue Sheet.E2.1 Sheet.E2.2 sheet
      = Num (Z.of_nat (length excludedStudents))
    ∧ remainingStudents st = allOf index ∖ placed (finalSelections st).
Proof.
  destruct (selectIterative_spec index minGroupSize) as (st & Hsel & [_ Hrem _] & _).
  destruct (writeIterative_cells st excludedStudents (getOrInsertSheet ss sheetName))
    as (HD & HE & _).
  eexists st, _, _. split_and!; [done| | |exact HD|exact HE|done].
  - unfold getIterativeTimeSlots. by rewrite Hsel.
  - apply lookup_insert_eq.
Qed.



Lemma iterativeRound_nonpos index minGroupSize st :
  (minGroupSize ≤ 0)%Z →
  iterativeRound index minGroupSize st = iterativeRound index 0 st.
Proof.
  intros Hmin. unfold iterativeRound.
  destruct (rankedSlots _ _) as [|[[k students] count] rest]; [done|].
  rewrite !decide_False by lia. done.
Qed.

Lemma iterativeLoop_nonpos fuel index minGroupSize st :
  (minGroupSize ≤ 0)%Z →
  iterativeLoop fuel index minGroupSize st = iterativeLoop fuel index 0 st.
Proof.
  intros Hmin. revert st. induction fuel as [|fuel IH]; intros st; simpl.
  - rewrite !decide_True by lia. done.
  - rewrite !decide_True by lia. rewrite iterativeRound_nonpos by done.
    destruct (iterativeRound index 0 st); [done|apply IH].
Qed.

(** With a minimum of 0 or less the loop is left only when no student
    remains. *)
Lemma selectIterative_nonpos_all index minGroupSize st :
  (minGroupSize ≤ 0)%Z →
  selectIterative index minGroupSize = Returned st →
  remainingStudents st = ∅.
Proof.
  intros Hmin Hsel.
  destruct (selectIterative_spec index minGroupSize) as (st' & Hsel' & [_ Hrem _] & Hstop).
  assert (st' = st) as -> by congruence.
  apply set_eq. intros u. split; [|set_solver]. intros Hu.
  assert (u ∈ allOf index) as Hall by (rewrite Hrem in Hu; set_solver).
  apply elem_of_allOf in Hall as (k & v & He & Huv).
  assert (0 < filteredSize (remainingStudents st) (k, v)) as Hpos.
  { unfold filteredSize. simpl.
    assert (u ∈ filter (λ email, email ∈ remainingStudents st) v) as Hin
      by (by apply list_elem_of_filter).
    destruct (filter _ v); [by apply elem_of_nil in Hin | simpl; lia]. }
  destruct Hstop as [Hs|[Hs|Hs]]; [lia| |]; specialize (Hs _ He); lia.
Qed.

(** C6, as stated, fails: nothing in [getIterativeTimeSlots] looks at the
    sign of [minGroupSize].  With -1 the call returns, having selected a
    slot and written it. *)
Lemma negative_group_size_counterexample :
  ∃ st ss,
    selectIterative [("A", ["p1"])] (-1) = Returned st
    ∧ finalSelections st = [("A", ["p1"], 1)]
    ∧ getIterativeTimeSlots [("A", ["p1"])] (-1) "out" [] [] ∅ = Returned ss
    ∧ ss !! "out" = Some [iterativeHeaders; [Str "A"; Str "p1"; Num 1; Blank; Num 0; Num 1]].
Proof.
  eexists _, _. split_and!; [vm_compute; reflexivity..].
Qed.

(** C6, amended. A negative [minGroupSize] is not rejected: the call
    does what it does with a minimum of 0, that is, it selects slots
    until no student remains, and writes the result. *)
Theorem negative_group_size_runs_as_zero (index : JsObject.t) (minGroupSize : Z)
    (sheetName : string) (virtualStudents excludedStudents : list string)
    (ss : gmap string Sheet.t) :
  (minGroupSize < 0)%Z →
  selectIterative index minGroupSize = selectIterative index 0
  ∧ getIterativeTimeSlots index minGroupSize sheetName virtualStudents excludedStudents ss
    = getIterativeTimeSlots index 0 sheetName virtualStudents excludedStudents ss
  ∧ ∃ st ss',
      selectIterative index minGroupSize = Returned st
      ∧ remainingStudents st = ∅
      ∧ getIterativeTimeSlots index minGroupSize sheetName virtualStudents
          excludedStudents ss = Returned ss'.
Proof.
  intros Hneg.
  assert (selectIterative index minGroupSize = selectIterative index 0) as Heq
    by (apply iterativeLoop_nonpos; lia).
  split_and!; [done| |].
  - unfold getIterativeTimeSlots. by rewrite Heq.
  - destruct (selectIterative_spec index minGroupSize) as (st & Hsel & _).
    eexists st, _. split_and!; [done| |].
    + eapply selectIterative_nonpos_all; [|done]. lia.
    + unfold getIterativeTimeSlots. by rewrite Hsel.
Qed.

Lemma negative_group_size_runs_as_zero_witness :
  let index := [("A", ["p1"; "p2"]); ("B", ["p2"; "p3"])] in
  ((-1) < 0)%Z ∧
  selectIterative index (-1) = selectIterative index 0
  ∧ getIterativeTimeSlots index (-1) "out" [] [] ∅
    = getIterativeTimeSlots index 0 "out" [] [] ∅
  ∧ ∃ st ss',
      selectIterative index (-1) = Returned st
      ∧ remainingStudents st = ∅
      ∧ getIterativeTimeSlots index (-1) "out" [] [] ∅ = Returned ss'.
Proof.
  assert ((-1) < 0)%Z as Hneg by lia.
  split; [exact Hneg|].
  exact (negative_group_size_runs_as_zero _ (-1) "out" [] [] ∅ Hneg).
Defined.

(** ** The empty index *)

Lemma filter_not_in_empty (included : gset string) (emails : list string) :
  included = ∅ → filter (λ email, email ∉ included) emails = emails.
Proof.
  intros ->. induction emails as [|e emails IH]; [done|].
  rewrite filter_cons_True by set_solver. by rewrite IH.
Qed.

(** C7. The index without slots.  [getMinimumTimeSlots] returns the
    empty selection and [getIterativeTimeSlots] selects nothing, whatever
    the minimum; neither throws.  When the index built for [emails] has
    no slot, the builder's list of excluded students is [emails] itself,
    and that is what both pipelines report: the sheet of
    [processAvailabilityBySheet] and [processAvailabilityByTrack] has
    the header row and the emails joined in E2, the sheet of a block of
    [main] has the emails joined in D2 and their number in E2 and F2. *)
Theorem empty_index_degenerate :
  getMinimumTimeSlots [] = Returned ([], [])
  ∧ (∀ minGroupSize,
       selectIterative [] minGroupSize
       = Returned {| remainingStudents := ∅; finalSelections := []; totalStudents := 0 |})
  ∧ (∀ data emails thresh,
       (findAvailableSlotsForEmails data emails thresh).1 = [] →
       (findAvailableSlotsForEmails data emails thresh).2 = emails)
  ∧ (∀ data emails thresh outputSheetName virtualStudents ss,
       (findAvailableSlotsForEmails data emails thresh).1 = [] →
       ∃ ss' sheet,
         processAvailability data emails thresh outputSheetName virtualStudents ss
         = Returned ss'
         ∧ ss' !! outputSheetName = Some sheet
         ∧ sheet = (if decide (0 < length emails)
                    then [selectedHeaders; [Blank; Blank; Blank; Blank; Str (join emails)]]
                    else [selectedHeaders]))
  ∧ (∀ data emails sheetName ss,
       (findAvailableSlotsForEmails data emails 0).1 = [] →
       ∃ ss' sheet,
         mainBlock data emails sheetName ss = Returned ss'
         ∧ ss' !! sheetName = Some sheet
         ∧ Sheet.getValue 1 0 sheet = Blank
         ∧ Sheet.getValue Sheet.D2.1 Sheet.D2.2 sheet
           = (if decide (0 < length emails) then Str (join emails) else Blank)
         ∧ Sheet.getValue Sheet.E2.1 Sheet.E2.2 sheet = Num (Z.of_nat (length emails))
         ∧ Sheet.getValue Sheet.F2.1 Sheet.F2.2 sheet = Num (Z.of_nat (length emails))).
Proof.
  assert (∀ minGroupSize,
            selectIterative [] minGroupSize
            = Returned {| remainingStudents := ∅; finalSelections := []; totalStudents := 0 |})
    as Hiter.
  { intros minGroupSize. unfold selectIterative. simpl. by case_decide. }
  assert (∀ data emails thresh,
            (findAvailableSlotsForEmails data emails thresh).1 = [] →
            (findAvailableSlotsForEmails data emails thresh).2 = emails) as Hexc.
  { intros data emails thresh. unfold findAvailableSlotsForEmails. simpl.
    intros ->. by apply filter_not_in_empty. }
  split_and!; [done|done|done| |].
  - intros data emails thresh outputSheetName virtualStudents ss Hnil.
    specialize (Hexc _ _ _ Hnil). unfold processAvailability.
    destruct (findAvailableSlotsForEmails data emails thresh) as [allSlots excStudents].
    simpl in *. subst. eexists _, _. split; [reflexivity|].
    unfold writeSelectedSlotsToSheet. rewrite lookup_insert_eq. split; [reflexivity|].
    simpl. by case_decide.
  - intros data emails sheetName ss Hnil.
    specialize (Hexc _ _ _ Hnil). unfold mainBlock.
    destruct (findAvailableSlotsForEmails data emails 0) as [allSlots excStudents].
    simpl in *. subst. unfold getIterativeTimeSlots. rewrite Hiter.
    eexists _, _. split; [reflexivity|]. rewrite lookup_insert_eq. split; [reflexivity|].
    match goal with |- context [writeIterative ?st ?e ?s] =>
      destruct (writeIterative_cells st e s) as (HD & HE & HF) end.
    simpl in HF. rewrite Nat.add_0_r in HF. split_and!; [|done..].
    unfold writeIterative, Sheet.D2, Sheet.E2, Sheet.F2. simpl.
    rewrite !getValue_setValue_ne by done. case_decide; [|done].
    by rewrite getValue_setValue_ne.
Qed.

(** A sheet whose only student has no availability at all. *)
Lemma empty_index_degenerate_witness :
  let data := [["Timestamp"; "Email"; "Name"; "Year"; "Track";
                "Mon"; "Tue"; "Wed"; "Thu"; "Fri"; "Sat"; "Sun"];
               ["1/1"; "a@x.edu"; "A"; "1"; "SEARCH"; ""; ""; ""; ""; ""; ""; ""]] in
  (findAvailableSlotsForEmails data ["a@x.edu"] 0).1 = []
  ∧ (findAvailableSlotsForEmails data ["a@x.edu"] 0).2 = ["a@x.edu"]
  ∧ (∃ ss' sheet,
       processAvailability data ["a@x.edu"] 0 "out" [] ∅ = Returned ss'
       ∧ ss' !! "out" = Some sheet
       ∧ sheet = (if decide (0 < length ["a@x.edu"])
                  then [selectedHeaders; [Blank; Blank; Blank; Blank; Str (join ["a@x.edu"])]]
                  else [selectedHeaders]))
  ∧ (∃ ss' sheet,
       mainBlock data ["a@x.edu"] "out" ∅ = Returned ss'
       ∧ ss' !! "out" = Some sheet
       ∧ Sheet.getValue 1 0 sheet = Blank
       ∧ Sheet.getValue Sheet.D2.1 Sheet.D2.2 sheet
         = (if decide (0 < length ["a@x.edu"]) then Str (join ["a@x.edu"]) else Blank)
       ∧ Sheet.getValue Sheet.E2.1 Sheet.E2.2 sheet = Num (Z.of_nat (length ["a@x.edu"]))
       ∧ Sheet.getValue Sheet.F2.1 Sheet.F2.2 sheet = Num (Z.of_nat (length ["a@x.edu"]))).
Proof.
  pose proof empty_index_degenerate as (_ & _ & Hexc & Hproc & Hmain).
  split_and!.
  - vm_compute. reflexivity.
  - apply Hexc. vm_compute. reflexivity.
  - apply Hproc. vm_compute. reflexivity.
  - apply Hmain. vm_compute. reflexivity.
Defined.

(** ** The index builder *)

Lemma get_set (o : JsObject.t) k v k' :
  JsObject.get (JsObject.set o k v) k' = if decide (k = k') then Some v else JsObject.get o k'.
Proof.
  induction o as [|[k0 v0] o IH]; simpl.
  - by repeat case_decide.
  - destruct (decide (k0 = k)) as [->|Hk0]; simpl.
    + by repeat case_decide.
    + rewrite IH. repeat case_decide; congruence.
Qed.

Lemma pushEmail_listed slots key email : listed (pushEmail slots key email) key email.
Proof.
  unfold listed, pushEmail. destruct (JsObject.get slots key) as [l|];
    rewrite get_set, decide_True by done; eexists; (split; [done|set_solver]).
Qed.

Lemma pushEmail_mono slots key email k e :
  listed slots k e → listed (pushEmail slots key email) k e.
Proof.
  intros (l & Hl & He). unfold listed, pushEmail.
  destruct (JsObject.get slots key) as [l'|] eqn:Hk; rewrite get_set;
    (destruct (decide (key = k)) as [->|]; [|by eauto]).
  - assert (l' = l) as -> by congruence. eexists. split; [done|set_solver].
  - congruence.
Qed.

Lemma foldl_pushEmail_mono index email (tokens : list string) slots k e :
  listed slots k e →
  listed (foldl (λ slots slot, pushEmail slots (slotKey index slot) email) slots tokens) k e.
Proof.
  revert slots. induction tokens as [|t tokens IH]; intros slots Hl; simpl; [done|].
  by apply IH, pushEmail_mono.
Qed.

Lemma foldl_pushEmail_listed index email (tokens : list string) slots t :
  t ∈ tokens →
  listed (foldl (λ slots slot, pushEmail slots (slotKey index slot) email) slots tokens)
         (slotKey index t) email.
Proof.
  revert slots. induction tokens as [|t' tokens IH]; intros slots Ht; simpl.
  - by apply elem_of_nil in Ht.
  - apply elem_of_cons in Ht as [->|Ht]; [|by apply IH].
    apply foldl_pushEmail_mono, pushEmail_listed.
Qed.

Lemma addColumn_mono row email slots index k e :
  listed slots k e → listed (addColumn row email slots index) k e.
Proof.
  intros Hl. unfold addColumn. destruct (row !! index) as [s|]; [|done].
  case_decide; [done|]. by apply foldl_pushEmail_mono.
Qed.

Lemma addColumn_listed row email slots index s token :
  row !! index = Some s → s ≠ "" → token ∈ split "," s →
  listed (addColumn row email slots index) (slotKey index (trim token)) email.
Proof.
  intros Hrow Hs Ht. unfold addColumn. rewrite Hrow, decide_False by done.
  apply foldl_pushEmail_listed. by apply (list_elem_of_fmap_2 trim).
Qed.

Lemma foldl_addColumn_mono row email (indices : list nat) slots k e :
  listed slots k e → listed (foldl (addColumn row email) slots indices) k e.
Proof.
  revert slots. induction indices as [|i indices IH]; intros slots Hl; simpl; [done|].
  by apply IH, addColumn_mono.
Qed.

Lemma addRow_mono row email slots k e :
  listed slots k e → listed (addRow row email slots) k e.
Proof. apply foldl_addColumn_mono. Qed.

Lemma addRow_listed row email slots index s token :
  index ∈ availabilityIndices →
  row !! index = Some s → s ≠ "" → token ∈ split "," s →
  listed (addRow row email slots) (slotKey index (trim token)) email.
Proof.
  intros Hi Hrow Hs Ht. unfold addRow. revert slots.
  induction availabilityIndices as [|i indices IH]; intros slots; simpl.
  - by apply elem_of_nil in Hi.
  - apply elem_of_cons in Hi as [->|Hi]; [|by apply IH].
    by eapply foldl_addColumn_mono, addColumn_listed.
Qed.

(** A column that is missing or empty adds nothing. *)
Lemma addColumn_skip row email slots index :
  row !! index = None ∨ row !! index = Some "" →
  addColumn row email slots index = slots.
Proof.
  unfold addColumn. intros [->| ->]; [done|]. by rewrite decide_True.
Qed.

(** A value that ends in a comma has an empty last piece. *)
Lemma split_trailing_comma s :
  ∃ piece pieces, split "," (s +:+ ",") = piece :: pieces ++ [""].
Proof.
  induction s as [|c s (piece & pieces & IH)]; simpl.
  - by exists "", [].
  - rewrite IH. case_decide.
    + by exists "", (piece :: pieces).
    + by exists (String c piece), pieces.
Qed.

Lemma split_trailing_comma_elem_of s : "" ∈ split "," (s +:+ ",").
Proof.
  destruct (split_trailing_comma s) as (piece & pieces & ->). set_solver.
Qed.

Lemma availableSlotsForEmails_listed data emails row email index s token :
  row ∈ drop 1 data → row !! emailIndex = Some email → email ∈ emails →
  index ∈ availabilityIndices →
  row !! index = Some s → s ≠ "" → token ∈ split "," s →
  listed (availableSlotsForEmails data emails) (slotKey index (trim token)) email.
Proof.
  intros Hrow Hemail Hin Hi Hs Hne Ht. unfold availableSlotsForEmails.
  generalize (@nil (string * list string)).
  induction (drop 1 data) as [|row' rows IH]; intros slots; simpl.
  - by apply elem_of_nil in Hrow.
  - apply elem_of_cons in Hrow as [<-|Hrow]; [|by apply IH].
    rewrite Hemail, decide_True by done.
    generalize (addRow_listed row email slots index s token Hi Hs Hne Ht).
    generalize (addRow row email slots). clear. revert rows.
    induction rows as [|r rows IH]; intros slots Hl; simpl; [done|].
    apply IH. destruct (r !! emailIndex); [|done].
    case_decide; [by apply addRow_mono|done].
Qed.

Lemma availableSlotsForTrack_mono rows track acc res k e :
  availableSlotsForTrack rows track acc = Returned res →
  listed acc.1 k e → listed res.1 k e.
Proof.
  revert acc. induction rows as [|row rows IH]; intros acc; simpl.
  - by intros [= <-].
  - destruct (row !! trackIndex); [|done].
    destruct (existsb _ _); intros Hres Hl; [|by eapply IH].
    eapply IH; [done|]. simpl. by apply addRow_mono.
Qed.

Lemma availableSlotsForTrack_listed rows track acc res row tracks index s token :
  availableSlotsForTrack rows track acc = Returned res →
  row ∈ rows → row !! trackIndex = Some tracks →
  existsb (λ t, includes t track) (map trim (split "," tracks)) = true →
  index ∈ availabilityIndices →
  row !! index = Some s → s ≠ "" → token ∈ split "," s →
  listed res.1 (slotKey index (trim token)) (default "" (row !! emailIndex)).
Proof.
  intros Hres Hrow Htracks Hfound Hi Hs Hne Ht. revert acc Hres.
  induction rows as [|row' rows IH]; intros acc; simpl.
  - by apply elem_of_nil in Hrow.
  - apply elem_of_cons in Hrow as [<-|Hrow].
    + rewrite Htracks, Hfound. intros Hres.
      eapply availableSlotsForTrack_mono; [done|]. simpl. by eapply addRow_listed.
    + destruct (row' !! trackIndex) as [tracks'|]; [|done].
      destruct (existsb _ (map trim (split "," tracks'))); intros Hres;
        exact (IH Hrow _ Hres).
Qed.

Lemma set_keys (o : JsObject.t) k v :
  JsObject.keys (JsObject.set o k v)
  = if decide (k ∈ JsObject.keys o) then JsObject.keys o else JsObject.keys o ++ [k].
Proof.
  unfold JsObject.keys. induction o as [|[k0 v0] o IH].
  - destruct (decide (k ∈ ([] : JsObject.t).*1)) as [Hin|Hin]; [|done].
    by apply elem_of_nil in Hin.
  - cbn [JsObject.set]. destruct (decide (k0 = k)) as [->|Hk0].
    + rewrite decide_True; [done|left].
    + rewrite fmap_cons, IH. cbn [fst fmap list_fmap].
      destruct (decide (k ∈ o.*1)) as [Hin|Hin].
      * rewrite decide_True; [done|by right].
      * rewrite decide_False; [done|]. rewrite not_elem_of_cons. by split.
Qed.

Lemma set_wf (o : JsObject.t) k v : JsObject.wf o → JsObject.wf (JsObject.set o k v).
Proof.
  unfold JsObject.wf. rewrite set_keys. case_decide; [done|]. intros Hwf.
  apply NoDup_app. split_and!; [done| |apply NoDup_singleton].
  intros x Hx. rewrite list_elem_of_singleton. by intros ->.
Qed.

Lemma pushEmail_wf slots key email :
  JsObject.wf slots → JsObject.wf (pushEmail slots key email).
Proof. unfold pushEmail. destruct (JsObject.get slots key); apply set_wf. Qed.

Lemma addRow_wf row email slots : JsObject.wf slots → JsObject.wf (addRow row email slots).
Proof.
  unfold addRow. revert slots.
  induction availabilityIndices as [|i indices IH]; intros slots Hwf; simpl; [done|].
  apply IH. unfold addColumn. destruct (row !! i) as [s|]; [|done].
  case_decide; [done|]. revert slots Hwf.
  induction (map trim (split "," s)) as [|t ts IHt]; intros slots Hwf; simpl; [done|].
  by apply IHt, pushEmail_wf.
Qed.

Lemma availableSlotsForEmails_wf data emails :
  JsObject.wf (availableSlotsForEmails data emails).
Proof.
  unfold availableSlotsForEmails.
  assert (JsObject.wf []) as Hwf by apply NoDup_nil_2. revert Hwf.
  generalize (@nil (string * list string)).
  induction (drop 1 data) as [|row rows IH]; intros slots Hwf; simpl; [done|].
  apply IH. destruct (row !! emailIndex); [|done].
  case_decide; [by apply addRow_wf|done].
Qed.

Lemma availableSlotsForTrack_wf rows track acc res :
  availableSlotsForTrack rows track acc = Returned res →
  JsObject.wf acc.1 → JsObject.wf res.1.
Proof.
  revert acc. induction rows as [|row rows IH]; intros acc; simpl.
  - by intros [= <-].
  - destruct (row !! trackIndex); [|done].
    destruct (existsb _ _); intros Hres Hwf; [|by eapply IH].
    eapply IH; [done|]. simpl. by apply addRow_wf.
Qed.

(** [Object.fromEntries] of entries with distinct keys is the object of
    these entries, in their order. *)
Lemma fromEntries_wf (l : list (string * list string)) :
  JsObject.wf l → JsObject.fromEntries l = l.
Proof.
  unfold JsObject.fromEntries.
  enough (∀ acc : JsObject.t, JsObject.wf (acc ++ l) →
            foldl (λ o e, JsObject.set o e.1 e.2) acc l = acc ++ l) as H
    by (intros Hwf; by apply (H [])).
  induction l as [|[k v] l IH]; intros acc Hwf; simpl.
  - by rewrite app_nil_r.
  - rewrite set_fresh.
    + rewrite IH; rewrite <- app_assoc; done.
    + unfold JsObject.wf, JsObject.keys in *. rewrite fmap_app in Hwf.
      apply NoDup_app in Hwf as (_ & Hdis & _). intros Hk. apply (Hdis _ Hk). left.
Qed.

Lemma filter_wf (P : string * list string → Prop) `{!∀ e, Decision (P e)} (o : JsObject.t) :
  JsObject.wf o → JsObject.wf (filter P o).
Proof.
  unfold JsObject.wf, JsObject.keys. intros Hwf.
  eapply sublist_NoDup; [exact Hwf|]. apply fmap_sublist, sublist_filter.
Qed.

Lemma filterSlots_wf slots thresh :
  JsObject.wf slots →
  filterSlots slots thresh
  = filter (λ e, (thresh ≤ Z.of_nat (length e.2))%Z) slots.
Proof. intros Hwf. unfold filterSlots. by apply fromEntries_wf, filter_wf. Qed.

Lemma get_filter_Some (P : string * list string → Prop) `{!∀ e, Decision (P e)}
    (o : JsObject.t) k l :
  JsObject.get o k = Some l → P (k, l) → JsObject.get (filter P o) k = Some l.
Proof.
  intros Hget HP. induction o as [|[k0 v0] o IH]; simpl in *; [done|].
  rewrite filter_cons. destruct (decide (k0 = k)) as [->|Hk0].
  - injection Hget as ->. rewrite decide_True by done. simpl. by rewrite decide_True.
  - destruct (decide (P (k0, v0))); simpl; [rewrite decide_False by done|]; by apply IH.
Qed.

(** A threshold of 1 or less keeps every slot that lists a student. *)
Lemma filterSlots_listed slots thresh k e :
  JsObject.wf slots → (thresh ≤ 1)%Z →
  listed slots k e → listed (filterSlots slots thresh) k e.
Proof.
  intros Hwf Hth (l & Hget & He). rewrite filterSlots_wf by done.
  exists l. split; [|done]. apply get_filter_Some; [done|]. simpl.
  destruct l; [by apply elem_of_nil in He | simpl; lia].
Qed.

Lemma availableSlotsForTrack_returns rows track acc :
  Forall (λ row, is_Some (row !! trackIndex)) rows →
  ∃ res, availableSlotsForTrack rows track acc = Returned res.
Proof.
  intros Hrows. revert acc. induction Hrows as [|row rows [tracks Hrow] _ IH];
    intros acc; simpl; [by eexists|].
  rewrite Hrow. destruct (existsb _ _); apply IH.
Qed.

(** C8, as stated, fails: only a day's value as a whole is tested for
    being empty; the pieces between its commas are not.  A value that
    ends in a comma makes a slot labelled with the day and a space. *)
Lemma builder_empty_token_counterexample :
  let data := [["Timestamp"; "Email"; "Name"; "Year"; "Track";
                "Mon"; "Tue"; "Wed"; "Thu"; "Fri"; "Sat"; "Sun"];
               ["1/1"; "a@x.edu"; "A"; "1"; "SEARCH"; "10am,"; ""; ""; ""; ""; ""; ""]] in
  findAvailableSlotsForEmails data ["a@x.edu"] 0
  = ([("Mon 10am", ["a@x.edu"]); ("Mon ", ["a@x.edu"])], [])
  ∧ findAvailableSlots data "SEARCH" 0
    = Returned ([("Mon 10am", ["a@x.edu"]); ("Mon ", ["a@x.edu"])], []).
Proof. split; vm_compute; reflexivity. Qed.

(** C8, amended. The builder passes over a day's value only when it is
    missing or empty as a whole.  A non-empty value is split at its
    commas and every piece, trimmed, makes a slot token, an empty piece
    included: the slot labelled with the day, a space and the trimmed
    piece exists in the index built and lists the student (in the index
    returned as well when the threshold is 1 or less).  This holds for
    [findAvailableSlotsForEmails] and for [findAvailableSlots].  A value
    ending in a comma has an empty piece, which trimming leaves empty. *)
Theorem builder_skips_empty_values_only :
  (∀ row email slots index,
     row !! index = None ∨ row !! index = Some "" →
     addColumn row email slots index = slots)
  ∧ (∀ data emails thresh row email index s token,
       row ∈ drop 1 data → row !! emailIndex = Some email → email ∈ emails →
       index ∈ availabilityIndices →
       row !! index = Some s → s ≠ "" → token ∈ split "," s →
       listed (availableSlotsForEmails data emails) (slotKey index (trim token)) email
       ∧ ((thresh ≤ 1)%Z →
          listed (findAvailableSlotsForEmails data emails thresh).1
                 (slotKey index (trim token)) email))
  ∧ (∀ data track thresh row tracks index s token,
       Forall (λ row, is_Some (row !! trackIndex)) (drop 1 data) →
       row ∈ drop 1 data → row !! trackIndex = Some tracks →
       existsb (λ t, includes t track) (map trim (split "," tracks)) = true →
       index ∈ availabilityIndices →
       row !! index = Some s → s ≠ "" → token ∈ split "," s →
       (thresh ≤ 1)%Z →
       ∃ res, findAvailableSlots data track thresh = Returned res
              ∧ listed res.1 (slotKey index (trim token)) (default "" (row !! emailIndex)))
  ∧ (∀ s, "" ∈ split "," (s +:+ ",") ∧ trim "" = "").
Proof.
  split_and!.
  - apply addColumn_skip.
  - intros data emails thresh row email index s token Hrow Hemail Hin Hi Hs Hne Ht.
    pose proof (availableSlotsForEmails_listed _ _ _ _ _ _ _ Hrow Hemail Hin Hi Hs Hne Ht)
      as Hl.
    split; [done|]. intros Hth. unfold findAvailableSlotsForEmails. simpl.
    apply filterSlots_listed; [apply availableSlotsForEmails_wf|done..].
  - intros data track thresh row tracks index s token Hall Hrow Htr Hfound Hi Hs Hne Ht Hth.
    unfold findAvailableSlots.
    destruct (availableSlotsForTrack_returns _ track ([], []) Hall)
      as ([slots students] & Hres).
    rewrite Hres. eexists. split; [done|]. simpl.
    apply filterSlots_listed; [|done|].
    + apply (availableSlotsForTrack_wf _ _ _ _ Hres). apply NoDup_nil_2.
    + apply (availableSlotsForTrack_listed _ _ _ _ _ _ _ _ _ Hres Hrow Htr Hfound Hi Hs Hne Ht).
  - intros s. split; [apply split_trailing_comma_elem_of|done].
Qed.

(** A student whose Monday reads "10am," is listed under "Mon ". *)
Lemma builder_skips_empty_values_only_witness :
  let row := ["1/1"; "a@x.edu"; "A"; "1"; "SEARCH"; "10am,"; ""; ""; ""; ""; ""; ""] in
  let data := [["Timestamp"; "Email"; "Name"; "Year"; "Track";
                "Mon"; "Tue"; "Wed"; "Thu"; "Fri"; "Sat"; "Sun"]; row] in
  addColumn row "a@x.edu" [] 6 = []
  ∧ (listed (availableSlotsForEmails data ["a@x.edu"]) (slotKey 5 (trim "")) "a@x.edu"
     ∧ ((0 ≤ 1)%Z →
        listed (findAvailableSlotsForEmails data ["a@x.edu"] 0).1 (slotKey 5 (trim "")) "a@x.edu"))
  ∧ (∃ res, findAvailableSlots data "SEARCH" 0 = Returned res
            ∧ listed res.1 (slotKey 5 (trim "")) (default "" (row !! emailIndex)))
  ∧ slotKey 5 (trim "") = "Mon ".
Proof.
  intros row data.
  pose proof builder_skips_empty_values_only as (Hskip & Hemails & Htrack & Hcomma).
  split; [|split; [|split]].
  - apply Hskip. right. reflexivity.
  - apply (Hemails data ["a@x.edu"] 0%Z row "a@x.edu" 5 "10am," "");
      first [ reflexivity | discriminate | exact (proj1 (Hcomma "10am")) | left ].
  - refine (Htrack data "SEARCH" 0%Z row "SEARCH" 5 "10am," "" _ _ _ _ _ _ _ _ _);
      first [ reflexivity | discriminate | lia | exact (proj1 (Hcomma "10am")) | left
            | repeat constructor; by eexists ].
  - reflexivity.
Defined.

(** ** The scenarios of the specification, run *)

(** One slot that lists everybody is the whole selection. *)
Example min_cover_one_slot :
  getMinimumTimeSlots [("A", ["p1"; "p2"]); ("B", ["p1"; "p2"; "p3"])]
  = Returned ([("B", ["p1"; "p2"; "p3"])], [("A", ["p1"; "p2"])]).
Proof. vm_compute. reflexivity. Qed.

(** Slot A takes its four students; the two of slot B are among them, so
    nothing remains. *)
Example iterative_partial_coverage :
  selectIterative [("A", ["p1"; "p2"; "p3"; "p4"]); ("B", ["p1"; "p2"])] 3
  = Returned {| remainingStudents := ∅;
                finalSelections := [("A", ["p1"; "p2"; "p3"; "p4"], 4)];
                totalStudents := 4 |}.
Proof. vm_compute. reflexivity. Qed.

(** The students of a slot taken earlier do not count again. *)
Example iterative_disjoint_rounds :
  ∃ st, selectIterative [("A", ["p1"; "p2"; "p3"]); ("B", ["p3"; "p4"; "p5"])] 2 = Returned st
        ∧ finalSelections st = [("A", ["p1"; "p2"; "p3"], 3); ("B", ["p4"; "p5"], 2)].
Proof. eexists. split; vm_compute; reflexivity. Qed.

(** * Further properties *)

(** ** The iterative selector, pass by pass *)

(** What holds at the start and is kept by every pass that goes on holds
    when the loop is left. *)
Lemma iterativeLoop_invariant (P : Iterative → Prop) index minGroupSize :
  (∀ st st', P st → iterativeRound index minGroupSize st = Continue st' → P st') →
  ∀ fuel st st',
    P st → iterativeLoop fuel index minGroupSize st = Returned st' → P st'.
Proof.
  intros Hstep fuel. induction fuel as [|fuel IH]; intros st st' HP; simpl.
  - case_decide; [done|]. by intros [= <-].
  - case_decide; [|by intros [= <-]].
    destruct (iterativeRound index minGroupSize st) as [|st1] eqn:Hround.
    + by intros [= <-].
    + apply IH. by eapply Hstep.
Qed.

Lemma filteredSize_mono (remaining remaining' : gset string) e :
  remaining' ⊆ remaining → filteredSize remaining' e ≤ filteredSize remaining e.
Proof.
  intros Hsub. unfold filteredSize. induction e.2 as [|u l IH]; [done|].
  rewrite !filter_cons.
  destruct (decide (u ∈ remaining')) as [Hu|Hu].
  - rewrite decide_True by (by apply Hsub). simpl. lia.
  - destruct (decide (u ∈ remaining)); simpl; lia.
Qed.

Lemma filteredSize_removed (remaining : gset string) k v :
  filteredSize (remaining ∖ list_to_set (filter (λ email, email ∈ remaining) v)) (k, v) = 0.
Proof.
  unfold filteredSize. simpl.
  destruct (filter _ v) as [|u l] eqn:Hf at 1; [done|].
  assert (u ∈ filter (λ email, email ∈ remaining
                        ∖ list_to_set (filter (λ email, email ∈ remaining) v)) v) as Hu
    by (rewrite Hf; left).
  apply list_elem_of_filter in Hu as [Hu Hv].
  apply elem_of_difference in Hu as [Hr Hn]. destruct Hn.
  apply elem_of_list_to_set, list_elem_of_filter. done.
Qed.


Lemma elem_of_placed sels u :
  u ∈ placed sels ↔ ∃ r, r ∈ sels ∧ u ∈ r.1.2.
Proof.
  unfold placed. rewrite elem_of_list_to_set, list_elem_of_In, in_concat. split.
  - intros (l & Hl & Hu). apply list_elem_of_In, list_elem_of_fmap in Hl.
    destruct Hl as (r & -> & Hr). exists r. split; [done | by apply list_elem_of_In].
  - intros (r & Hr & Hu). exists r.1.2. rewrite <- !list_elem_of_In. split; [|done].
    by apply (list_elem_of_fmap_2 (λ r : string * list string * nat, r.1.2)).
Qed.

Lemma iterativeOrder_init index : iterativeOrder index (iterativeInit index).
Proof.
  split; simpl.
  - intros i j r1 r2 u Hi. by rewrite lookup_nil in Hi.
  - intros r v Hr. by apply elem_of_nil in Hr.
  - apply NoDup_nil_2.
  - constructor.
  - intros r e Hr. by apply elem_of_nil in Hr.
Qed.

Lemma iterativeOrder_round index minGroupSize st st' :
  JsObject.wf index →
  iterativeInv index minGroupSize st → iterativeOrder index st →
  iterativeRound index minGroupSize st = Continue st' →
  iterativeOrder index st'.
Proof.
  intros Hwf [_ Hrem _] [Hdis Hspent Hlab Hsort Hbound] Hround.
  apply iterativeRound_Continue in Hround
    as (k & v & Hfm & _ & Hpos & Hsel & Hrem' & _). simpl in *.
  set (students := filter (λ email, email ∈ remainingStudents st) v) in *.
  assert (remainingStudents st' ⊆ remainingStudents st) as Hsub
    by (rewrite Hrem'; set_solver).
  assert ((k, v) ∈ index) as Hkv by (by eapply firstMax_elem_of).
  assert (filteredSize (remainingStudents st) (k, v) = length students) as Hsize by done.
  split.
  - rewrite Hsel. intros i j r1 r2 u Hi Hj Hu1 Hu2.
    assert (∀ i r, finalSelections st !! i = Some r → u ∈ r.1.2 → u ∈ students → False)
      as Hold.
    { intros i0 r Hr Hur Hus.
      apply list_elem_of_filter in Hus as [Hus _]. rewrite Hrem in Hus.
      apply elem_of_difference in Hus as [_ Hn]. apply Hn, elem_of_placed.
      exists r. split; [by eapply list_elem_of_lookup_2|done]. }
    apply lookup_snoc_Some in Hi as [[Hil Hi]|[Hil <-]];
      apply lookup_snoc_Some in Hj as [[Hjl Hj]|[Hjl <-]]; simpl in *.
    + by eapply Hdis.
    + by destruct (Hold i r1).
    + by destruct (Hold j r2).
    + lia.
  - rewrite Hsel. intros r v' Hr Hin.
    apply elem_of_app in Hr as [Hr|Hr].
    + pose proof (filteredSize_mono _ _ (r.1.1, v') Hsub) as Hle.
      rewrite (Hspent r v' Hr Hin) in Hle. lia.
    + apply list_elem_of_singleton in Hr as ->. simpl in *.
      assert (v' = v) as -> by exact (wf_functional index k v' v Hwf Hin Hkv).
      rewrite Hrem'. apply filteredSize_removed.
  - rewrite Hsel, !fmap_app. simpl. apply NoDup_app. split_and!; [done| |apply NoDup_singleton].
    intros k' Hk' Hk. apply list_elem_of_singleton in Hk as ->.
    apply list_elem_of_fmap in Hk' as (kl & -> & Hkl).
    apply list_elem_of_fmap in Hkl as (r & -> & Hr).
    pose proof (Hspent r v Hr Hkv) as Hzero. lia.
  - rewrite Hsel, fmap_app. simpl. apply StronglySorted_app_2; [|done|repeat constructor].
    intros a b Ha Hb. apply list_elem_of_singleton in Hb as ->.
    apply list_elem_of_fmap in Ha as (r & -> & Hr).
    pose proof (Hbound r (k, v) Hr Hkv). lia.
  - rewrite Hsel. intros r e Hr He.
    pose proof (filteredSize_mono _ _ e Hsub) as Hle.
    apply elem_of_app in Hr as [Hr|Hr].
    + pose proof (Hbound r e Hr He). lia.
    + apply list_elem_of_singleton in Hr as ->. simpl.
      pose proof (firstMax_ge _ _ _ _ Hfm He). lia.
Qed.

(** Both invariants hold of the state [selectIterative] returns. *)
Lemma selectIterative_order index minGroupSize :
  JsObject.wf index →
  ∃ st,
    selectIterative index minGroupSize = Returned st
    ∧ iterativeInv index minGroupSize st
    ∧ iterativeStopped index minGroupSize st
    ∧ iterativeOrder index st.
Proof.
  intros Hwf.
  destruct (selectIterative_spec index minGroupSize) as (st & Hsel & Hinv & Hstop).
  exists st. split_and!; try done.
  pose proof (iterativeLoop_invariant
                (λ st, iterativeInv index minGroupSize st ∧ iterativeOrder index st)
                index minGroupSize) as Hind.
  eapply Hind; [| |exact Hsel].
  - intros st0 st1 [Hi Ho] Hround. split.
    + by eapply iterativeInv_round.
    + by eapply iterativeOrder_round.
  - split; [apply iterativeInv_init | apply iterativeOrder_init].
Qed.

(** X1. The entries of the iterative selection do not overlap: no
    student is listed by two entries and no slot is selected twice; each
    entry lists students of its slot, and its count is the length of its
    list. *)
Theorem iterative_entries_disjoint (index : JsObject.t) (minGroupSize : Z) :
  JsObject.wf index →
  ∃ st,
    selectIterative index minGroupSize = Returned st
    ∧ disjointSelections (finalSelections st)
    ∧ NoDup ((finalSelections st).*1.*1)
    ∧ Forall (λ r, r.2 = length r.1.2
                   ∧ ∃ v, (r.1.1, v) ∈ index ∧ ∀ u, u ∈ r.1.2 → u ∈ v)
             (finalSelections st).
Proof.
  intros Hwf.
  destruct (selectIterative_order index minGroupSize Hwf)
    as (st & Hsel & [Hent _ _] & _ & [Hdis _ Hlab _ _]).
  exists st. split_and!; try done.
  eapply Forall_impl; [exact Hent|]. intros r (_ & Hlen & _ & Hv). done.
Qed.

Lemma iterative_entries_disjoint_witness :
  let index := [("A", ["p1"; "p2"; "p3"]); ("B", ["p3"; "p4"; "p5"]); ("C", ["p5"])] in
  JsObject.wf index ∧
  ∃ st,
    selectIterative index 2 = Returned st
    ∧ disjointSelections (finalSelections st)
    ∧ NoDup ((finalSelections st).*1.*1)
    ∧ Forall (λ r, r.2 = length r.1.2
                   ∧ ∃ v, (r.1.1, v) ∈ index ∧ ∀ u, u ∈ r.1.2 → u ∈ v)
             (finalSelections st).
Proof.
  assert (JsObject.wf [("A", ["p1"; "p2"; "p3"]); ("B", ["p3"; "p4"; "p5"]); ("C", ["p5"])])
    as Hwf by solve_wf.
  split; [exact Hwf|].
  exact (iterative_entries_disjoint _ 2 Hwf).
Defined.

Lemma StronglySorted_lookup {A : Type} (R : relation A) (l : list A) i j a b :
  StronglySorted R l → i < j → l !! i = Some a → l !! j = Some b → R a b.
Proof.
  intros Hs. revert i j. induction Hs as [|x l Hs IH Hall]; intros i j Hij Hi Hj.
  - by rewrite lookup_nil in Hi.
  - destruct j as [|j]; [lia|]. destruct i as [|i]; simpl in *.
    + injection Hi as ->. rewrite Forall_forall in Hall.
      apply Hall. by eapply list_elem_of_lookup_2.
    + eapply (IH i j); [lia|done..].
Qed.

(** X2. The iterative selection comes out largest first: the counts of
    its entries never increase from one entry to the next, so the rows
    are written in that order without being sorted. *)
Theorem iterative_counts_decrease (index : JsObject.t) (minGroupSize : Z) :
  JsObject.wf index →
  ∃ st,
    selectIterative index minGroupSize = Returned st
    ∧ StronglySorted (λ a b, b ≤ a) ((finalSelections st).*2)
    ∧ ∀ i j r1 r2,
        finalSelections st !! i = Some r1 → finalSelections st !! j = Some r2 →
        i ≤ j → length r2.1.2 ≤ length r1.1.2.
Proof.
  intros Hwf.
  destruct (selectIterative_order index minGroupSize Hwf)
    as (st & Hsel & [Hent _ _] & _ & [_ _ _ Hsort _]).
  exists st. split_and!; try done.
  intros i j r1 r2 Hi Hj Hij.
  rewrite Forall_forall in Hent.
  destruct (Hent r1) as (_ & <- & _); [by eapply list_elem_of_lookup_2|].
  destruct (Hent r2) as (_ & <- & _); [by eapply list_elem_of_lookup_2|].
  destruct (decide (i = j)) as [->|Hne]; [by simplify_eq|].
  assert (i < j) as Hlt by lia.
  apply (StronglySorted_lookup _ _ i j r1.2 r2.2 Hsort Hlt);
    rewrite list_lookup_fmap; [by rewrite Hi | by rewrite Hj].
Qed.

Lemma iterative_counts_decrease_witness :
  let index := [("A", ["p1"; "p2"]); ("B", ["p2"; "p3"; "p4"]); ("C", ["p5"])] in
  JsObject.wf index ∧
  ∃ st,
    selectIterative index 0 = Returned st
    ∧ StronglySorted (λ a b, b ≤ a) ((finalSelections st).*2)
    ∧ ∀ i j r1 r2,
        finalSelections st !! i = Some r1 → finalSelections st !! j = Some r2 →
        i ≤ j → length r2.1.2 ≤ length r1.1.2.
Proof.
  assert (JsObject.wf [("A", ["p1"; "p2"]); ("B", ["p2"; "p3"; "p4"]); ("C", ["p5"])])
    as Hwf by solve_wf.
  split; [exact Hwf|].
  exact (iterative_counts_decrease _ 0 Hwf).
Defined.

Lemma placed_subseteq index minGroupSize st :
  iterativeInv index minGroupSize st → placed (finalSelections st) ⊆ allOf index.
Proof.
  intros [Hent _ _] u. rewrite elem_of_placed, elem_of_allOf.
  intros (r & Hr & Hu). rewrite Forall_forall in Hent.
  destruct (Hent r Hr) as (_ & _ & _ & v & Hv & Hsub). eauto.
Qed.

(** When no slot lists a student twice, the running total is the number
    of students placed so far. *)
Lemma iterative_total_placed index minGroupSize :
  Forall (λ e, NoDup e.2) index →
  ∃ st,
    selectIterative index minGroupSize = Returned st
    ∧ iterativeInv index minGroupSize st
    ∧ totalStudents st = size (placed (finalSelections st)).
Proof.
  intros Hnd.
  destruct (selectIterative_spec index minGroupSize) as (st & Hsel & Hinv & _).
  exists st. split_and!; try done.
  pose proof (iterativeLoop_invariant
                (λ st, iterativeInv index minGroupSize st
                       ∧ totalStudents st = size (placed (finalSelections st)))
                index minGroupSize) as Hind.
  eapply Hind; [| |exact Hsel].
  - intros st0 st1 [Hi Ht] Hround. split; [by eapply iterativeInv_round|].
    destruct Hi as [_ Hrem _].
    apply iterativeRound_Continue in Hround
      as (k & v & Hfm & _ & _ & Hsel1 & _ & Htot). simpl in *.
    rewrite Htot, Hsel1, placed_snoc, Ht. simpl.
    rewrite size_union.
    + f_equal. rewrite size_list_to_set; [done|].
      apply NoDup_filter. rewrite Forall_forall in Hnd.
      apply (Hnd (k, v)). by eapply firstMax_elem_of.
    + intros u Hp Hs. apply elem_of_list_to_set, list_elem_of_filter in Hs as [Hs _].
      rewrite Hrem in Hs. set_solver.
  - split; [apply iterativeInv_init | done].
Qed.

(** X3. Nobody is counted twice or lost by the iterative selector: when
    no slot lists a student twice, the students it counts as selected
    and the students left in [remaining] add up to the students of the
    index, and the "Total Students" cell F2 holds the number of excluded
    students handed in plus the number of students placed. *)
Theorem iterative_total_conserved (index : JsObject.t) (minGroupSize : Z)
    (sheetName : string) (virtualStudents excludedStudents : list string)
    (ss : gmap string Sheet.t) :
  Forall (λ e, NoDup e.2) index →
  ∃ st ss' sheet,
    selectIterative index minGroupSize = Returned st
    ∧ totalStudents st = size (placed (finalSelections st))
    ∧ totalStudents st + size (remainingStudents st) = size (allOf index)
    ∧ getIterativeTimeSlots index minGroupSize sheetName virtualStudents
        excludedStudents ss = Returned ss'
    ∧ ss' !! sheetName = Some sheet
    ∧ Sheet.getValue Sheet.F2.1 Sheet.F2.2 sheet
      = Num (Z.of_nat (length excludedStudents + size (placed (finalSelections st)))).
Proof.
  intros Hnd.
  destruct (iterative_total_placed index minGroupSize Hnd) as (st & Hsel & Hinv & Htot).
  pose proof (placed_subseteq _ _ _ Hinv) as Hsub.
  destruct (writeIterative_cells st excludedStudents (getOrInsertSheet ss sheetName))
    as (_ & _ & HF).
  eexists st, _, _. split_and!; [done|done| | | |].
  - destruct Hinv as [_ Hrem _]. rewrite Htot, Hrem, size_difference by done.
    apply subseteq_size in Hsub. lia.
  - unfold getIterativeTimeSlots. by rewrite Hsel.
  - apply lookup_insert_eq.
  - by rewrite <- Htot.
Qed.

Lemma iterative_total_conserved_witness :
  let index := [("A", ["p1"; "p2"; "p3"]); ("B", ["p3"; "p4"]); ("C", ["p5"])] in
  Forall (λ e : string * list string, NoDup e.2) index ∧
  ∃ st ss' sheet,
    selectIterative index 2 = Returned st
    ∧ totalStudents st = size (placed (finalSelections st))
    ∧ totalStudents st + size (remainingStudents st) = size (allOf index)
    ∧ getIterativeTimeSlots index 2 "out" [] ["q"] ∅ = Returned ss'
    ∧ ss' !! "out" = Some sheet
    ∧ Sheet.getValue Sheet.F2.1 Sheet.F2.2 sheet
      = Num (Z.of_nat (length ["q"] + size (placed (finalSelections st)))).
Proof.
  assert (Forall (λ e : string * list string, NoDup e.2)
            [("A", ["p1"; "p2"; "p3"]); ("B", ["p3"; "p4"]); ("C", ["p5"])]) as Hnd.
  { repeat constructor; simpl; set_solver. }
  split; [exact Hnd|].
  exact (iterative_total_conserved _ 2 "out" [] ["q"] ∅ Hnd).
Defined.

(** With a minimum of 1 or less the loop is left only when no student
    remains. *)
Lemma selectIterative_le_one_all index minGroupSize st :
  (minGroupSize ≤ 1)%Z →
  selectIterative index minGroupSize = Returned st →
  remainingStudents st = ∅.
Proof.
  intros Hmin Hsel.
  destruct (selectIterative_spec index minGroupSize) as (st' & Hsel' & [_ Hrem _] & Hstop).
  assert (st' = st) as -> by congruence.
  apply set_eq. intros u. split; [|set_solver]. intros Hu.
  assert (u ∈ allOf index) as Hall by (rewrite Hrem in Hu; set_solver).
  apply elem_of_allOf in Hall as (k & v & He & Huv).
  assert (0 < filteredSize (remainingStudents st) (k, v)) as Hpos.
  { unfold filteredSize. simpl.
    assert (u ∈ filter (λ email, email ∈ remainingStudents st) v) as Hin
      by (by apply list_elem_of_filter).
    destruct (filter _ v); [by apply elem_of_nil in Hin | simpl; lia]. }
  destruct Hstop as [Hs|[Hs|Hs]].
  - assert (size (remainingStudents st) = 0) as Hz by lia.
    apply size_empty_iff in Hz. set_solver.
  - specialize (Hs _ He). lia.
  - specialize (Hs _ He). lia.
Qed.

(** X4. With a minimum group size of 1 or less (as in [main], which
    passes 0) the iterative selector places everybody: every student of
    the index is listed by exactly one entry of the selection. *)
Theorem iterative_small_minimum_covers (index : JsObject.t) (minGroupSize : Z) :
  JsObject.wf index → (minGroupSize ≤ 1)%Z →
  ∃ st,
    selectIterative index minGroupSize = Returned st
    ∧ remainingStudents st = ∅
    ∧ (∀ u, (∃ k v, (k, v) ∈ index ∧ u ∈ v)
            ↔ ∃ r, r ∈ finalSelections st ∧ u ∈ r.1.2)
    ∧ disjointSelections (finalSelections st).
Proof.
  intros Hwf Hmin.
  destruct (selectIterative_order index minGroupSize Hwf)
    as (st & Hsel & Hinv & _ & [Hdis _ _ _ _]).
  pose proof (selectIterative_le_one_all _ _ _ Hmin Hsel) as Hempty.
  pose proof (placed_subseteq _ _ _ Hinv) as Hsub.
  exists st. split_and!; try done.
  intros u. rewrite <- elem_of_allOf, <- elem_of_placed.
  destruct Hinv as [_ Hrem _]. rewrite Hempty in Hrem.
  split; [|by apply Hsub]. intros Hu.
  destruct (decide (u ∈ placed (finalSelections st))) as [|Hn]; [done|].
  assert (u ∈ allOf index ∖ placed (finalSelections st)) as Habs by set_solver.
  rewrite <- Hrem in Habs. set_solver.
Qed.

Lemma iterative_small_minimum_covers_witness :
  let index := [("A", ["p1"; "p2"]); ("B", ["p2"; "p3"; "p4"]); ("C", ["p5"])] in
  JsObject.wf index ∧ (0 ≤ 1)%Z ∧
  ∃ st,
    selectIterative index 0 = Returned st
    ∧ remainingStudents st = ∅
    ∧ (∀ u, (∃ k v, (k, v) ∈ index ∧ u ∈ v)
            ↔ ∃ r, r ∈ finalSelections st ∧ u ∈ r.1.2)
    ∧ disjointSelections (finalSelections st).
Proof.
  assert (JsObject.wf [("A", ["p1"; "p2"]); ("B", ["p2"; "p3"; "p4"]); ("C", ["p5"])])
    as Hwf by solve_wf.
  assert (0 ≤ 1)%Z as Hmin by lia.
  split; [exact Hwf|]. split; [exact Hmin|].
  exact (iterative_small_minimum_covers _ 0 Hwf Hmin).
Defined.

(** ** The minimum-cover selector, further *)

Lemma minCoverLoop_invariant (P : MinCover → Prop) (allStudents : gset string) :
  (∀ st st', P st → size (studentsCovered st) < size allStudents →
             minCoverRound st = Returned st' → P st') →
  ∀ fuel st st', P st → minCoverLoop fuel allStudents st = Returned st' → P st'.
Proof.
  intros Hstep fuel. induction fuel as [|fuel IH]; intros st st' HP; simpl.
  - case_decide; [done|]. by intros [= <-].
  - case_decide; [|by intros [= <-]].
    destruct (minCoverRound st) as [st1| |] eqn:Hround; [|done..].
    apply IH. by eapply Hstep.
Qed.

Lemma newCoverage_empty e : newCoverage ∅ e = length e.2.
Proof. unfold newCoverage. by rewrite filter_not_in_empty. Qed.

Lemma firstMax_ext {A : Type} (key key' : A → nat) x (l : list A) :
  (∀ y, key y = key' y) → firstMax key x l → firstMax key' x l.
Proof.
  intros Hext (l1 & l2 & -> & H1 & H2). exists l1, l2. split_and!; [done| |].
  - eapply Forall_impl; [exact H1|]. intros y. simpl. rewrite !Hext. done.
  - eapply Forall_impl; [exact H2|]. intros y. simpl. rewrite !Hext. done.
Qed.

(** The first pass on an index that has a student, and what the call
    returns after it. *)
Lemma getMinimumTimeSlots_first index :
  JsObject.wf index → allOf index ≠ ∅ →
  ∃ k v st1 st,
    firstMax (λ e, length e.2) (k, v) index
    ∧ minCoverRound (minCoverInit index) = Returned st1
    ∧ selectedSlots st1 = [(k, v)]
    ∧ studentsCovered st1 = list_to_set v
    ∧ filteredSlots st1 = JsObject.delete index k
    ∧ minCoverInv index st1
    ∧ minCoverLoop (pred (size (allOf index))) (allOf index) st1 = Returned st
    ∧ getMinimumTimeSlots index = Returned (selectedSlots st, filteredSlots st)
    ∧ ∃ more, selectedSlots st = (k, v) :: more.
Proof.
  intros Hwf Hne.
  assert (0 < size (allOf index)) as Hpos.
  { destruct (size (allOf index)) eqn:Hsz; [|lia].
    apply size_empty_iff in Hsz. by apply leibniz_equiv in Hsz. }
  assert (size (studentsCovered (minCoverInit index)) < size (allOf index)) as Hlt
    by (unfold minCoverInit; cbn [studentsCovered]; by rewrite size_empty).
  destruct (minCoverRound_spec index (minCoverInit index) Hwf (minCoverInv_init index) Hlt)
    as (k & v & others & st1 & Hs & Hfm & _ & Hround & Hsel & Hsz & Hinv1).
  unfold minCoverInit in Hsel, Hfm, Hsz; cbn [studentsCovered selectedSlots filteredSlots app] in Hsel, Hfm, Hsz.
  assert (studentsCovered st1 = list_to_set v
          ∧ filteredSlots st1 = JsObject.delete index k) as [Hcov Hfil].
  { unfold minCoverRound in Hround. rewrite Hs in Hround. injection Hround as <-.
    unfold minCoverInit. cbn [studentsCovered filteredSlots]. split; [set_solver|done]. }
  destruct (minCoverLoop_spec index (pred (size (allOf index))) st1 Hwf Hinv1)
    as (n & st & Hn & Hret & _); [rewrite size_empty in Hsz; lia|].
  pose proof (Hret _ Hn) as Hloop.
  exists k, v, st1, st. split_and!; try done.
  - eapply firstMax_ext; [|exact Hfm]. intros e. apply newCoverage_empty.
  - unfold getMinimumTimeSlots. destruct (size (allOf index)) as [|m] eqn:Hm; [lia|].
    cbn [minCoverLoop]. rewrite decide_True by (rewrite Hm; exact Hlt).
    rewrite Hround. simpl in Hloop. by rewrite Hloop.
  - pose proof (minCoverLoop_invariant
                  (λ st, minCoverInv index st ∧ ∃ more, selectedSlots st = (k, v) :: more)
                  (allOf index)) as Hind.
    eapply Hind; [| |exact Hloop].
    + intros st0 st0' [Hinv0 [more Hmore]] Hlt0 Hround0.
      destruct (minCoverRound_spec index st0 Hwf Hinv0 Hlt0)
        as (k' & v' & _ & st2 & _ & _ & _ & Hround2 & Hsel2 & _ & Hinv2).
      assert (st2 = st0') as -> by congruence.
      split; [done|]. exists (more ++ [(k', v')]). by rewrite Hsel2, Hmore.
    + split; [done|]. by exists [].
Qed.

(** X5. The most populated slot is always taken, and taken first: on an
    index that has a student, the selection of [getMinimumTimeSlots]
    starts with the first slot of the index whose list is longest. *)
Theorem min_cover_largest_first (index : JsObject.t) :
  JsObject.wf index → allOf index ≠ ∅ →
  ∃ k v more rest,
    getMinimumTimeSlots index = Returned ((k, v) :: more, rest)
    ∧ firstMax (λ e, length e.2) (k, v) index.
Proof.
  intros Hwf Hne.
  destruct (getMinimumTimeSlots_first index Hwf Hne)
    as (k & v & st1 & st & Hfm & _ & _ & _ & _ & _ & _ & Hcall & more & Hmore).
  exists k, v, more, (filteredSlots st). by rewrite Hcall, Hmore.
Qed.

Lemma min_cover_largest_first_witness :
  let index := [("A", ["p1"]); ("B", ["p2"; "p3"]); ("C", ["p3"; "p4"])] in
  JsObject.wf index ∧ allOf index ≠ ∅ ∧
  ∃ k v more rest,
    getMinimumTimeSlots index = Returned ((k, v) :: more, rest)
    ∧ firstMax (λ e, length e.2) (k, v) index.
Proof.
  assert (JsObject.wf [("A", ["p1"]); ("B", ["p2"; "p3"]); ("C", ["p3"; "p4"])])
    as Hwf by solve_wf.
  assert (allOf [("A", ["p1"]); ("B", ["p2"; "p3"]); ("C", ["p3"; "p4"])] ≠ ∅) as Hne.
  { intros Habs. assert ("p1" ∈ (∅ : gset string)) as Hin; [|set_solver].
    rewrite <- Habs. apply elem_of_allOf. exists "A", ["p1"]. set_solver. }
  split; [exact Hwf|]. split; [exact Hne|].
  exact (min_cover_largest_first _ Hwf Hne).
Defined.

(** X6. One slot that lists everybody is enough: when no slot lists a
    student twice and some slot lists every student of the index, the
    selection of [getMinimumTimeSlots] is a single slot, the first of
    the longest ones, and it lists every student; the other slots are
    what is left of the index. *)
Theorem min_cover_single_slot (index : JsObject.t) ks vs :
  JsObject.wf index → Forall (λ e, NoDup e.2) index →
  (ks, vs) ∈ index → (∀ u, u ∈ allOf index → u ∈ vs) → vs ≠ [] →
  ∃ k v,
    getMinimumTimeSlots index = Returned ([(k, v)], JsObject.delete index k)
    ∧ firstMax (λ e, length e.2) (k, v) index
    ∧ list_to_set v = allOf index.
Proof.
  intros Hwf Hnd Hin Hall Hvs.
  assert (allOf index ≠ ∅) as Hne.
  { destruct vs as [|u vs']; [done|]. intros Habs.
    assert (u ∈ (∅ : gset string)) as Hu; [|set_solver].
    rewrite <- Habs. apply elem_of_allOf. exists ks, (u :: vs'). set_solver. }
  destruct (getMinimumTimeSlots_first index Hwf Hne)
    as (k & v & st1 & st & Hfm & _ & Hsel & Hcov & Hfil & _ & Hloop & Hcall & _).
  assert ((k, v) ∈ index) as Hkv by (by eapply firstMax_elem_of).
  rewrite Forall_forall in Hnd.
  assert (list_to_set v = allOf index) as Heq.
  { apply set_subseteq_size_eq.
    - intros u Hu. apply elem_of_list_to_set in Hu. apply elem_of_allOf. eauto.
    - rewrite size_list_to_set by apply (Hnd _ Hkv).
      pose proof (firstMax_ge _ _ _ _ Hfm Hin) as Hle. simpl in Hle.
      assert (size (allOf index) ≤ size (list_to_set vs : gset string)) as Hsz.
      { apply subseteq_size. intros u Hu. apply elem_of_list_to_set. by apply Hall. }
      rewrite size_list_to_set in Hsz by apply (Hnd _ Hin). lia. }
  assert (st = st1) as ->.
  { assert (minCoverLoop (pred (size (allOf index))) (allOf index) st1 = Returned st1) as Hst.
    { destruct (pred (size (allOf index))); simpl;
        rewrite decide_False; try done; rewrite Hcov, Heq; lia. }
    congruence. }
  exists k, v. split_and!; [|done..]. by rewrite Hcall, Hsel, Hfil.
Qed.

Lemma min_cover_single_slot_witness :
  let index := [("A", ["p1"; "p2"]); ("B", ["p3"; "p1"; "p2"]); ("C", ["p3"])] in
  JsObject.wf index ∧ Forall (λ e : string * list string, NoDup e.2) index
  ∧ ("B", ["p3"; "p1"; "p2"]) ∈ index
  ∧ (∀ u, u ∈ allOf index → u ∈ ["p3"; "p1"; "p2"])
  ∧ ["p3"; "p1"; "p2"] ≠ []
  ∧ ∃ k v,
      getMinimumTimeSlots index = Returned ([(k, v)], JsObject.delete index k)
      ∧ firstMax (λ e, length e.2) (k, v) index
      ∧ list_to_set v = allOf index.
Proof.
  assert (JsObject.wf [("A", ["p1"; "p2"]); ("B", ["p3"; "p1"; "p2"]); ("C", ["p3"])])
    as Hwf by solve_wf.
  assert (Forall (λ e : string * list string, NoDup e.2)
            [("A", ["p1"; "p2"]); ("B", ["p3"; "p1"; "p2"]); ("C", ["p3"])]) as Hnd.
  { repeat constructor; simpl; set_solver. }
  assert (("B", ["p3"; "p1"; "p2"])
          ∈ [("A", ["p1"; "p2"]); ("B", ["p3"; "p1"; "p2"]); ("C", ["p3"])]) as Hin
    by set_solver.
  assert (∀ u, u ∈ allOf [("A", ["p1"; "p2"]); ("B", ["p3"; "p1"; "p2"]); ("C", ["p3"])]
               → u ∈ ["p3"; "p1"; "p2"]) as Hall.
  { intros u Hu. apply elem_of_allOf in Hu as (k & v & He & Hu).
    rewrite !elem_of_cons, elem_of_nil in He.
    destruct He as [He|[He|[He|[]]]]; injection He as -> ->; set_solver. }
  assert (["p3"; "p1"; "p2"] ≠ []) as Hvs by discriminate.
  split_and!; [exact Hwf|exact Hnd|exact Hin|exact Hall|exact Hvs|].
  exact (min_cover_single_slot _ _ _ Hwf Hnd Hin Hall Hvs).
Defined.

(** X7. No slot is lost or doubled by [getMinimumTimeSlots]: the
    selection and what is left of the caller's index are, together, the
    slots of the index, each once; the labels of the selection are
    distinct. *)
Theorem min_cover_partitions_index (index : JsObject.t) :
  JsObject.wf index →
  ∃ selected rest,
    getMinimumTimeSlots index = Returned (selected, rest)
    ∧ selected ++ rest ≡ₚ index
    ∧ JsObject.wf selected
    ∧ JsObject.wf rest
    ∧ length selected + length rest = length index.
Proof.
  intros Hwf.
  destruct (getMinimumTimeSlots_spec index Hwf)
    as (n & st & _ & _ & _ & _ & Hcall & [Hsub Hswf Hfil _ _] & _).
  assert (selectedSlots st ++ filteredSlots st ≡ₚ index) as Hperm.
  { apply NoDup_Permutation.
    - apply NoDup_app. split_and!.
      + by apply (NoDup_fmap_1 fst).
      + intros e He Hr. rewrite Hfil in Hr. apply list_elem_of_filter in Hr as [Hr _].
        apply Hr. by apply list_elem_of_fmap_2.
      + rewrite Hfil. apply NoDup_filter. by apply (NoDup_fmap_1 fst).
    - by apply (NoDup_fmap_1 fst).
    - intros e. rewrite elem_of_app, Hfil, list_elem_of_filter. split.
      + intros [He|[_ He]]; [by apply Hsub|done].
      + intros He. destruct (decide (e.1 ∈ JsObject.keys (selectedSlots st))) as [Hk|Hk];
          [left|by right].
        apply list_elem_of_fmap in Hk as ([k' v'] & Hkk & Hin'). simpl in Hkk.
        destruct e as [k v]. simpl in *. subst k'.
        by rewrite (wf_functional index k v v' Hwf He (Hsub _ Hin')). }
  exists (selectedSlots st), (filteredSlots st). split_and!; try done.
  - rewrite Hfil. by apply filter_wf.
  - by rewrite <- length_app, Hperm.
Qed.

Lemma min_cover_partitions_index_witness :
  let index := [("A", ["p1"]); ("B", ["p3"; "p4"]); ("C", ["p1"; "p5"])] in
  JsObject.wf index ∧
  ∃ selected rest,
    getMinimumTimeSlots index = Returned (selected, rest)
    ∧ selected ++ rest ≡ₚ index
    ∧ JsObject.wf selected
    ∧ JsObject.wf rest
    ∧ length selected + length rest = length index.
Proof.
  assert (JsObject.wf [("A", ["p1"]); ("B", ["p3"; "p4"]); ("C", ["p1"; "p5"])]) as Hwf
    by solve_wf.
  split; [exact Hwf|].
  exact (min_cover_partitions_index _ Hwf).
Defined.

(** ** The index builder, further *)

Lemma set_Forall (P : string * list string → Prop) (o : JsObject.t) k v :
  Forall P o → P (k, v) → Forall P (JsObject.set o k v).
Proof.
  intros Ho Hkv. induction Ho as [|[k' v'] o Hk' Ho IH]; simpl.
  - by constructor.
  - case_decide as Hk; [subst k'|]; by constructor.
Qed.

Lemma pushEmail_Forall (P : string * list string → Prop) slots key email :
  Forall P slots → P (key, [email]) → (∀ l, P (key, l) → P (key, l ++ [email])) →
  Forall P (pushEmail slots key email).
Proof.
  intros Hs Hnew Hpush. unfold pushEmail.
  destruct (JsObject.get slots key) as [l|] eqn:Hget; apply set_Forall; try done.
  apply Hpush. rewrite Forall_forall in Hs. by apply Hs, get_Some_elem_of.
Qed.

Lemma addRow_Forall (P : string * list string → Prop) row email slots :
  Forall P slots →
  (∀ index s token,
     index ∈ availabilityIndices → row !! index = Some s → s ≠ "" →
     token ∈ split "," s →
     P (slotKey index (trim token), [email])
     ∧ ∀ l, P (slotKey index (trim token), l) → P (slotKey index (trim token), l ++ [email])) →
  Forall P (addRow row email slots).
Proof.
  intros Hs Hstep. unfold addRow. revert slots Hs Hstep.
  induction availabilityIndices as [|i indices IH]; intros slots Hs Hstep; simpl; [done|].
  apply IH.
  - unfold addColumn. destruct (row !! i) as [s|] eqn:Hrow; [|done].
    case_decide as Hne; [done|].
    assert (∀ token, token ∈ map trim (split "," s) →
              P (slotKey i token, [email])
              ∧ ∀ l, P (slotKey i token, l) → P (slotKey i token, l ++ [email])) as Htok.
    { intros token Ht. apply list_elem_of_fmap in Ht as (piece & -> & Hp).
      apply (Hstep i s piece); [left|done..]. }
    revert slots Hs Htok. generalize (map trim (split "," s)).
    intros tokens. induction tokens as [|t tokens IHt]; intros slots Hs Htok; simpl; [done|].
    apply IHt; [|intros token Ht; apply Htok; by right].
    destruct (Htok t) as [Hnew Hpush]; [left|]. by apply pushEmail_Forall.
  - intros index s token Hi. apply Hstep. by right.
Qed.

(** Every slot of the index built for [emails] lists at least one
    student, and lists only students of [emails] whose row says so. *)
Lemma availableSlotsForEmails_sound data emails :
  Forall (λ e, e.2 ≠ [] ∧ ∀ u, u ∈ e.2 → u ∈ emails ∧ rowSays (drop 1 data) e.1 u)
         (availableSlotsForEmails data emails).
Proof.
  unfold availableSlotsForEmails.
  set (P := λ e : string * list string,
              e.2 ≠ [] ∧ ∀ u, u ∈ e.2 → u ∈ emails ∧ rowSays (drop 1 data) e.1 u).
  assert (∀ rows slots, rows ⊆ drop 1 data → Forall P slots →
            Forall P (foldl (λ slots row,
                        match row !! emailIndex with
                        | Some email =>
                            if decide (email ∈ emails) then addRow row email slots else slots
                        | None => slots
                        end) slots rows)) as Hfold.
  { intros rows. induction rows as [|row rows IH]; intros slots Hsub Hs; simpl; [done|].
    apply IH; [set_solver|].
    destruct (row !! emailIndex) as [email|] eqn:Hemail; [|done].
    case_decide as Hin; [|done].
    apply addRow_Forall; [done|].
    intros index s token Hi Hrow Hne Ht.
    assert (rowSays (drop 1 data) (slotKey index (trim token)) email) as Hsays.
    { exists row, index, s, token. split_and!; try done. apply Hsub. left. }
    split.
    - split; [done|]. simpl. intros u Hu. apply list_elem_of_singleton in Hu as ->. done.
    - intros l [Hl Hall]. split; [by destruct l|]. simpl in *. intros u Hu.
      apply elem_of_app in Hu as [Hu|Hu]; [by apply Hall|].
      apply list_elem_of_singleton in Hu as ->. done. }
  apply Hfold; [done|constructor].
Qed.

Lemma slotKey_dayLabel index slot :
  index ∈ availabilityIndices → dayLabel (slotKey index slot).
Proof.
  intros Hi. unfold availabilityIndices in Hi.
  repeat (apply elem_of_cons in Hi as [->|Hi]);
    [eexists _, slot; (split; [|reflexivity]); unfold days; set_solver..|].
  by apply elem_of_nil in Hi.
Qed.

Lemma findAvailableSlotsForEmails_wf data emails thresh :
  JsObject.wf (findAvailableSlotsForEmails data emails thresh).1.
Proof.
  unfold findAvailableSlotsForEmails. simpl.
  pose proof (availableSlotsForEmails_wf data emails) as Hwf.
  rewrite filterSlots_wf by done. by apply filter_wf.
Qed.

Lemma findAvailableSlotsForEmails_sound data emails thresh :
  Forall (λ e, (thresh ≤ Z.of_nat (length e.2))%Z ∧ e.2 ≠ [] ∧ dayLabel e.1
               ∧ ∀ u, u ∈ e.2 → u ∈ emails ∧ rowSays (drop 1 data) e.1 u)
         (findAvailableSlotsForEmails data emails thresh).1.
Proof.
  unfold findAvailableSlotsForEmails. simpl.
  pose proof (availableSlotsForEmails_wf data emails) as Hwf.
  rewrite filterSlots_wf by done.
  apply Forall_forall. intros e He. apply list_elem_of_filter in He as [Hth He].
  pose proof (availableSlotsForEmails_sound data emails) as Hs.
  rewrite Forall_forall in Hs. destruct (Hs e He) as [Hne Hall].
  split_and!; try done.
  destruct e as [k [|u l]]; [done|]. simpl in *.
  destruct (Hall u) as (_ & row & index & s & token & _ & _ & Hi & _ & _ & _ & ->); [left|].
  by apply slotKey_dayLabel.
Qed.

(** X8. What [findAvailableSlotsForEmails] returns: the labels of the
    index are distinct; every slot of it has at least [thresh] students
    and at least one; its label is a day name, a space and a token; and
    a student is listed under a label only if the student is one of
    [emails] and a row after the header, with that email, has for that
    day a non-empty value one of whose comma-separated pieces, trimmed,
    is the token. *)
Theorem builder_index_sound (data : list (list string)) (emails : list string)
    (thresh : Z) :
  let index := (findAvailableSlotsForEmails data emails thresh).1 in
  JsObject.wf index
  ∧ Forall (λ e, (thresh ≤ Z.of_nat (length e.2))%Z ∧ e.2 ≠ [] ∧ dayLabel e.1
                 ∧ ∀ u, u ∈ e.2 → u ∈ emails ∧ rowSays (drop 1 data) e.1 u)
           index.
Proof.
  intros index. split.
  - apply findAvailableSlotsForEmails_wf.
  - apply findAvailableSlotsForEmails_sound.
Qed.

Lemma filter_sublist_impl {A : Type} (P Q : A → Prop)
    `{!∀ x, Decision (P x)} `{!∀ x, Decision (Q x)} (l : list A) :
  (∀ x, P x → Q x) → filter P l `sublist_of` filter Q l.
Proof.
  intros Himpl. induction l as [|x l IH]; [done|].
  rewrite !filter_cons. destruct (decide (P x)) as [HP|HP].
  - rewrite decide_True by auto. by apply sublist_skip.
  - destruct (decide (Q x)); [by apply sublist_cons|done].
Qed.

(** The excluded students are the given emails that no returned slot
    lists, in the order given. *)
Lemma builder_excluded_partition (data : list (list string)) (emails : list string)
    (thresh : Z) :
  let index := (findAvailableSlotsForEmails data emails thresh).1 in
  let excluded := (findAvailableSlotsForEmails data emails thresh).2 in
  excluded `sublist_of` emails
  ∧ (∀ u, u ∈ excluded ↔ u ∈ emails ∧ ¬ ∃ k v, (k, v) ∈ index ∧ u ∈ v)
  ∧ (∀ u, u ∈ emails → u ∈ excluded ∨ ∃ k v, (k, v) ∈ index ∧ u ∈ v).
Proof.
  unfold findAvailableSlotsForEmails. simpl. split_and!.
  - apply sublist_filter.
  - intros u. rewrite list_elem_of_filter, elem_of_allOf. tauto.
  - intros u Hu.
    destruct (decide (u ∈ allOf (filterSlots (availableSlotsForEmails data emails) thresh)))
      as [Hin|Hin].
    + right. by apply elem_of_allOf.
    + left. by apply list_elem_of_filter.
Qed.

(** X9. Raising the threshold only removes slots and only adds excluded
    students: for [thresh1 ≤ thresh2] the index returned for [thresh2]
    is a sub-list of the one for [thresh1], and the excluded students
    for [thresh1] are a sub-list of those for [thresh2].  A threshold of
    1 or less removes no slot. *)
Theorem builder_threshold_monotone (data : list (list string)) (emails : list string)
    (thresh1 thresh2 : Z) :
  (thresh1 ≤ thresh2)%Z →
  (findAvailableSlotsForEmails data emails thresh2).1
    `sublist_of` (findAvailableSlotsForEmails data emails thresh1).1
  ∧ (findAvailableSlotsForEmails data emails thresh1).2
    `sublist_of` (findAvailableSlotsForEmails data emails thresh2).2
  ∧ ((thresh1 ≤ 1)%Z →
     (findAvailableSlotsForEmails data emails thresh1).1
     = availableSlotsForEmails data emails).
Proof.
  intros Hle. unfold findAvailableSlotsForEmails. simpl.
  pose proof (availableSlotsForEmails_wf data emails) as Hwf.
  rewrite !filterSlots_wf by done.
  assert (filter (λ e : string * list string, (thresh2 ≤ Z.of_nat (length e.2))%Z)
            (availableSlotsForEmails data emails)
          `sublist_of`
          filter (λ e : string * list string, (thresh1 ≤ Z.of_nat (length e.2))%Z)
            (availableSlotsForEmails data emails)) as Hsub.
  { apply filter_sublist_impl. intros e. lia. }
  split_and!; [done| |].
  - apply filter_sublist_impl. intros u Hu Hin. apply Hu.
    apply elem_of_allOf in Hin as (k & v & He & Hv). apply elem_of_allOf.
    exists k, v. split; [|done]. by eapply sublist_subseteq.
  - intros H1. pose proof (availableSlotsForEmails_sound data emails) as Hs.
    clear Hwf Hsub.
    induction Hs as [|e l [Hne _] _ IH]; [done|].
    rewrite filter_cons_True; [by rewrite IH|].
    destruct e as [k [|u v]]; [done|]. simpl. lia.
Qed.

Lemma builder_threshold_monotone_witness :
  let data := [["Timestamp"; "Email"; "Name"; "Year"; "Track";
                "Mon"; "Tue"; "Wed"; "Thu"; "Fri"; "Sat"; "Sun"];
               ["1/1"; "a@x.edu"; "A"; "1"; "SEARCH"; "10am, 11am"; ""; ""; ""; ""; ""; ""];
               ["1/2"; "b@x.edu"; "B"; "1"; "SEARCH"; "10am"; "9am"; ""; ""; ""; ""; ""]] in
  let emails := ["a@x.edu"; "b@x.edu"] in
  (1 ≤ 2)%Z
  ∧ (findAvailableSlotsForEmails data emails 2).1
      `sublist_of` (findAvailableSlotsForEmails data emails 1).1
  ∧ (findAvailableSlotsForEmails data emails 1).2
      `sublist_of` (findAvailableSlotsForEmails data emails 2).2
  ∧ ((1 ≤ 1)%Z →
     (findAvailableSlotsForEmails data emails 1).1 = availableSlotsForEmails data emails).
Proof.
  intros data emails.
  assert (1 ≤ 2)%Z as Hle by lia.
  split; [exact Hle|].
  exact (builder_threshold_monotone data emails 1 2 Hle).
Defined.

(** ** The readers *)

Lemma filter_sublist_mono {A : Type} (P : A → Prop) `{!∀ x, Decision (P x)}
    (l1 l2 : list A) :
  l1 `sublist_of` l2 → filter P l1 `sublist_of` filter P l2.
Proof.
  induction 1 as [|x l1 l2 _ IH|x l1 l2 _ IH]; [done|..]; rewrite !filter_cons.
  - destruct (decide (P x)); [by apply sublist_skip|done].
  - destruct (decide (P x)); [by apply sublist_cons|done].
Qed.

Lemma strings_sublist (l1 l2 : list (option string)) :
  l1 `sublist_of` l2 → strings l1 `sublist_of` strings l2.
Proof.
  unfold strings. induction 1 as [|x l1 l2 _ IH|x l1 l2 _ IH]; simpl; [done|..].
  - destruct x; simpl; [by apply sublist_skip|done].
  - destruct x; simpl; [by apply sublist_cons|done].
Qed.

Lemma elem_of_strings_truthy (l : list (option string)) u :
  u ∈ strings (filter (λ v, truthy v) l) ↔ Some u ∈ l ∧ u ≠ "".
Proof.
  unfold strings. rewrite list_elem_of_omap. split.
  - intros (v & Hv & Hid). apply list_elem_of_filter in Hv as [Ht Hv].
    destruct v as [s|]; simplify_eq/=. split; [done|]. by apply bool_decide_unpack in Ht.
  - intros [Hin Hne]. exists (Some u). split; [|done].
    apply list_elem_of_filter. split; [|done]. simpl. by apply bool_decide_pack.
Qed.

Lemma getEmailsWithCondition_sublist vals sheetName columnIndex conditionColumnIndex :
  getEmailsWithCondition vals sheetName columnIndex conditionColumnIndex
    `sublist_of` getEmailsFromSheet vals sheetName columnIndex.
Proof.
  unfold getEmailsFromSheet, getEmailsWithCondition.
  destruct (vals !! sheetName) as [data|]; [|done].
  apply strings_sublist, filter_sublist_mono, fmap_sublist, sublist_filter.
Qed.

(** X10. [getEmailsFromSheet] and [getEmailsWithCondition] skip the
    header row and every empty cell; a sheet that does not exist gives
    no email.  What they return are the non-empty cells of the email
    column in the rows after the header (for [getEmailsWithCondition]:
    in those rows whose condition cell is exactly "Yes"), so the
    students with the condition are, in order, among the students of the
    sheet. *)
Theorem readers_skip_empty (vals : gmap string (list (list string)))
    (sheetName : string) (columnIndex conditionColumnIndex : nat) :
  (vals !! sheetName = None →
     getEmailsFromSheet vals sheetName columnIndex = []
     ∧ getEmailsWithCondition vals sheetName columnIndex conditionColumnIndex = [])
  ∧ (∀ data u,
       vals !! sheetName = Some data →
       (u ∈ getEmailsFromSheet vals sheetName columnIndex
        ↔ u ≠ "" ∧ ∃ row, row ∈ drop 1 data ∧ row !! columnIndex = Some u)
       ∧ (u ∈ getEmailsWithCondition vals sheetName columnIndex conditionColumnIndex
          ↔ u ≠ "" ∧ ∃ row, row ∈ drop 1 data ∧ row !! columnIndex = Some u
                            ∧ row !! conditionColumnIndex = Some "Yes"))
  ∧ getEmailsWithCondition vals sheetName columnIndex conditionColumnIndex
      `sublist_of` getEmailsFromSheet vals sheetName columnIndex.
Proof.
  split_and!; [| |apply getEmailsWithCondition_sublist];
    unfold getEmailsFromSheet, getEmailsWithCondition.
  - by intros ->.
  - intros data u ->. rewrite !elem_of_strings_truthy. split.
    + rewrite list_elem_of_fmap. naive_solver.
    + rewrite list_elem_of_fmap. setoid_rewrite list_elem_of_filter. naive_solver.
Qed.

Lemma readers_skip_empty_witness :
  let responses := [["Email"; "Virtual"]; ["a@x.edu"; "Yes"]; [""; "Yes"];
                    ["b@x.edu"; "No"]; ["c@x.edu"; "yes"]] in
  let vals : gmap string (list (list string)) := {["responses" := responses]} in
  (vals !! "missing" = None →
     getEmailsFromSheet vals "missing" 0 = []
     ∧ getEmailsWithCondition vals "missing" 0 1 = [])
  ∧ getEmailsFromSheet vals "responses" 0 = ["a@x.edu"; "b@x.edu"; "c@x.edu"]
  ∧ getEmailsWithCondition vals "responses" 0 1 = ["a@x.edu"]
  ∧ ("a@x.edu" ∈ getEmailsWithCondition vals "responses" 0 1
     ↔ "a@x.edu" ≠ "" ∧ ∃ row, row ∈ drop 1 responses ∧ row !! 0 = Some "a@x.edu"
                               ∧ row !! 1 = Some "Yes").
Proof.
  intros responses vals.
  pose proof (readers_skip_empty vals "missing" 0 1) as (Hmissing & _ & _).
  pose proof (readers_skip_empty vals "responses" 0 1) as (_ & Hin & _).
  split_and!.
  - exact Hmissing.
  - vm_compute. reflexivity.
  - vm_compute. reflexivity.
  - exact (proj2 (Hin responses "a@x.edu" eq_refl)).
Defined.

Lemma prefix_refl s : String.prefix s s = true.
Proof.
  induction s as [|c s IH]; simpl; [done|].
  destruct (ascii_dec c c) as [_|Hne]; [exact IH | by destruct Hne].
Qed.

Lemma includes_refl s : includes s s = true.
Proof.
  destruct s as [|c s]; [reflexivity|].
  cbn [includes]. by rewrite prefix_refl.
Qed.

Lemma existsb_includes track (tracks : list string) :
  track ∈ tracks → existsb (λ s, includes s track) tracks = true.
Proof.
  intros Hin. apply existsb_exists. exists track.
  split; [by apply list_elem_of_In | apply includes_refl].
Qed.

Lemma emailsByTrack_returns rows track acc :
  Forall (λ row, trackIndex < length row) rows →
  ∃ emails, emailsByTrack rows track acc = Returned emails.
Proof.
  intros Hrows. revert acc. induction Hrows as [|row rows Hrow _ IH]; intros acc; simpl;
    [by eexists|].
  apply lookup_lt_is_Some_2 in Hrow as [tracks ->]. case_decide; apply IH.
Qed.

Lemma emailsByTrack_throws rows track acc :
  ¬ Forall (λ row, trackIndex < length row) rows →
  emailsByTrack rows track acc = Thrown TypeError.
Proof.
  revert acc. induction rows as [|row rows IH]; intros acc Hn; simpl.
  - destruct Hn. constructor.
  - destruct (row !! trackIndex) as [tracks|] eqn:Hrow; [|done].
    assert (¬ Forall (λ row, trackIndex < length row) rows) as Hn'.
    { intros Hall. apply Hn. constructor; [|done]. by eapply lookup_lt_Some. }
    case_decide; by apply IH.
Qed.

Lemma availableSlotsForTrack_throws rows track acc :
  ¬ Forall (λ row, trackIndex < length row) rows →
  availableSlotsForTrack rows track acc = Thrown TypeError.
Proof.
  revert acc. induction rows as [|row rows IH]; intros acc Hn; simpl.
  - destruct Hn. constructor.
  - destruct (row !! trackIndex) as [tracks|] eqn:Hrow; [|done].
    assert (¬ Forall (λ row, trackIndex < length row) rows) as Hn'.
    { intros Hall. apply Hn. constructor; [|done]. by eapply lookup_lt_Some. }
    destruct (existsb _ _); by apply IH.
Qed.

(** A student whose row names [track] exactly is a student whose row
    names a track that contains [track]. *)
Lemma emailsByTrack_subseteq rows track acc1 acc2 emails res :
  emailsByTrack rows track acc1 = Returned emails →
  availableSlotsForTrack rows track acc2 = Returned res →
  acc1 ⊆ acc2.2 → emails ⊆ res.2.
Proof.
  revert acc1 acc2. induction rows as [|row rows IH]; intros acc1 acc2; simpl.
  - by intros [= <-] [= <-].
  - destruct (row !! trackIndex) as [tracks|]; [|done].
    destruct (decide (track ∈ map trim (split "," tracks))) as [Hin|Hin].
    + rewrite (existsb_includes _ _ Hin). intros H1 H2 Hsub.
      eapply IH; [exact H1|exact H2|]. simpl. set_solver.
    + destruct (existsb _ _); intros H1 H2 Hsub;
        (eapply IH; [exact H1|exact H2|]); simpl; set_solver.
Qed.

(** X11. [getEmailsByTrack] and [findAvailableSlots] read the track of
    every row after the header: both throw a [TypeError] as soon as one
    of these rows has fewer than five cells, and both return otherwise.
    [getEmailsByTrack] wants the track named exactly,
    [findAvailableSlots] wants it contained in a named track, so every
    student the first returns is considered by the second: such a
    student is in a slot of its index or in its list of excluded
    students.  [getEmailsByTrack] returns no email when the sheet does
    not exist. *)
Theorem track_readers_agree (vals : gmap string (list (list string)))
    (data : list (list string)) (track : string) (thresh : Z) :
  (vals !! "final-availabilities" = None → getEmailsByTrack vals track = Returned [])
  ∧ (vals !! "final-availabilities" = Some data →
     Forall (λ row, trackIndex < length row) (drop 1 data) →
     ∃ emails index excluded,
       getEmailsByTrack vals track = Returned emails
       ∧ findAvailableSlots data track thresh = Returned (index, excluded)
       ∧ ∀ u, u ∈ emails → u ∈ excluded ∨ ∃ k v, (k, v) ∈ index ∧ u ∈ v)
  ∧ (vals !! "final-availabilities" = Some data →
     ¬ Forall (λ row, trackIndex < length row) (drop 1 data) →
     getEmailsByTrack vals track = Thrown TypeError
     ∧ findAvailableSlots data track thresh = Thrown TypeError).
Proof.
  unfold getEmailsByTrack, findAvailableSlots. split_and!.
  - by intros ->.
  - intros -> Hall.
    destruct (emailsByTrack_returns _ track [] Hall) as [emails Hemails].
    assert (Forall (λ row, is_Some (row !! trackIndex)) (drop 1 data)) as Hall'.
    { eapply Forall_impl; [exact Hall|]. intros row. apply lookup_lt_is_Some_2. }
    destruct (availableSlotsForTrack_returns _ track ([], []) Hall')
      as ([slots students] & Hres).
    rewrite Hres. eexists emails, _, _. split_and!; [done..|].
    intros u Hu.
    assert (u ∈ students) as Hs.
    { by apply (emailsByTrack_subseteq _ _ _ _ _ _ Hemails Hres). }
    destruct (decide (u ∈ allOf (filterSlots slots thresh))) as [Hin|Hin].
    + right. by apply elem_of_allOf.
    + left. by apply list_elem_of_filter.
  - intros -> Hn. split.
    + by apply emailsByTrack_throws.
    + by rewrite availableSlotsForTrack_throws.
Qed.

Lemma track_readers_agree_witness :
  let data := [["Timestamp"; "Email"; "Name"; "Year"; "Track";
                "Mon"; "Tue"; "Wed"; "Thu"; "Fri"; "Sat"; "Sun"];
               ["1/1"; "a@x.edu"; "A"; "1"; "SEARCH"; "10am"; ""; ""; ""; ""; ""; ""];
               ["1/2"; "c@x.edu"; "C"; "1"; "SEARCH-pro"; ""; ""; ""; ""; ""; ""; ""]] in
  let short := [["Timestamp"; "Email"]; ["1/1"; "a@x.edu"]] in
  (getEmailsByTrack ∅ "SEARCH" = Returned [])
  ∧ (∃ emails index excluded,
       getEmailsByTrack {["final-availabilities" := data]} "SEARCH" = Returned emails
       ∧ findAvailableSlots data "SEARCH" 0 = Returned (index, excluded)
       ∧ ∀ u, u ∈ emails → u ∈ excluded ∨ ∃ k v, (k, v) ∈ index ∧ u ∈ v)
  ∧ (getEmailsByTrack {["final-availabilities" := short]} "SEARCH" = Thrown TypeError
     ∧ findAvailableSlots short "SEARCH" 0 = Thrown TypeError).
Proof.
  intros data short. split; [|split].
  - exact (proj1 (track_readers_agree ∅ [] "SEARCH" 0) eq_refl).
  - refine (proj1 (proj2 (track_readers_agree {["final-availabilities" := data]}
                            data "SEARCH" 0)) eq_refl _).
    repeat constructor; simpl; unfold trackIndex; lia.
  - refine (proj2 (proj2 (track_readers_agree {["final-availabilities" := short]}
                            short "SEARCH" 0)) eq_refl _).
    intros Hall. apply Forall_cons in Hall as [Hlt _]. simpl in Hlt.
    unfold trackIndex in Hlt. lia.
Defined.

(** ** The entry points *)

(** The common end of the two [processAvailability] functions never
    throws: the index the builder returns has distinct labels, which is
    all [getMinimumTimeSlots] needs.  Of the emails given, those the
    builder excludes are exactly those that no selected slot lists. *)
Lemma processAvailability_spec data emails thresh outputSheetName virtualStudents ss :
  ∃ selected rest,
    getMinimumTimeSlots (findAvailableSlotsForEmails data emails thresh).1
    = Returned (selected, rest)
    ∧ processAvailability data emails thresh outputSheetName virtualStudents ss
      = Returned (writeSelectedSlotsToSheet selected outputSheetName virtualStudents
                    (findAvailableSlotsForEmails data emails thresh).2 ss)
    ∧ (∀ e, e ∈ selected → e ∈ (findAvailableSlotsForEmails data emails thresh).1)
    ∧ (∀ k v u, (k, v) ∈ selected → u ∈ v → u ∈ emails)
    ∧ (∀ u, u ∈ emails →
            (u ∈ (findAvailableSlotsForEmails data emails thresh).2
             ↔ ¬ ∃ k v, (k, v) ∈ selected ∧ u ∈ v)).
Proof.
  pose proof (findAvailableSlotsForEmails_wf data emails thresh) as Hwf.
  pose proof (findAvailableSlotsForEmails_sound data emails thresh) as Hsound.
  destruct (builder_excluded_partition data emails thresh) as (_ & Hexc & _).
  simpl in Hexc.
  destruct (getMinimumTimeSlots_spec _ Hwf)
    as (n & st & _ & _ & _ & _ & Hcall & [Hsub _ _ _ _] & Hall).
  exists (selectedSlots st), (filteredSlots st). split_and!; [done| |done| |].
  - unfold processAvailability.
    destruct (findAvailableSlotsForEmails data emails thresh) as [allSlots excStudents].
    simpl in *. by rewrite Hcall.
  - intros k v u He Hu. rewrite Forall_forall in Hsound.
    destruct (Hsound _ (Hsub _ He)) as (_ & _ & _ & Hin). by apply Hin.
  - intros u Hu. rewrite Hexc, <- !elem_of_allOf, Hall. tauto.
Qed.

Lemma writeSelectedSlotsToSheet_frame selected sheetName virtualStudents excluded
    (ss : gmap string Sheet.t) name :
  name ≠ sheetName →
  writeSelectedSlotsToSheet selected sheetName virtualStudents excluded ss !! name
  = ss !! name.
Proof. intros Hne. unfold writeSelectedSlotsToSheet. by apply lookup_insert_ne. Qed.

(** X12. [processAvailabilityBySheet] from end to end.  Without a sheet
    "final-availabilities" it throws a [TypeError]; with one it returns,
    having written the output sheet and no other.  Every email of the
    responses sheet ends up either in a selected slot or among the
    excluded students, never in both; the selected slots list only such
    emails; and the virtual students handed to the writer are among
    these emails. *)
Theorem process_by_sheet_places_everyone (vals : gmap string (list (list string)))
    (sheetName : string) (columnIndex : nat) (thresh : Z) (outputSheetName : string)
    (virtualIndex : Z) (ss : gmap string Sheet.t) :
  let emails := getEmailsFromSheet vals sheetName columnIndex in
  (vals !! "final-availabilities" = None →
     processAvailabilityBySheet vals sheetName columnIndex thresh outputSheetName
       virtualIndex ss = Thrown TypeError)
  ∧ (∀ data, vals !! "final-availabilities" = Some data →
       ∃ selected excluded virtualStudents ss',
         processAvailabilityBySheet vals sheetName columnIndex thresh outputSheetName
           virtualIndex ss = Returned ss'
         ∧ ss' = writeSelectedSlotsToSheet selected outputSheetName virtualStudents
                   excluded ss
         ∧ (∀ name, name ≠ outputSheetName → ss' !! name = ss !! name)
         ∧ virtualStudents `sublist_of` emails
         ∧ excluded `sublist_of` emails
         ∧ (∀ k v u, (k, v) ∈ selected → u ∈ v → u ∈ emails)
         ∧ (∀ u, u ∈ emails → (u ∈ excluded ↔ ¬ ∃ k v, (k, v) ∈ selected ∧ u ∈ v))).
Proof.
  intros emails. unfold processAvailabilityBySheet, availabilities. split.
  - by intros ->.
  - intros data ->. fold emails.
    set (virtualStudents :=
           if decide (0 ≤ virtualIndex)%Z
           then getEmailsWithCondition vals sheetName columnIndex (Z.to_nat virtualIndex)
           else []).
    destruct (processAvailability_spec data emails thresh outputSheetName virtualStudents ss)
      as (selected & rest & _ & Hcall & _ & Hin & Hpart).
    eexists selected, _, virtualStudents, _. split_and!; [exact Hcall|done| | | |done|done].
    + intros name Hne. by apply writeSelectedSlotsToSheet_frame.
    + unfold virtualStudents. case_decide; [|apply sublist_nil_l].
      apply getEmailsWithCondition_sublist.
    + apply (builder_excluded_partition data emails thresh).
Qed.

Lemma process_by_sheet_places_everyone_witness :
  let data := [["Timestamp"; "Email"; "Name"; "Year"; "Track";
                "Mon"; "Tue"; "Wed"; "Thu"; "Fri"; "Sat"; "Sun"];
               ["1/1"; "a@x.edu"; "A"; "1"; "SEARCH"; "10am"; ""; ""; ""; ""; ""; ""];
               ["1/2"; "b@x.edu"; "B"; "1"; "SEARCH"; "10am, 11am"; ""; ""; ""; ""; ""; ""]] in
  let responses := [["Email"; "Virtual"]; ["a@x.edu"; "Yes"]; ["b@x.edu"; "No"];
                    ["c@x.edu"; "No"]] in
  let vals : gmap string (list (list string)) :=
    <["final-availabilities" := data]> {["responses" := responses]} in
  processAvailabilityBySheet {["responses" := responses]} "responses" 0 0 "out" 1 ∅
  = Thrown TypeError
  ∧ ∃ selected excluded virtualStudents ss',
      processAvailabilityBySheet vals "responses" 0 0 "out" 1 ∅ = Returned ss'
      ∧ ss' = writeSelectedSlotsToSheet selected "out" virtualStudents excluded ∅
      ∧ (∀ name, name ≠ "out" → ss' !! name = (∅ : gmap string Sheet.t) !! name)
      ∧ virtualStudents `sublist_of` getEmailsFromSheet vals "responses" 0
      ∧ excluded `sublist_of` getEmailsFromSheet vals "responses" 0
      ∧ (∀ k v u, (k, v) ∈ selected → u ∈ v → u ∈ getEmailsFromSheet vals "responses" 0)
      ∧ (∀ u, u ∈ getEmailsFromSheet vals "responses" 0 →
              (u ∈ excluded ↔ ¬ ∃ k v, (k, v) ∈ selected ∧ u ∈ v)).
Proof.
  intros data responses vals. split.
  - exact (proj1 (process_by_sheet_places_everyone {["responses" := responses]}
                    "responses" 0 0 "out" 1 ∅) eq_refl).
  - exact (proj2 (process_by_sheet_places_everyone vals "responses" 0 0 "out" 1 ∅)
             data eq_refl).
Defined.

(** X13. [processAvailabilityByTrack] returns exactly when the sheet
    "final-availabilities" exists and every row after its header has a
    track cell; otherwise it throws a [TypeError] (a missing sheet gets
    past [getEmailsByTrack], which returns no email, and stops the
    builder).  When it returns it has written the output sheet and no
    other, and every student of the track is either in a selected slot
    or among the excluded students, never in both. *)
Theorem process_by_track_outcome (vals : gmap string (list (list string)))
    (track : string) (thresh : Z) (outputSheetName : string)
    (virtualIndex : Z) (ss : gmap string Sheet.t) :
  (vals !! "final-availabilities" = None →
     processAvailabilityByTrack vals track thresh outputSheetName virtualIndex ss
     = Thrown TypeError)
  ∧ (∀ data, vals !! "final-availabilities" = Some data →
       ¬ Forall (λ row, trackIndex < length row) (drop 1 data) →
       processAvailabilityByTrack vals track thresh outputSheetName virtualIndex ss
       = Thrown TypeError)
  ∧ (∀ data, vals !! "final-availabilities" = Some data →
       Forall (λ row, trackIndex < length row) (drop 1 data) →
       ∃ emails selected excluded virtualStudents ss',
         getEmailsByTrack vals track = Returned emails
         ∧ processAvailabilityByTrack vals track thresh outputSheetName virtualIndex ss
           = Returned ss'
         ∧ ss' = writeSelectedSlotsToSheet selected outputSheetName virtualStudents
                   excluded ss
         ∧ (∀ name, name ≠ outputSheetName → ss' !! name = ss !! name)
         ∧ (∀ k v u, (k, v) ∈ selected → u ∈ v → u ∈ emails)
         ∧ (∀ u, u ∈ emails → (u ∈ excluded ↔ ¬ ∃ k v, (k, v) ∈ selected ∧ u ∈ v))).
Proof.
  unfold processAvailabilityByTrack, getEmailsByTrack, availabilities. split_and!.
  - by intros ->.
  - intros data -> Hn. by rewrite emailsByTrack_throws.
  - intros data -> Hall.
    destruct (emailsByTrack_returns _ track [] Hall) as [emails Hemails].
    rewrite Hemails.
    set (virtualStudents :=
           if decide (0 ≤ virtualIndex)%Z
           then getEmailsWithCondition vals (track +:+ "-responses") 0 (Z.to_nat virtualIndex)
           else []).
    destruct (processAvailability_spec data emails thresh outputSheetName virtualStudents ss)
      as (selected & rest & _ & Hcall & _ & Hin & Hpart).
    eexists emails, selected, _, virtualStudents, _.
    split_and!; [done|exact Hcall|done| |done|done].
    intros name Hne. by apply writeSelectedSlotsToSheet_frame.
Qed.

Lemma process_by_track_outcome_witness :
  let data := [["Timestamp"; "Email"; "Name"; "Year"; "Track";
                "Mon"; "Tue"; "Wed"; "Thu"; "Fri"; "Sat"; "Sun"];
               ["1/1"; "a@x.edu"; "A"; "1"; "SEARCH"; "10am"; ""; ""; ""; ""; ""; ""];
               ["1/2"; "b@x.edu"; "B"; "1"; "SEARCH, TEST"; ""; ""; ""; ""; ""; ""; ""]] in
  let short := [["Timestamp"; "Email"]; ["1/1"; "a@x.edu"]] in
  processAvailabilityByTrack ∅ "SEARCH" 0 "out" (-1) ∅ = Thrown TypeError
  ∧ processAvailabilityByTrack {["final-availabilities" := short]} "SEARCH" 0 "out" (-1) ∅
    = Thrown TypeError
  ∧ ∃ emails selected excluded virtualStudents ss',
      getEmailsByTrack {["final-availabilities" := data]} "SEARCH" = Returned emails
      ∧ processAvailabilityByTrack {["final-availabilities" := data]} "SEARCH" 0 "out" (-1) ∅
        = Returned ss'
      ∧ ss' = writeSelectedSlotsToSheet selected "out" virtualStudents excluded ∅
      ∧ (∀ name, name ≠ "out" → ss' !! name = (∅ : gmap string Sheet.t) !! name)
      ∧ (∀ k v u, (k, v) ∈ selected → u ∈ v → u ∈ emails)
      ∧ (∀ u, u ∈ emails → (u ∈ excluded ↔ ¬ ∃ k v, (k, v) ∈ selected ∧ u ∈ v)).
Proof.
  intros data short. split; [|split].
  - exact (proj1 (process_by_track_outcome ∅ "SEARCH" 0 "out" (-1) ∅) eq_refl).
  - refine (proj1 (proj2 (process_by_track_outcome {["final-availabilities" := short]}
                            "SEARCH" 0 "out" (-1) ∅)) short eq_refl _).
    intros Hall. apply Forall_cons in Hall as [Hlt _]. simpl in Hlt.
    unfold trackIndex in Hlt. lia.
  - refine (proj2 (proj2 (process_by_track_outcome {["final-availabilities" := data]}
                            "SEARCH" 0 "out" (-1) ∅)) data eq_refl _).
    repeat constructor; simpl; unfold trackIndex; lia.
Defined.

Lemma selectIterative_placed_all index minGroupSize st :
  (minGroupSize ≤ 1)%Z →
  selectIterative index minGroupSize = Returned st →
  placed (finalSelections st) = allOf index.
Proof.
  intros Hmin Hsel.
  pose proof (selectIterative_le_one_all _ _ _ Hmin Hsel) as Hempty.
  destruct (selectIterative_spec index minGroupSize) as (st' & Hsel' & Hinv & _).
  assert (st' = st) as -> by congruence.
  pose proof (placed_subseteq _ _ _ Hinv) as Hsub.
  destruct Hinv as [_ Hrem _]. rewrite Hempty in Hrem.
  apply set_eq. intros u. split; [by apply Hsub|]. intros Hu.
  destruct (decide (u ∈ placed (finalSelections st))) as [|Hn]; [done|].
  assert (u ∈ allOf index ∖ placed (finalSelections st)) as Habs by set_solver.
  rewrite <- Hrem in Habs. set_solver.
Qed.

(** What one block of [main] does when the availabilities are there: it
    writes the schedule sheet, whatever that sheet held, and places or
    excludes every email of the responses sheet. *)
Lemma mainStep_spec vals data responses schedule (ss : gmap string Sheet.t) :
  vals !! "final-availabilities" = Some data →
  let emails := getEmailsFromSheet vals responses 0 in
  let excluded := (findAvailableSlotsForEmails data emails 0).2 in
  ∃ st,
    selectIterative (findAvailableSlotsForEmails data emails 0).1 0 = Returned st
    ∧ mainStep vals responses schedule ss
      = Returned (<[schedule := writeIterative st excluded []]> ss)
    ∧ remainingStudents st = ∅
    ∧ disjointSelections (finalSelections st)
    ∧ (∀ r u, r ∈ finalSelections st → u ∈ r.1.2 → u ∈ emails)
    ∧ (∀ u, u ∈ emails →
            (u ∈ excluded ↔ ¬ ∃ r, r ∈ finalSelections st ∧ u ∈ r.1.2)).
Proof.
  intros Hdata emails excluded.
  pose proof (findAvailableSlotsForEmails_wf data emails 0) as Hwf.
  pose proof (findAvailableSlotsForEmails_sound data emails 0) as Hsound.
  destruct (builder_excluded_partition data emails 0) as (_ & Hexc & _). simpl in Hexc.
  destruct (selectIterative_order _ 0 Hwf) as (st & Hsel & Hinv & _ & [Hdis _ _ _ _]).
  assert (0 ≤ 1)%Z as Hmin by lia.
  pose proof (selectIterative_placed_all _ _ _ Hmin Hsel) as Hall.
  exists st. split_and!; [done| |by eapply selectIterative_le_one_all|done| |].
  - unfold mainStep, availabilities, mainBlock. rewrite Hdata. fold emails.
    unfold excluded.
    destruct (findAvailableSlotsForEmails data emails 0) as [allSlots excStudents].
    simpl in *. unfold getIterativeTimeSlots. by rewrite Hsel.
  - intros r u Hr Hu.
    assert (u ∈ allOf (findAvailableSlotsForEmails data emails 0).1) as Hin.
    { rewrite <- Hall. apply elem_of_placed. eauto. }
    apply elem_of_allOf in Hin as (k & v & He & Hv).
    rewrite Forall_forall in Hsound. destruct (Hsound _ He) as (_ & _ & _ & Hin).
    by apply Hin.
  - intros u Hu. unfold excluded. rewrite Hexc, <- elem_of_allOf, <- elem_of_placed, Hall.
    tauto.
Qed.

Lemma main_fold_throws vals (names : list (string * string)) e :
  foldl (λ acc names,
           match acc with
           | Returned ss' => mainStep vals names.1 names.2 ss'
           | Thrown e => Thrown e
           | OutOfFuel => OutOfFuel
           end) (Thrown e) names = Thrown e.
Proof. induction names as [|n names IH]; simpl; [done|exact IH]. Qed.

Lemma main_fold_missing vals (names : list (string * string)) (ss : gmap string Sheet.t) :
  vals !! "final-availabilities" = None → names ≠ [] →
  foldl (λ acc names,
           match acc with
           | Returned ss' => mainStep vals names.1 names.2 ss'
           | Thrown e => Thrown e
           | OutOfFuel => OutOfFuel
           end) (Returned ss) names = Thrown TypeError.
Proof.
  intros Hnone Hne. destruct names as [|[r s] names]; [done|]. simpl.
  assert (mainStep vals r s ss = Thrown TypeError) as ->
    by (unfold mainStep, availabilities; by rewrite Hnone).
  apply main_fold_throws.
Qed.

Lemma main_fold_spec vals data (names : list (string * string)) (ss : gmap string Sheet.t) :
  vals !! "final-availabilities" = Some data →
  ∃ ss',
    foldl (λ acc names,
             match acc with
             | Returned ss' => mainStep vals names.1 names.2 ss'
             | Thrown e => Thrown e
             | OutOfFuel => OutOfFuel
             end) (Returned ss) names = Returned ss'
    ∧ (∀ name, name ∉ names.*2 → ss' !! name = ss !! name)
    ∧ (NoDup names.*2 →
       ∀ responses schedule, (responses, schedule) ∈ names →
       ∃ st,
         selectIterative
           (findAvailableSlotsForEmails data (getEmailsFromSheet vals responses 0) 0).1 0
         = Returned st
         ∧ ss' !! schedule
           = Some (writeIterative st
                     (findAvailableSlotsForEmails data
                        (getEmailsFromSheet vals responses 0) 0).2 [])).
Proof.
  intros Hdata. revert ss. induction names as [|[r s] names IH]; intros ss; simpl.
  - exists ss. split_and!; [done|done|]. intros _ ? ? Hin. by apply elem_of_nil in Hin.
  - destruct (mainStep_spec vals data r s ss Hdata) as (st & Hsel & Hstep & _).
    simpl in Hsel, Hstep. rewrite Hstep.
    destruct (IH (<[s := writeIterative st
                          (findAvailableSlotsForEmails data (getEmailsFromSheet vals r 0) 0).2
                          []]> ss))
      as (ss' & Hfold & Hframe & Hsheets).
    exists ss'. split_and!; [done| |].
    + intros name Hn. apply not_elem_of_cons in Hn as [Hne Hn].
      rewrite (Hframe _ Hn). by apply lookup_insert_ne.
    + intros Hnd responses schedule Hin. apply NoDup_cons in Hnd as [Hs Hnd].
      apply elem_of_cons in Hin as [[= -> ->]|Hin].
      * exists st. split; [done|]. rewrite (Hframe _ Hs). apply lookup_insert_eq.
      * by apply Hsheets.
Qed.

(** X14. [main] from end to end.  Without a sheet "final-availabilities"
    it throws a [TypeError] in its first block.  With one it returns,
    having written the five schedule sheets and no other; in each of
    them every email of the matching responses sheet is placed in
    exactly one selected slot or is among the excluded students, never
    both, and nobody remains unplaced. *)
Theorem main_writes_five_schedules (vals : gmap string (list (list string)))
    (ss : gmap string Sheet.t) :
  (vals !! "final-availabilities" = None → main vals ss = Thrown TypeError)
  ∧ (∀ data, vals !! "final-availabilities" = Some data →
       ∃ ss',
         main vals ss = Returned ss'
         ∧ (∀ name, name ∉ mainSheets.*2 → ss' !! name = ss !! name)
         ∧ ∀ responses schedule, (responses, schedule) ∈ mainSheets →
             let emails := getEmailsFromSheet vals responses 0 in
             let excluded := (findAvailableSlotsForEmails data emails 0).2 in
             ∃ st,
               selectIterative (findAvailableSlotsForEmails data emails 0).1 0 = Returned st
               ∧ ss' !! schedule = Some (writeIterative st excluded [])
               ∧ remainingStudents st = ∅
               ∧ disjointSelections (finalSelections st)
               ∧ (∀ u, u ∈ emails →
                       (u ∈ excluded ↔ ¬ ∃ r, r ∈ finalSelections st ∧ u ∈ r.1.2))).
Proof.
  split.
  - intros Hnone. by apply main_fold_missing.
  - intros data Hdata.
    destruct (main_fold_spec vals data mainSheets ss Hdata) as (ss' & Hfold & Hframe & Hsheets).
    exists ss'. split_and!; [done|done|].
    intros responses schedule Hin emails excluded.
    assert (NoDup mainSheets.*2) as Hnd by (apply (bool_decide_unpack _); vm_compute; exact I).
    destruct (Hsheets Hnd _ _ Hin) as (st & Hsel & Hsheet).
    destruct (mainStep_spec vals data responses schedule ss Hdata)
      as (st' & Hsel' & _ & Hempty & Hdis & _ & Hpart).
    assert (Returned st' = Returned st) as [= ->] by (by rewrite <- Hsel, <- Hsel').
    exists st. by split_and!.
Qed.

Lemma main_writes_five_schedules_witness :
  let data := [["Timestamp"; "Email"; "Name"; "Year"; "Track";
                "Mon"; "Tue"; "Wed"; "Thu"; "Fri"; "Sat"; "Sun"];
               ["1/1"; "a@x.edu"; "A"; "1"; "SEARCH"; "10am"; ""; ""; ""; ""; ""; ""];
               ["1/2"; "b@x.edu"; "B"; "1"; "SEARCH"; "10am, 11am"; ""; ""; ""; ""; ""; ""]] in
  let responses := [["Email"]; ["a@x.edu"]; ["b@x.edu"]; ["c@x.edu"]] in
  let vals : gmap string (list (list string)) :=
    <["final-availabilities" := data]> {["SEARCH-responses" := responses]} in
  main {["SEARCH-responses" := responses]} ∅ = Thrown TypeError
  ∧ ∃ ss',
      main vals ∅ = Returned ss'
      ∧ (∀ name, name ∉ mainSheets.*2 → ss' !! name = (∅ : gmap string Sheet.t) !! name)
      ∧ ∀ responses schedule, (responses, schedule) ∈ mainSheets →
          let emails := getEmailsFromSheet vals responses 0 in
          let excluded := (findAvailableSlotsForEmails data emails 0).2 in
          ∃ st,
            selectIterative (findAvailableSlotsForEmails data emails 0).1 0 = Returned st
            ∧ ss' !! schedule = Some (writeIterative st excluded [])
            ∧ remainingStudents st = ∅
            ∧ disjointSelections (finalSelections st)
            ∧ (∀ u, u ∈ emails →
                    (u ∈ excluded ↔ ¬ ∃ r, r ∈ finalSelections st ∧ u ∈ r.1.2)).
Proof.
  intros data responses vals. split.
  - exact (proj1 (main_writes_five_schedules {["SEARCH-responses" := responses]} ∅) eq_refl).
  - exact (proj2 (main_writes_five_schedules vals ∅) data eq_refl).
Defined.

(** ** Reading back what the writers wrote *)

Lemma split_no_sep sep s : contains sep s = false → split sep s = [s].
Proof.
  induction s as [|c s IH]; simpl; [done|].
  intros Hc. apply orb_false_iff in Hc as [Hc Hs]. apply bool_decide_eq_false in Hc.
  rewrite decide_False by done. by rewrite IH.
Qed.

Lemma split_app_sep sep e s :
  contains sep e = false → split sep (e +:+ String sep s) = e :: split sep s.
Proof.
  induction e as [|c e IH]; simpl.
  - intros _. by rewrite decide_True.
  - intros Hc. apply orb_false_iff in Hc as [Hc He]. apply bool_decide_eq_false in Hc.
    rewrite decide_False by done. by rewrite IH.
Qed.

Lemma join_cons_cons x y l : join (x :: y :: l) = x +:+ String "," (String " " (join (y :: l))).
Proof. reflexivity. Qed.

Lemma trim_space s : trim (String " " s) = trim s.
Proof. reflexivity. Qed.

Lemma split_join_aux e l :
  Forall cleanEmail (e :: l) →
  map trim (split "," (String " " (join (e :: l)))) = e :: l.
Proof.
  revert e. induction l as [|e' l IH]; intros e Hclean.
  - apply Forall_cons in Hclean as [(_ & Hc & Ht) _].
    change (join [e]) with e.
    rewrite (split_no_sep "," (String " " e)) by (simpl; exact Hc).
    simpl map. by rewrite trim_space, Ht.
  - apply Forall_cons in Hclean as [(_ & Hc & Ht) Hclean].
    rewrite join_cons_cons.
    change (String " " (e +:+ ?s)) with (String " " e +:+ s).
    rewrite split_app_sep by (simpl; exact Hc).
    simpl map. rewrite trim_space, Ht. f_equal. by apply IH.
Qed.

(** Joining by ", " and then splitting at the commas and trimming gives
    the list back. *)
Lemma split_join l :
  Forall cleanEmail l → l ≠ [] →
  join l ≠ "" ∧ filter (λ email, email ≠ "") (map trim (split "," (join l))) = l.
Proof.
  intros Hclean Hne. destruct l as [|e l]; [done|]. clear Hne.
  assert (filter (λ email : string, email ≠ "") (e :: l) = e :: l) as Hfilter.
  { induction Hclean as [|x l' [Hx _] _ IH]; [done|].
    by rewrite filter_cons_True, IH. }
  pose proof Hclean as Hall.
  apply Forall_cons in Hclean as [(Hne & Hc & Ht) Hclean].
  split.
  - destruct l as [|e' l]; [done|]. rewrite join_cons_cons. by destruct e.
  - rewrite <- Hfilter at 2. f_equal. destruct l as [|e' l].
    + change (join [e]) with e. rewrite split_no_sep by done. simpl. by rewrite Ht.
    + rewrite join_cons_cons, split_app_sep by done. simpl map. rewrite Ht. f_equal.
      by apply split_join_aux.
Qed.

Lemma getEmailsFromSheetCell_joined (ss : gmap string Sheet.t) sheetName sheet
    (rowIndex columnIndex : positive) l :
  ss !! sheetName = Some sheet →
  Sheet.getValue (Pos.to_nat rowIndex - 1) (Pos.to_nat columnIndex - 1) sheet
  = (if decide (0 < length l) then Str (join l) else Blank) →
  Forall cleanEmail l →
  getEmailsFromSheetCell ss sheetName rowIndex columnIndex = Returned l.
Proof.
  intros Hsheet Hcell Hclean. unfold getEmailsFromSheetCell. rewrite Hsheet, Hcell.
  destruct l as [|e l]; [done|]. rewrite decide_True by (simpl; lia).
  destruct (split_join (e :: l) Hclean) as [Hne Hback]; [done|].
  rewrite decide_False by done. by rewrite Hback.
Qed.

Lemma writeSelectedSlotsToSheet_E2 selected sheetName virtualStudents excluded
    (ss : gmap string Sheet.t) :
  ∃ sheet,
    writeSelectedSlotsToSheet selected sheetName virtualStudents excluded ss !! sheetName
    = Some sheet
    ∧ Sheet.getValue Sheet.E2.1 Sheet.E2.2 sheet
      = (if decide (0 < length excluded) then Str (join excluded) else Blank).
Proof.
  unfold writeSelectedSlotsToSheet. rewrite lookup_insert_eq. eexists. split; [done|].
  unfold Sheet.E2. simpl. case_decide.
  - apply getValue_setValue_eq.
  - rewrite foldl_appendRow. unfold Sheet.appendRow, Sheet.clear. simpl.
    change (Sheet.getValue 1 4 (selectedHeaders :: ?rows))
      with (Sheet.getValue 0 4 rows).
    apply (getValue_rows_blank _ 4); [|lia].
    apply Forall_fmap, Forall_forall. intros row _. simpl. lia.
Qed.

(** X15. The excluded students can be read back.  When every excluded
    email is a non-empty string without comma and without white space at
    its ends, [getEmailsFromSheetCell] on cell E2 of the sheet
    [writeSelectedSlotsToSheet] wrote, and on cell D2 of the sheet
    [getIterativeTimeSlots] wrote, returns the list of excluded students
    that was handed to the writer (the empty list for a cell left
    blank). *)
Theorem excluded_students_round_trip (sheetName : string)
    (virtualStudents excludedStudents : list string) (ss : gmap string Sheet.t) :
  Forall cleanEmail excludedStudents →
  (∀ selected,
     getEmailsFromSheetCell
       (writeSelectedSlotsToSheet selected sheetName virtualStudents excludedStudents ss)
       sheetName 2 5 = Returned excludedStudents)
  ∧ (∀ index minGroupSize,
       ∃ ss',
         getIterativeTimeSlots index minGroupSize sheetName virtualStudents
           excludedStudents ss = Returned ss'
         ∧ getEmailsFromSheetCell ss' sheetName 2 4 = Returned excludedStudents).
Proof.
  intros Hclean. split.
  - intros selected.
    destruct (writeSelectedSlotsToSheet_E2 selected sheetName virtualStudents
                excludedStudents ss) as (sheet & Hsheet & Hcell).
    by eapply getEmailsFromSheetCell_joined.
  - intros index minGroupSize.
    destruct (selectIterative_spec index minGroupSize) as (st & Hsel & _).
    destruct (writeIterative_cells st excludedStudents (getOrInsertSheet ss sheetName))
      as (HD & _).
    eexists. split; [unfold getIterativeTimeSlots; by rewrite Hsel|].
    eapply getEmailsFromSheetCell_joined; [apply lookup_insert_eq|exact HD|done].
Qed.

Lemma excluded_students_round_trip_witness :
  let excluded := ["a@x.edu"; "b.c@y.org"; "d@z.edu"] in
  Forall cleanEmail excluded
  ∧ getEmailsFromSheetCell
      (writeSelectedSlotsToSheet [("Mon 10am", ["p@x.edu"])] "out" [] excluded ∅)
      "out" 2 5 = Returned excluded
  ∧ ∃ ss',
      getIterativeTimeSlots [("Mon 10am", ["p@x.edu"])] 0 "out" [] excluded ∅ = Returned ss'
      ∧ getEmailsFromSheetCell ss' "out" 2 4 = Returned excluded.
Proof.
  intros excluded.
  assert (Forall cleanEmail excluded) as Hclean.
  { repeat constructor; discriminate. }
  pose proof (excluded_students_round_trip "out" [] excluded ∅ Hclean) as [Hsel Hit].
  split; [exact Hclean|]. split; [apply Hsel | apply Hit].
Defined.

Lemma getValue_cons r c (row : list cell) (s : Sheet.t) :
  Sheet.getValue (S r) c (row :: s) = Sheet.getValue r c s.
Proof. reflexivity. Qed.

Lemma getValue_fmap {A : Type} (f : A → list cell) (l : list A) i c x :
  l !! i = Some x → Sheet.getValue i c (map f l) = default Blank (f x !! c).
Proof.
  intros Hx. unfold Sheet.getValue.
  change (map f l) with (f <$> l). by rewrite list_lookup_fmap, Hx.
Qed.

(** X16. The rows [getIterativeTimeSlots] writes.  Row 1 is the header;
    row [i + 2] carries entry [i] of the selection: its label in column
    A, its students joined in column B, their number in column C.  The
    cells D2, E2 and F2 written afterwards leave these alone, and the
    former content of the sheet is gone.  When the students of an entry
    are clean emails, [getEmailsFromSheetCell] reads them back from
    column B. *)
Theorem iterative_rows_written (index : JsObject.t) (minGroupSize : Z)
    (sheetName : string) (virtualStudents excludedStudents : list string)
    (ss : gmap string Sheet.t) :
  ∃ st ss' sheet,
    selectIterative index minGroupSize = Returned st
    ∧ getIterativeTimeSlots index minGroupSize sheetName virtualStudents
        excludedStudents ss = Returned ss'
    ∧ ss' !! sheetName = Some sheet
    ∧ sheet = writeIterative st excludedStudents []
    ∧ (∀ c, c < 3 → Sheet.getValue 0 c sheet = default Blank (iterativeHeaders !! c))
    ∧ ∀ i r,
        finalSelections st !! i = Some r →
        Sheet.getValue (S i) 0 sheet = Str r.1.1
        ∧ Sheet.getValue (S i) 1 sheet = Str (join r.1.2)
        ∧ Sheet.getValue (S i) 2 sheet = Num (Z.of_nat r.2)
        ∧ (Forall cleanEmail r.1.2 →
           getEmailsFromSheetCell ss' sheetName (Pos.of_nat (i + 2)) 2 = Returned r.1.2).
Proof.
  destruct (selectIterative_spec index minGroupSize) as (st & Hsel & [Hent _ _] & _).
  exists st, (<[sheetName := writeIterative st excludedStudents []]> ss),
    (writeIterative st excludedStudents []).
  split_and!; [done| |apply lookup_insert_eq|reflexivity| |].
  - unfold getIterativeTimeSlots. by rewrite Hsel.
  - intros c Hc. unfold writeIterative, Sheet.D2, Sheet.E2, Sheet.F2. simpl.
    rewrite !getValue_setValue_ne by (intros [=]).
    case_decide; [rewrite getValue_setValue_ne by (intros [=])|];
      rewrite foldl_appendRow; reflexivity.
  - intros i r Hr.
    assert (∀ c, c < 3 →
              Sheet.getValue (S i) c (writeIterative st excludedStudents [])
              = default Blank ([Str r.1.1; Str (join r.1.2); Num (Z.of_nat r.2)] !! c))
      as Hcells.
    { intros c Hc. unfold writeIterative, Sheet.D2, Sheet.E2, Sheet.F2. simpl.
      rewrite !getValue_setValue_ne by (intros [=]; lia).
      assert (Sheet.getValue (S i) c
                (foldl (λ sh row, Sheet.appendRow
                                    [Str row.1.1; Str (join row.1.2); Num (Z.of_nat row.2)] sh)
                   (Sheet.appendRow iterativeHeaders (Sheet.clear []))
                   (finalSelections st))
              = default Blank ([Str r.1.1; Str (join r.1.2); Num (Z.of_nat r.2)] !! c))
        as Hrows.
      { rewrite foldl_appendRow. unfold Sheet.appendRow, Sheet.clear. simpl.
        rewrite getValue_cons.
        by rewrite (getValue_fmap _ _ _ _ _ Hr). }
      case_decide; [rewrite getValue_setValue_ne by (intros [=]; lia)|]; exact Hrows. }
    split_and!; [apply (Hcells 0); lia | apply (Hcells 1); lia | apply (Hcells 2); lia|].
    intros Hclean.
    rewrite Forall_forall in Hent.
    destruct (Hent r) as (_ & Hlen & Hpos & _); [by eapply list_elem_of_lookup_2|].
    eapply getEmailsFromSheetCell_joined; [apply lookup_insert_eq| |done].
    replace (Pos.to_nat (Pos.of_nat (i + 2)) - 1) with (S i)
      by (rewrite Nat2Pos.id by lia; lia).
    change (Pos.to_nat 2 - 1) with 1.
    rewrite (Hcells 1) by lia. simpl. rewrite decide_True by lia. done.
Qed.

Lemma iterative_rows_written_witness :
  let index := [("Mon 10am", ["a@x.edu"; "b@x.edu"]); ("Tue 9am", ["b@x.edu"; "c@x.edu"])] in
  ∃ ss',
    getIterativeTimeSlots index 0 "out" [] [] ∅ = Returned ss'
    ∧ getEmailsFromSheetCell ss' "out" 2 2 = Returned ["a@x.edu"; "b@x.edu"]
    ∧ getEmailsFromSheetCell ss' "out" 3 2 = Returned ["c@x.edu"].
Proof.
  intros index.
  destruct (iterative_rows_written index 0 "out" [] [] ∅)
    as (st & ss' & sheet & Hsel & Hcall & _ & _ & _ & Hrows).
  exists ss'. split; [exact Hcall|].
  assert (finalSelections st
          = [("Mon 10am", ["a@x.edu"; "b@x.edu"], 2); ("Tue 9am", ["c@x.edu"], 1)]) as Hst.
  { vm_compute in Hsel. injection Hsel as <-. reflexivity. }
  split.
  - refine (proj2 (proj2 (proj2 (Hrows 0 ("Mon 10am", ["a@x.edu"; "b@x.edu"], 2) _))) _).
    + by rewrite Hst.
    + repeat constructor; discriminate.
  - refine (proj2 (proj2 (proj2 (Hrows 1 ("Tue 9am", ["c@x.edu"], 1) _))) _).
    + by rewrite Hst.
    + repeat constructor; discriminate.
Defined.

(** X17. The sheet [writeSelectedSlotsToSheet] writes.  Row 1 is the
    header.  The rows below are the selected slots, each once, by
    non-increasing number of students; row [i + 2] holds the label, the
    students joined, their number and the virtual students among them.
    Writing the excluded students into E2 leaves these cells alone; the
    former content of the sheet is gone and no other sheet is touched. *)
Theorem selected_rows_written (selectedSlots : JsObject.t) (sheetName : string)
    (virtualStudents excludedStudents : list string) (ss : gmap string Sheet.t) :
  let rows := selectedRows selectedSlots virtualStudents in
  let ss' := writeSelectedSlotsToSheet selectedSlots sheetName virtualStudents
               excludedStudents ss in
  rows ≡ₚ map (λ e : string * list string,
                 (e.1, join e.2, length e.2,
                  join (filter (λ student, student ∈ e.2) virtualStudents)))
            selectedSlots
  ∧ StronglySorted (λ a b : string * string * nat * string, b.1.2 ≤ a.1.2) rows
  ∧ (∀ name, name ≠ sheetName → ss' !! name = ss !! name)
  ∧ ∃ sheet,
      ss' !! sheetName = Some sheet
      ∧ (∀ c, c < 4 → Sheet.getValue 0 c sheet = default Blank (selectedHeaders !! c))
      ∧ ∀ i row,
          rows !! i = Some row →
          Sheet.getValue (S i) 0 sheet = Str row.1.1.1
          ∧ Sheet.getValue (S i) 1 sheet = Str row.1.1.2
          ∧ Sheet.getValue (S i) 2 sheet = Num (Z.of_nat row.1.2)
          ∧ Sheet.getValue (S i) 3 sheet = Str row.2.
Proof.
  intros rows ss'. split_and!.
  - apply sort_Permutation.
  - apply (sort_by_key_sorted (λ row : string * string * nat * string, row.1.2)).
  - intros name Hne. by apply writeSelectedSlotsToSheet_frame.
  - unfold ss', writeSelectedSlotsToSheet. rewrite lookup_insert_eq. eexists.
    split; [reflexivity|]. fold rows. rewrite foldl_appendRow.
    unfold Sheet.appendRow, Sheet.clear, Sheet.E2. simpl. split.
    + intros c Hc. case_decide; [rewrite getValue_setValue_ne by (intros [=])|]; reflexivity.
    + intros i row Hrow.
      assert (∀ c, c < 4 →
                Sheet.getValue (S i) c
                  (if decide (0 < length excludedStudents)
                   then Sheet.setValue 1 4 (Str (join excludedStudents))
                          (selectedHeaders
                           :: map (λ row : string * string * nat * string,
                                     [Str row.1.1.1; Str row.1.1.2;
                                      Num (Z.of_nat row.1.2); Str row.2]) rows)
                   else selectedHeaders
                        :: map (λ row : string * string * nat * string,
                                  [Str row.1.1.1; Str row.1.1.2;
                                   Num (Z.of_nat row.1.2); Str row.2]) rows)
                = default Blank ([Str row.1.1.1; Str row.1.1.2;
                                  Num (Z.of_nat row.1.2); Str row.2] !! c)) as Hcells.
      { intros c Hc.
        case_decide; [rewrite getValue_setValue_ne by (intros [=]; lia)|];
          rewrite getValue_cons; by rewrite (getValue_fmap _ _ _ _ _ Hrow). }
      split_and!; [apply (Hcells 0)|apply (Hcells 1)|apply (Hcells 2)|apply (Hcells 3)]; lia.
Qed.

Lemma selected_rows_written_witness :
  let selected := [("Mon 10am", ["a@x.edu"]); ("Tue 9am", ["b@x.edu"; "c@x.edu"])] in
  ∃ sheet,
    writeSelectedSlotsToSheet selected "out" ["c@x.edu"] ["d@x.edu"] ∅ !! "out" = Some sheet
    ∧ Sheet.getValue 1 0 sheet = Str "Tue 9am"
    ∧ Sheet.getValue 1 1 sheet = Str "b@x.edu, c@x.edu"
    ∧ Sheet.getValue 1 2 sheet = Num 2
    ∧ Sheet.getValue 1 3 sheet = Str "c@x.edu".
Proof.
  intros selected.
  destruct (selected_rows_written selected "out" ["c@x.edu"] ["d@x.edu"] ∅)
    as (_ & _ & _ & sheet & Hsheet & _ & Hrows).
  exists sheet. split; [exact Hsheet|].
  exact (Hrows 0 ("Tue 9am", "b@x.edu, c@x.edu", 2, "c@x.edu") eq_refl).
Defined.

(** ** Ties *)

Lemma app_snoc_split {A : Type} (s s1 s2 : list A) x e :
  s ++ [x] = s1 ++ e :: s2 →
  (s1 = s ∧ e = x ∧ s2 = []) ∨ ∃ s2', s2 = s2' ++ [x] ∧ s = s1 ++ e :: s2'.
Proof.
  intros Heq. destruct s2 as [|y s2 _] using rev_ind.
  - left. apply (app_inj_tail s s1 x e) in Heq as [-> ->]. by repeat split.
  - right. exists s2.
    change (s1 ++ e :: s2 ++ [y]) with (s1 ++ (e :: s2) ++ [y]) in Heq.
    rewrite (assoc_L (++)) in Heq. by apply app_inj_tail in Heq as [-> ->].
Qed.

(** A pass of the minimum-cover loop selects the first slot of the
    working index that has the largest new coverage, whenever there is
    one: it stores the slot under its label, adds its students to the
    covered ones and removes it from the working index. *)
Lemma minCoverRound_firstMax st k v :
  firstMax (newCoverage (studentsCovered st)) (k, v) (filteredSlots st) →
  minCoverRound st
  = Returned {| studentsCovered := studentsCovered st ∪ list_to_set v;
                selectedSlots := JsObject.set (selectedSlots st) k v;
                filteredSlots := JsObject.delete (filteredSlots st) k |}.
Proof.
  intros Hfm. unfold minCoverRound.
  destruct (sortedSlots st) as [|[k' v'] others] eqn:Hs.
  - apply sort_nil_inv in Hs. apply firstMax_elem_of in Hfm.
    unfold JsObject.entries in Hs. rewrite Hs in Hfm. by apply elem_of_nil in Hfm.
  - apply (sort_head_firstMax (newCoverage (studentsCovered st))) in Hs.
    by pose proof (firstMax_unique _ _ _ _ Hfm Hs) as [= <- <-].
Qed.

(** A pass of the iterative loop selects the first slot of the index
    that has the largest number of remaining students, whenever that
    number is not 0 and is at least the minimum: it appends the slot
    with its remaining students and removes them from the remaining
    ones. *)
Lemma iterativeRound_firstMax index minGroupSize st k v :
  firstMax (filteredSize (remainingStudents st)) (k, v) index →
  0 < filteredSize (remainingStudents st) (k, v) →
  (minGroupSize ≤ Z.of_nat (filteredSize (remainingStudents st) (k, v)))%Z →
  let students := filter (λ email, email ∈ remainingStudents st) v in
  iterativeRound index minGroupSize st
  = Continue {| remainingStudents := remainingStudents st ∖ list_to_set students;
                finalSelections := finalSelections st ++ [(k, students, length students)];
                totalStudents := totalStudents st + length students |}.
Proof.
  intros Hfm Hpos Hmin students. unfold iterativeRound.
  destruct (rankedSlots index (remainingStudents st)) as [|[[k' students'] count] rest] eqn:Hr.
  - pose proof (rankedSlots_nil _ _ Hr (k, v) (firstMax_elem_of _ _ _ Hfm)). lia.
  - apply rankedSlots_head in Hr as (v' & Hfm' & -> & -> & _).
    pose proof (firstMax_unique _ _ _ _ Hfm Hfm') as [= <- <-].
    unfold filteredSize in Hmin. simpl in Hmin. by rewrite decide_False by lia.
Qed.

(** The selection [getMinimumTimeSlots] returns is the greedy one, and
    it lists every student of the index. *)
Lemma getMinimumTimeSlots_greedy index :
  JsObject.wf index →
  ∃ selected rest,
    getMinimumTimeSlots index = Returned (selected, rest)
    ∧ greedyCover index selected
    ∧ allOf selected = allOf index.
Proof.
  intros Hwf.
  destruct (getMinimumTimeSlots_spec index Hwf)
    as (n & st & Hn & Hret & _ & _ & Hcall & _ & Hall).
  exists (selectedSlots st), (filteredSlots st). split; [done|]. split; [|done].
  pose proof (minCoverLoop_invariant
                (λ st, minCoverInv index st ∧ greedyCover index (selectedSlots st))
                (allOf index)) as Hind.
  eapply Hind; [| |exact (Hret _ Hn)].
  - intros st0 st1 [Hinv Hg] Hlt Hround.
    destruct (minCoverRound_spec index st0 Hwf Hinv Hlt)
      as (k & v & _ & st2 & _ & Hfm & _ & Hround2 & Hsel & _ & Hinv2).
    assert (st2 = st1) as -> by congruence.
    split; [done|]. rewrite Hsel. intros s1 e s2 Hsplit.
    apply app_snoc_split in Hsplit as [(-> & -> & ->)|(s2' & -> & Hold)].
    + destruct Hinv as [_ _ Hfil Hcov _]. by rewrite <- Hcov, <- Hfil.
    + by eapply Hg.
  - split; [apply minCoverInv_init|]. intros s1 e s2 Hsplit. by destruct s1.
Qed.

(** The selection [getIterativeTimeSlots] makes is the greedy one, made
    until the loop has a reason to stop. *)
Lemma selectIterative_greedy index minGroupSize :
  ∃ st,
    selectIterative index minGroupSize = Returned st
    ∧ greedyIterative index (finalSelections st)
    ∧ remainingStudents st = allOf index ∖ placed (finalSelections st)
    ∧ iterativeStopped index minGroupSize st.
Proof.
  destruct (selectIterative_spec index minGroupSize) as (st & Hsel & Hinv' & Hstop).
  exists st. split; [done|]. split; [|by destruct Hinv'].
  pose proof (iterativeLoop_invariant
                (λ st, iterativeInv index minGroupSize st
                       ∧ greedyIterative index (finalSelections st))
                index minGroupSize) as Hind.
  eapply Hind; [| |exact Hsel].
  - intros st0 st1 [Hinv Hg] Hround. split; [by eapply iterativeInv_round|].
    destruct Hinv as [_ Hrem _].
    apply iterativeRound_Continue in Hround
      as (k & v & Hfm & _ & _ & Hsel1 & _ & _). simpl in Hfm, Hsel1.
    rewrite Hsel1. intros s1 r s2 Hsplit.
    apply app_snoc_split in Hsplit as [(-> & -> & ->)|(s2' & -> & Hold)].
    + exists v. simpl. by rewrite <- Hrem.
    + by eapply Hg.
  - split; [apply iterativeInv_init|]. intros s1 r s2 Hsplit. by destruct s1.
Qed.

(** C5. Ties go to the slot inserted first, in both selectors, on every
    run.  A pass of [getMinimumTimeSlots] selects the first slot of the
    working index whose new coverage is largest: every slot before it
    has a strictly smaller count, so of two slots with the same count
    the later one is not taken; the working index keeps the slots not
    yet selected in the order of the index, and the selection returned
    is made, entry after entry, of these first slots, until every
    student of the index is listed.  A pass of
    [getIterativeTimeSlots] selects the first slot of the index with the
    largest number of remaining students (when that number is not 0 and
    reaches the minimum), and the selection it makes consists, entry
    after entry, of these first slots, until the loop has a reason to
    stop.  In both, the slot selected is
    the one read at the head of the sorted array.  Both selectors are
    functions of their input, so the choice does not vary between
    runs. *)
Theorem tie_break_insertion_order :
  (∀ st k v others,
     sortedSlots st = (k, v) :: others →
     firstMax (newCoverage (studentsCovered st)) (k, v) (filteredSlots st))
  ∧ (∀ index st,
       JsObject.wf index → minCoverReachable index st →
       filteredSlots st = filter (λ e, e.1 ∉ JsObject.keys (selectedSlots st)) index)
  ∧ (∀ index remaining k students count others,
       rankedSlots index remaining = (k, students, count) :: others →
       ∃ v, firstMax (filteredSize remaining) (k, v) index
            ∧ students = filter (λ email, email ∈ remaining) v
            ∧ count = length students)
  ∧ (∀ st k v,
       firstMax (newCoverage (studentsCovered st)) (k, v) (filteredSlots st) →
       minCoverRound st
       = Returned {| studentsCovered := studentsCovered st ∪ list_to_set v;
                     selectedSlots := JsObject.set (selectedSlots st) k v;
                     filteredSlots := JsObject.delete (filteredSlots st) k |})
  ∧ (∀ index,
       JsObject.wf index →
       ∃ selected rest,
         getMinimumTimeSlots index = Returned (selected, rest)
         ∧ greedyCover index selected
         ∧ allOf selected = allOf index)
  ∧ (∀ index minGroupSize st k v,
       firstMax (filteredSize (remainingStudents st)) (k, v) index →
       0 < filteredSize (remainingStudents st) (k, v) →
       (minGroupSize ≤ Z.of_nat (filteredSize (remainingStudents st) (k, v)))%Z →
       let students := filter (λ email, email ∈ remainingStudents st) v in
       iterativeRound index minGroupSize st
       = Continue {| remainingStudents := remainingStudents st ∖ list_to_set students;
                     finalSelections :=
                       finalSelections st ++ [(k, students, length students)];
                     totalStudents := totalStudents st + length students |})
  ∧ (∀ index minGroupSize,
       ∃ st,
         selectIterative index minGroupSize = Returned st
         ∧ greedyIterative index (finalSelections st)
         ∧ remainingStudents st = allOf index ∖ placed (finalSelections st)
         ∧ iterativeStopped index minGroupSize st).
Proof.
  split_and!.
  - intros st k v others Hs. by apply sort_head_firstMax in Hs.
  - intros index st Hwf Hreach.
    by destruct (minCoverReachable_inv index st Hwf Hreach).
  - intros index remaining k students count others Hr.
    apply rankedSlots_head in Hr as (v & Hfm & Hst & Hc & _). by exists v.
  - apply minCoverRound_firstMax.
  - apply getMinimumTimeSlots_greedy.
  - apply iterativeRound_firstMax.
  - apply selectIterative_greedy.
Qed.

(** Two slots of two students each after one of one: both selectors take
    the first of the two, in the pass and in the selection returned. *)
Lemma tie_break_insertion_order_witness :
  let index := [("A", ["p1"]); ("B", ["p2"; "p3"]); ("C", ["p4"; "p5"])] in
  firstMax (newCoverage ∅) ("B", ["p2"; "p3"]) index
  ∧ JsObject.wf index
  ∧ filteredSlots (minCoverInit index)
    = filter (λ e, e.1 ∉ JsObject.keys (selectedSlots (minCoverInit index))) index
  ∧ (∃ v, firstMax (filteredSize (allOf index)) ("B", v) index
          ∧ ["p2"; "p3"] = filter (λ email, email ∈ allOf index) v
          ∧ 2 = length ["p2"; "p3"])
  ∧ minCoverRound (minCoverInit index)
    = Returned {| studentsCovered := ∅ ∪ list_to_set ["p2"; "p3"];
                  selectedSlots := JsObject.set [] "B" ["p2"; "p3"];
                  filteredSlots := JsObject.delete index "B" |}
  ∧ (∃ selected rest,
       getMinimumTimeSlots index = Returned (selected, rest)
       ∧ greedyCover index selected
       ∧ allOf selected = allOf index)
  ∧ firstMax (filteredSize (allOf index)) ("B", ["p2"; "p3"]) index
  ∧ 0 < filteredSize (allOf index) ("B", ["p2"; "p3"])
  ∧ (2 ≤ Z.of_nat (filteredSize (allOf index) ("B", ["p2"; "p3"])))%Z
  ∧ iterativeRound index 2 (iterativeInit index)
    = Continue {| remainingStudents :=
                    allOf index
                    ∖ list_to_set (filter (λ email, email ∈ allOf index) ["p2"; "p3"]);
                  finalSelections :=
                    [("B", filter (λ email, email ∈ allOf index) ["p2"; "p3"],
                      length (filter (λ email, email ∈ allOf index) ["p2"; "p3"]))];
                  totalStudents :=
                    0 + length (filter (λ email, email ∈ allOf index) ["p2"; "p3"]) |}
  ∧ (∃ st,
       selectIterative index 2 = Returned st
       ∧ greedyIterative index (finalSelections st)
       ∧ remainingStudents st = allOf index ∖ placed (finalSelections st)
       ∧ iterativeStopped index 2 st).
Proof.
  pose proof tie_break_insertion_order
    as (Hhead & Hord & Hrank & Hpass & Hrun & Hpass' & Hrun').
  set (index := [("A", ["p1"]); ("B", ["p2"; "p3"]); ("C", ["p4"; "p5"])]).
  assert (firstMax (newCoverage ∅) ("B", ["p2"; "p3"]) index) as Hfm.
  { exact (Hhead (minCoverInit index) "B" ["p2"; "p3"]
             [("C", ["p4"; "p5"]); ("A", ["p1"])] eq_refl). }
  assert (JsObject.wf index) as Hwf by solve_wf.
  assert (firstMax (filteredSize (allOf index)) ("B", ["p2"; "p3"]) index) as Hfm'.
  { exists [("A", ["p1"])], [("C", ["p4"; "p5"])].
    split; [reflexivity|].
    split; repeat constructor; apply (bool_decide_unpack _); vm_compute; exact I. }
  assert (0 < filteredSize (allOf index) ("B", ["p2"; "p3"])) as Hpos.
  { apply (bool_decide_unpack _); vm_compute; exact I. }
  assert (2 ≤ Z.of_nat (filteredSize (allOf index) ("B", ["p2"; "p3"])))%Z as Hmin.
  { apply (bool_decide_unpack _); vm_compute; exact I. }
  split; [exact Hfm|].
  split; [exact Hwf|].
  split; [exact (Hord index (minCoverInit index) Hwf (minCover_start index))|].
  split.
  { exact (Hrank index (allOf index) "B" ["p2"; "p3"] 2
             [("C", ["p4"; "p5"], 2); ("A", ["p1"], 1)] eq_refl). }
  split; [exact (Hpass (minCoverInit index) "B" ["p2"; "p3"] Hfm)|].
  split; [exact (Hrun index Hwf)|].
  split; [exact Hfm'|].
  split; [exact Hpos|].
  split; [exact Hmin|].
  split; [exact (Hpass' index 2%Z (iterativeInit index) "B" ["p2"; "p3"] Hfm' Hpos Hmin)|].
  exact (Hrun' index 2%Z).
Defined.
